(** * Replicax: route matching and middleware dispatch

    A shallow embedding of [replicax()] (the request router of the
    repository) and the properties of its path matcher, its route table
    and its two-stage dispatch engine.

    Layout: character and string helpers ([Str]); the path matcher
    ([PathMatcher]: [pathToRegex], with the fragment of [RegExp] it relies
    on); patterns read without a regular expression ([Pattern]); JSON
    values and the response sink ([Json], [Response]); the dispatch engine
    ([Engine]: [handleRequest], [runMiddlewares], [routeHandler], [next]);
    a monitor for the order of the events of a request ([Monitor]);
    example applications; notions to state further properties with
    ([Shape]) and the file watcher ([Watch]); then the lemmas on each
    part, the properties of the specification, and further properties of
    the code. *)

From Stdlib Require Import String Ascii List Bool Arith ZArith Lia.
From Stdlib Require Import DecimalString.
Import ListNotations.
Open Scope list_scope.
Open Scope string_scope.

(* ================================================================= *)
(** ** Characters and strings *)

Module Str.

Definition is_slash (c : ascii) : bool := Ascii.eqb c "/".

Definition is_digit (c : ascii) : bool :=
  let n := nat_of_ascii c in ((48 <=? n) && (n <=? 57))%nat.

(** The character class [[A-Za-z0-9_]]. *)
Definition is_word (c : ascii) : bool :=
  let n := nat_of_ascii c in
  ((65 <=? n) && (n <=? 90))%nat || ((97 <=? n) && (n <=? 122))%nat
  || is_digit c || (n =? 95)%nat.

(** Membership of a character in a string seen as a set. *)
Fixpoint mem (c : ascii) (s : string) : bool :=
  match s with
  | "" => false
  | String d r => Ascii.eqb c d || mem c r
  end.

Fixpoint forallb (p : ascii -> bool) (s : string) : bool :=
  match s with
  | "" => true
  | String c r => p c && forallb p r
  end.

(** Longest prefix whose characters satisfy [p], and what follows it:
    what a greedy [[...]*] consumes. *)
Fixpoint span (p : ascii -> bool) (s : string) : string * string :=
  match s with
  | "" => ("", "")
  | String c r =>
      if p c then let (a, b) := span p r in (String c a, b) else ("", s)
  end.

Fixpoint strip_prefix (p s : string) : option string :=
  match p, s with
  | "", _ => Some s
  | String a p', String b s' =>
      if Ascii.eqb a b then strip_prefix p' s' else None
  | String _ _, "" => None
  end.

Fixpoint take (n : nat) (s : string) : string :=
  match n, s with
  | S n', String c r => String c (take n' r)
  | _, _ => ""
  end.

Fixpoint drop (n : nat) (s : string) : string :=
  match n, s with
  | S n', String _ r => drop n' r
  | _, _ => s
  end.

Definition is_empty (s : string) : bool :=
  match s with "" => true | _ => false end.

(** [s] is empty or starts with a character that fails [p]. *)
Definition head_fails (p : ascii -> bool) (s : string) : Prop :=
  match s with
  | "" => True
  | String c _ => p c = false
  end.

Definition nonslash (c : ascii) : bool := negb (is_slash c).

(** Facts about single characters are checked on the 256 of them. *)
Ltac by_cases_on c :=
  destruct c as [[] [] [] [] [] [] [] []]; vm_compute; intros;
  solve [reflexivity | discriminate | congruence | auto].

End Str.

(* ================================================================= *)
(** ** The path matcher *)

Module PathMatcher.
Import Str.

(** [TRAILING_SLASH_REGEXP = /\/+$/]: the pattern matches at the leftmost
    position from which the string is a non-empty run of slashes up to
    its end. *)
Definition TRAILING_SLASH_REGEXP_matches (s : string) : bool :=
  negb (is_empty s) && forallb is_slash s.

(** [s.replace(TRAILING_SLASH_REGEXP, '')]: the first (leftmost) match is
    replaced by the empty string. *)
Fixpoint strip_trailing_slashes (s : string) : string :=
  match s with
  | "" => ""
  | String c r =>
      if TRAILING_SLASH_REGEXP_matches s then ""
      else String c (strip_trailing_slashes r)
  end.

(** [s.replace(TRAILING_SLASH_REGEXP, '') || '/']: the empty string is
    falsy. *)
Definition normalize (s : string) : string :=
  let t := strip_trailing_slashes s in
  if is_empty t then "/" else t.

(** [.replace(/\//g, '\\/')]: every slash becomes backslash, slash. *)
Fixpoint escape_slashes (s : string) : string :=
  match s with
  | "" => ""
  | String c r =>
      if is_slash c then String "\" (String "/" (escape_slashes r))
      else String c (escape_slashes r)
  end.

(** The replacement text [`(?<${key}>[^\\/]+)`]. *)
Definition capture_group (key : string) : string :=
  "(?<" ++ key ++ ">[^\/]+)".

(** [.replace(/:([A-Za-z0-9_]+)/g, (_, key) => { keys.push(key); ... })]:
    scanning from the left, a colon followed by a non-empty maximal run of
    word characters is replaced by the capture group for that run, and
    the run is pushed on [keys]; any other character is copied.  The fuel
    bounds the number of scanning steps; each step consumes at least one
    character. *)
Fixpoint replace_params_from (fuel : nat) (s : string)
  : string * list string :=
  match fuel with
  | 0 => (s, [])
  | S fuel' =>
      match s with
      | "" => ("", [])
      | String c r =>
          let (key, rest) := span is_word r in
          if Ascii.eqb c ":" && negb (is_empty key) then
            let (out, keys) := replace_params_from fuel' rest in
            (capture_group key ++ out, key :: keys)
          else
            let (out, keys) := replace_params_from fuel' r in
            (String c out, keys)
      end
  end.

Definition replace_params (s : string) : string * list string :=
  replace_params_from (String.length s) s.

(** *** The fragment of [RegExp] the matcher relies on

    A compiled pattern is a sequence of atoms between the anchors [^] and
    [$].  The constructor [RegExp_new] covers the sources that
    [pathToRegex] produces from patterns without regular-expression syntax
    characters, plus the dot; any other source is [OutOfModel]. *)

Inductive atom : Type :=
| AChar (c : ascii)        (* a pattern character, or the escape [\/] *)
| AAny                     (* [.]: any character but a line terminator *)
| ANamed (name : string).  (* [(?<name>[^\/]+)] *)

Record RegExp : Type := { atoms : list atom }.

Inductive completion (A : Type) : Type :=
| Ok (a : A)
| SyntaxError      (* the RegExp constructor throws *)
| OutOfModel.      (* a source outside the modelled fragment *)
Arguments Ok {A} a.
Arguments SyntaxError {A}.
Arguments OutOfModel {A}.

Definition bind {A B} (x : completion A) (f : A -> completion B)
  : completion B :=
  match x with
  | Ok a => f a
  | SyntaxError => SyntaxError
  | OutOfModel => OutOfModel
  end.

(** SyntaxCharacter of the ECMAScript pattern grammar. *)
Definition is_syntax_char (c : ascii) : bool := mem c "^$\.*+?()[]{}|".

(** A group name is an identifier: among word characters, it is not empty
    and does not start with a digit. *)
Definition valid_group_name (name : string) : bool :=
  match name with
  | "" => false
  | String c _ => negb (is_digit c)
  end.

(** Line terminators of the ASCII range, which the dot does not match. *)
Definition is_line_terminator (c : ascii) : bool :=
  Ascii.eqb c "010" || Ascii.eqb c "013".

(** The atoms of a source after its [^], up to the [$] that ends it: an
    escaped slash, a dot, a named group of the form [pathToRegex] writes,
    or a character that is not a syntax character.  The fuel bounds the
    number of atoms; each one consumes at least one character. *)
Fixpoint parse_atoms (fuel : nat) (s : string) : completion (list atom) :=
  match fuel with
  | 0 => OutOfModel
  | S fuel' =>
      match s with
      | "" => OutOfModel
      | String c r =>
          if Ascii.eqb c "$" then
            if is_empty r then Ok [] else OutOfModel
          else if Ascii.eqb c "\" then
            match strip_prefix "/" r with
            | Some r' =>
                bind (parse_atoms fuel' r') (fun l => Ok (AChar "/" :: l))
            | None => OutOfModel
            end
          else if Ascii.eqb c "." then
            bind (parse_atoms fuel' r) (fun l => Ok (AAny :: l))
          else if Ascii.eqb c "(" then
            match strip_prefix "?<" r with
            | Some r1 =>
                let (name, r2) := span is_word r1 in
                match strip_prefix ">" r2 with
                | Some r3 =>
                    if valid_group_name name then
                      match strip_prefix "[^\/]+)" r3 with
                      | Some r4 =>
                          bind (parse_atoms fuel' r4)
                               (fun l => Ok (ANamed name :: l))
                      | None => OutOfModel
                      end
                    else SyntaxError
                | None => OutOfModel
                end
            | None => OutOfModel
            end
          else if is_syntax_char c then OutOfModel
          else bind (parse_atoms fuel' r) (fun l => Ok (AChar c :: l))
      end
  end.

Fixpoint group_names (l : list atom) : list string :=
  match l with
  | [] => []
  | ANamed n :: r => n :: group_names r
  | _ :: r => group_names r
  end.

Fixpoint distinct (l : list string) : bool :=
  match l with
  | [] => true
  | x :: r => negb (existsb (String.eqb x) r) && distinct r
  end.

(** [new RegExp(source)] for a source of the form [^...$]; two groups of
    the same name are a SyntaxError. *)
Definition RegExp_new (source : string) : completion RegExp :=
  match source with
  | String c body =>
      if Ascii.eqb c "^" then
        bind (parse_atoms (String.length body) body)
             (fun l => if distinct (group_names l)
                       then Ok {| atoms := l |} else SyntaxError)
      else OutOfModel
  | "" => OutOfModel
  end.

Record PathRegex : Type := { regex : RegExp; keys : list string }.

Definition pathToRegex (path : string) : completion PathRegex :=
  let cleanPath := normalize path in
  let (regexStr, keys) := replace_params (escape_slashes cleanPath) in
  bind (RegExp_new ("^" ++ regexStr ++ "$"))
       (fun r => Ok {| regex := r; keys := keys |}).

(** *** Matching

    [groups] is the [groups] object of a successful match, in the order
    of the groups in the pattern. *)
Definition groups : Type := list (string * string).

(** A greedy [[^\/]+] followed by the rest of the pattern: the longest
    capture is tried first, then shorter ones down to one character. *)
Fixpoint backtrack (rest : string -> option groups) (name s : string)
         (n : nat) : option groups :=
  match n with
  | 0 => None
  | S m =>
      match rest (drop n s) with
      | Some g => Some ((name, take n s) :: g)
      | None => backtrack rest name s m
      end
  end.

Fixpoint exec_atoms (l : list atom) (s : string) : option groups :=
  match l with
  | [] => if is_empty s then Some [] else None
  | AChar c :: l' =>
      match s with
      | String d s' => if Ascii.eqb c d then exec_atoms l' s' else None
      | "" => None
      end
  | AAny :: l' =>
      match s with
      | String d s' => if is_line_terminator d then None else exec_atoms l' s'
      | "" => None
      end
  | ANamed name :: l' =>
      backtrack (exec_atoms l') name s
                (String.length (fst (span (fun c => negb (is_slash c)) s)))
  end.

(** [pathname.match(regex)]: [None] is [null]; otherwise the named groups
    of the match ([match.groups || {}], the empty list when the pattern
    has no named group). *)
Definition String_match (pathname : string) (r : RegExp) : option groups :=
  exec_atoms (atoms r) pathname.

End PathMatcher.

(* ================================================================= *)
(** ** Patterns read directly

    Two readings of a route pattern that do not go through a regular
    expression, to compare [pathToRegex] with. *)

Module Pattern.
Import Str PathMatcher.

(** Characters whose meaning in a regular expression the model covers:
    those that are not syntax characters, and the dot. *)
Definition supported (c : ascii) : bool :=
  negb (is_syntax_char c) || Ascii.eqb c ".".

(** The atoms of a pattern, read from left to right: a colon followed by
    a non-empty maximal run of word characters, wherever it stands, is a
    named capture; any other character stands for itself (the dot for any
    character). *)
Fixpoint tokenize_from (fuel : nat) (s : string) : list atom :=
  match fuel with
  | 0 => []
  | S fuel' =>
      match s with
      | "" => []
      | String c r =>
          let (key, rest) := span is_word r in
          if Ascii.eqb c ":" && negb (is_empty key) then
            ANamed key :: tokenize_from fuel' rest
          else
            (if Ascii.eqb c "." then AAny else AChar c)
              :: tokenize_from fuel' r
      end
  end.

Definition tokenize (s : string) : list atom :=
  tokenize_from (String.length s) s.

(** When a path matches a sequence of atoms, and with which groups: a
    character atom consumes that character, a dot any character but a
    line terminator, a named capture a non-empty run without slash. *)
Inductive matches : list atom -> string -> groups -> Prop :=
| matches_nil : matches [] "" []
| matches_char c l s g :
    matches l s g -> matches (AChar c :: l) (String c s) g
| matches_any c l s g :
    is_line_terminator c = false ->
    matches l s g -> matches (AAny :: l) (String c s) g
| matches_named name v l s g :
    is_empty v = false ->
    forallb (fun c => negb (is_slash c)) v = true ->
    matches l s g -> matches (ANamed name :: l) (v ++ s) ((name, v) :: g).

(** The names of a compiled pattern are checked when the constructor
    reaches them. *)
Definition check_names (l : list atom) : completion (list atom) :=
  if List.forallb valid_group_name (group_names l) then Ok l else SyntaxError.

(** Patterns given by their segments, [/seg/seg...]. *)
Inductive segment : Type :=
| Lit (text : string)
| Param (name : string).

Definition render_segment (sg : segment) : string :=
  match sg with
  | Lit text => text
  | Param name => String ":" name
  end.

Fixpoint render (segs : list segment) : string :=
  match segs with
  | [] => ""
  | sg :: r => String "/" (render_segment sg ++ render r)
  end.

(** A literal segment is a non-empty text of plain characters (supported
    ones other than the slash and the colon); a parameter name is a
    non-empty run of word characters that does not start with a digit. *)
Definition plain (c : ascii) : bool :=
  supported c && negb (is_slash c) && negb (Ascii.eqb c ":").

Definition wf_segment (sg : segment) : bool :=
  match sg with
  | Lit text => negb (is_empty text) && forallb plain text
  | Param name => forallb is_word name && valid_group_name name
  end.

Fixpoint param_names (segs : list segment) : list string :=
  match segs with
  | [] => []
  | Param name :: r => name :: param_names r
  | Lit _ :: r => param_names r
  end.

Definition wf_pattern (segs : list segment) : bool :=
  negb (match segs with [] => true | _ => false end)
  && List.forallb wf_segment segs && distinct (param_names segs).

(** The atoms a pattern given by segments stands for. *)
Definition atom_of_char (c : ascii) : atom :=
  if Ascii.eqb c "." then AAny else AChar c.

Fixpoint atoms_of (segs : list segment) : list atom :=
  match segs with
  | [] => []
  | Lit text :: r =>
      AChar "/" :: map atom_of_char (list_ascii_of_string text) ++ atoms_of r
  | Param name :: r => AChar "/" :: ANamed name :: atoms_of r
  end.

(** A concrete path has the structure of a pattern when it has as many
    segments, equal to the literal ones, and non-empty and free of slashes
    at the parameters; [bindings] pairs each parameter with its
    segment. *)
Fixpoint instance_of (segs : list segment) (values : list string) : bool :=
  match segs, values with
  | [], [] => true
  | Lit text :: r, v :: vs => String.eqb text v && instance_of r vs
  | Param _ :: r, v :: vs =>
      negb (is_empty v) && forallb (fun c => negb (is_slash c)) v
      && instance_of r vs
  | _, _ => false
  end.

Fixpoint concrete (values : list string) : string :=
  match values with
  | [] => ""
  | v :: r => String "/" (v ++ concrete r)
  end.

Fixpoint bindings (segs : list segment) (values : list string) : groups :=
  match segs, values with
  | Param name :: r, v :: vs => (name, v) :: bindings r vs
  | Lit _ :: r, _ :: vs => bindings r vs
  | _, _ => []
  end.

(** The segments of a pattern as the specification words them: the
    pattern is split at the slashes, a segment that is a colon followed by
    a name is a parameter, any other segment is literal text. *)
Fixpoint split_segments (cur : string) (s : string) : list string :=
  match s with
  | "" => [cur]
  | String c r =>
      if is_slash c then cur :: split_segments "" r
      else split_segments (cur ++ String c "") r
  end.

Definition classify (seg : string) : segment :=
  match seg with
  | String c name =>
      if Ascii.eqb c ":" && negb (is_empty name) && forallb is_word name
      then Param name else Lit seg
  | "" => Lit ""
  end.

Definition segments_of (rest : string) : list segment :=
  map classify (split_segments "" rest).

Fixpoint match_segments (segs : list segment) (values : list string)
  : option groups :=
  match segs, values with
  | [], [] => Some []
  | Lit text :: r, v :: vs =>
      if String.eqb text v then match_segments r vs else None
  | Param name :: r, v :: vs =>
      if is_empty v then None
      else match match_segments r vs with
           | Some g => Some ((name, v) :: g)
           | None => None
           end
  | _, _ => None
  end.

(** The matcher of the specification: the normalized pattern and the
    path, both starting with a slash, are compared segment by segment. *)
Definition segment_match (pattern path : string) : option groups :=
  match normalize pattern, path with
  | String c r, String c' r' =>
      if is_slash c && is_slash c'
      then match_segments (segments_of r) (split_segments "" r')
      else None
  | _, _ => None
  end.

End Pattern.

(* ================================================================= *)
(** ** JSON values *)

Module Json.

#[local] Set Warnings "-register-all".

Inductive value : Type :=
| Null
| Bool (b : bool)
| Num (z : Z)
| Str (s : string)
| Arr (items : list value)
| Obj (fields : list (string * value)).

(** The empty object [{}]. *)
Definition empty_object : value := Obj [].

Definition dquote : ascii := "034"%char.

Definition hex_digit (n : nat) : ascii :=
  nth n (list_ascii_of_string "0123456789abcdef") "0"%char.

(** QuoteJSONString on one code unit of the ASCII range. *)
Definition quote_char (c : ascii) : string :=
  let n := nat_of_ascii c in
  if Ascii.eqb c dquote then String "\" (String dquote "")
  else if Ascii.eqb c "\" then "\\"
  else if (n =? 8)%nat then "\b"
  else if (n =? 9)%nat then "\t"
  else if (n =? 10)%nat then "\n"
  else if (n =? 12)%nat then "\f"
  else if (n =? 13)%nat then "\r"
  else if (n <? 32)%nat then
    "\u00" ++ String (hex_digit (n / 16)) (String (hex_digit (n mod 16)) "")
  else String c "".

Fixpoint quote_chars (s : string) : string :=
  match s with
  | "" => ""
  | String c r => quote_char c ++ quote_chars r
  end.

Definition quote (s : string) : string :=
  String dquote (quote_chars s ++ String dquote "").

Fixpoint join (sep : string) (l : list string) : string :=
  match l with
  | [] => ""
  | [x] => x
  | x :: r => x ++ sep ++ join sep r
  end.

(** [JSON.stringify] on the values above.  A number is printed digit by
    digit, as [JSON.stringify] prints the integers that a JavaScript
    number holds exactly (up to 2^53 - 1 in absolute value). *)
Fixpoint stringify (v : value) : string :=
  match v with
  | Null => "null"
  | Bool true => "true"
  | Bool false => "false"
  | Num z => NilZero.string_of_int (Z.to_int z)
  | Str s => quote s
  | Arr items => "[" ++ join "," (map stringify items) ++ "]"
  | Obj fields =>
      "{" ++ join "," (map (fun kv : string * value =>
                              let (k, x) := kv in quote k ++ ":" ++ stringify x)
                           fields) ++ "}"
  end.

End Json.

(* ================================================================= *)
(** ** The response sink

    The part of [http.ServerResponse] that [enhanceResponse] and the
    top-level catch use: the status code, the headers set so far, and
    what was sent. *)

Module Response.

Definition header : Type := (string * string)%type.

(** [sent] is what went to the client: nothing yet, or the status line
    and the headers, with the body once [end] was called. *)
Record ServerResponse : Type := {
  statusCode : Z;
  headers : list header;
  sent : option (Z * list header * option string)
}.

Definition fresh : ServerResponse :=
  {| statusCode := 200; headers := []; sent := None |}.

Definition headersSent (r : ServerResponse) : bool :=
  match sent r with Some _ => true | None => false end.

Definition set_header (name v : string) (hs : list header) : list header :=
  (name, v) :: filter (fun kv => negb (String.eqb (fst kv) name)) hs.

(** [res.status(code)]: [res.statusCode = code; return res]. *)
Definition status (code : Z) (r : ServerResponse) : ServerResponse :=
  {| statusCode := code; headers := headers r; sent := sent r |}.

(** The messages of ERR_HTTP_HEADERS_SENT. *)
Definition ERR_HTTP_HEADERS_SENT_set : string :=
  "Cannot set headers after they are sent to the client".
Definition ERR_HTTP_HEADERS_SENT_write : string :=
  "Cannot write headers after they are sent to the client".

(** [res.setHeader(name, v)] throws once the headers are sent. *)
Definition setHeader (name v : string) (r : ServerResponse)
  : string + ServerResponse :=
  if headersSent r then inl ERR_HTTP_HEADERS_SENT_set
  else inr {| statusCode := statusCode r;
              headers := set_header name v (headers r);
              sent := sent r |}.

(** [res.end(data)]: sends the headers if they were not, and the body; a
    second call sends nothing.  Writing the head, Node refuses a status
    code outside 100..999 ([ERR_HTTP_INVALID_STATUS_CODE]); that error is
    not modelled: a code given to [res.status] is taken to be in that
    range, as 404 and 500 are. *)
Definition end_ (data : string) (r : ServerResponse) : ServerResponse :=
  {| statusCode := statusCode r; headers := headers r;
     sent := match sent r with
             | None => Some (statusCode r, headers r, Some data)
             | Some (code, hs, None) => Some (code, hs, Some data)
             | Some (code, hs, Some b) => Some (code, hs, Some b)
             end |}.

(** [res.writeHead(code, { name: v })] throws once the headers are
    sent. *)
Definition writeHead (code : Z) (name v : string) (r : ServerResponse)
  : string + ServerResponse :=
  if headersSent r then inl ERR_HTTP_HEADERS_SENT_write
  else inr {| statusCode := code; headers := headers r;
              sent := Some (code, set_header name v (headers r), None) |}.

(** [res.json(data)]:
    [res.setHeader('Content-Type', 'application/json');
     res.end(JSON.stringify(data))]. *)
Definition json (data : Json.value) (r : ServerResponse)
  : string + ServerResponse :=
  match setHeader "Content-Type" "application/json" r with
  | inl e => inl e
  | inr r' => inr (end_ (Json.stringify data) r')
  end.

(** What the client received, once the response is finished: the status
    and the body. *)
Definition delivered (r : ServerResponse) : option (Z * string) :=
  match sent r with
  | Some (code, _, Some b) => Some (code, b)
  | _ => None
  end.

(** The content type the client received. *)
Definition content_type (r : ServerResponse) : option string :=
  match sent r with
  | Some (_, (name, v) :: _, _) =>
      if String.eqb name "Content-Type" then Some v else None
  | _ => None
  end.

End Response.

(* ================================================================= *)
(** ** The dispatch engine *)

Module Engine.
Import Str PathMatcher.

(** What a middleware or a handler sees of [req] when it is invoked. *)
Record Request : Type := {
  req_method : string;
  req_url : string;
  req_params : groups;
  req_body : Json.value
}.

(** The body of a middleware or handler [(req, res, next) => ...], as the
    sequence of its calls into the framework: it returns, throws, calls
    [res.status], [res.json] or [next], or has an effect of its own
    (observable outside the framework, named by a tag).  A body runs to
    its end within the call that invoked it: calls of [next] made later,
    from a timer or a promise, are not part of this model.  What a body
    throws is an error with a message ([throw new Error(message)]); a
    body reads [req] when it is invoked, and does not assign
    [req.params] or [req.body]. *)
Inductive prog : Type :=
| Return
| Throw (message : string)
| Effect (tag : string) (k : prog)
| Status (code : Z) (k : prog)
| Json (data : Json.value) (k : prog)
| Next (k : prog).

Definition Handler : Type := Request -> prog.

Record Route : Type := {
  route_method : string;
  route_regex : RegExp;
  handlers : list Handler
}.

Record App : Type := {
  routes : list Route;
  middlewares : list Handler
}.

Definition createApp : App := {| routes := []; middlewares := [] |}.

(** [register(method, path, ...handler)]:
    [routes.push({ method, regex, handlers: handler })]. *)
Definition register (app : App) (method path : string) (handler : list Handler)
  : completion App :=
  bind (pathToRegex path)
       (fun pr => Ok {| routes := routes app ++
                                  [{| route_method := method;
                                      route_regex := regex pr;
                                      handlers := handler |}];
                        middlewares := middlewares app |}).

(** [use: (middleware) => middlewares.push(middleware)]. *)
Definition use (app : App) (middleware : Handler) : App :=
  {| routes := routes app; middlewares := middlewares app ++ [middleware] |}.

Definition get app := register app "GET".
Definition post app := register app "POST".
Definition put app := register app "PUT".
Definition patch app := register app "PATCH".
Definition delete app := register app "DELETE".

(** [new URL(req.url, base)]: its pathname, or the message of the error
    it throws. *)
Inductive URL_result : Type :=
| Pathname (p : string)
| InvalidURL (message : string).

(** The incoming request: method, request target, the outcome of parsing
    the target, and the chunks its stream delivers before it ends. *)
Record IncomingMessage : Type := {
  method : string;
  url : string;
  parsedUrl : URL_result;
  chunks : list string
}.

(** Events of one request, in the order they happen. *)
Inductive event : Type :=
| EvData (chunk : string)         (* parseBody consumed a chunk *)
| EvRunMiddlewares                (* runMiddlewares was called *)
| EvMiddleware (i : nat)          (* middlewares[i] was invoked *)
| EvRouteHandler                  (* routeHandler was called: route lookup *)
| EvNext                          (* a route's next was called *)
| EvHandler (route j : nat)       (* handlers[j] of a route was invoked *)
| EvEffect (tag : string)         (* an effect of a middleware or handler *)
| EvNotFound                      (* the 404 response is written *)
| EvHandlerError                  (* the per-handler catch ran *)
| EvServerError.                  (* the top-level catch ran *)

(** The mutable state of one request: [res], [req.params], [req.body],
    the cursors [i] and [j], and the events so far. *)
Record State : Type := {
  res : Response.ServerResponse;
  params : groups;
  body : Json.value;
  i : nat;
  j : nat;
  trace : list event
}.

Definition with_res (f : Response.ServerResponse -> Response.ServerResponse)
           (st : State) : State :=
  {| res := f (res st); params := params st; body := body st;
     i := i st; j := j st; trace := trace st |}.
Definition set_params (g : groups) (st : State) : State :=
  {| res := res st; params := g; body := body st;
     i := i st; j := j st; trace := trace st |}.
Definition set_body (v : Json.value) (st : State) : State :=
  {| res := res st; params := params st; body := v;
     i := i st; j := j st; trace := trace st |}.
Definition set_i (n : nat) (st : State) : State :=
  {| res := res st; params := params st; body := body st;
     i := n; j := j st; trace := trace st |}.
Definition set_j (n : nat) (st : State) : State :=
  {| res := res st; params := params st; body := body st;
     i := i st; j := n; trace := trace st |}.
Definition log (e : event) (st : State) : State :=
  {| res := res st; params := params st; body := body st;
     i := i st; j := j st; trace := trace st ++ [e] |}.

(** How a call ends: normally, or with an exception. *)
Inductive signal : Type :=
| Normal
| Thrown (message : string).

Definition result : Type := (signal * State)%type.

(** [res.status(code)] and [res.json(data)], the methods that
    [enhanceResponse] adds to [res]. *)
Definition res_status (code : Z) (st : State) : State :=
  with_res (Response.status code) st.

Definition res_json (data : Json.value) (st : State) : result :=
  match Response.json data (res st) with
  | inl e => (Thrown e, st)
  | inr r => (Normal, with_res (fun _ => r) st)
  end.

(** Running a body; [next] is the continuation it was given.  An
    exception of [res.json] or of [next()] ends the body: bodies do not
    catch. *)
Fixpoint run (next : State -> result) (p : prog) (st : State) : result :=
  match p with
  | Return => (Normal, st)
  | Throw message => (Thrown message, st)
  | Effect tag k => run next k (log (EvEffect tag) st)
  | Status code k => run next k (res_status code st)
  | Json data k =>
      match res_json data st with
      | (Normal, st') => run next k st'
      | thrown => thrown
      end
  | Next k =>
      match next st with
      | (Normal, st') => run next k st'
      | thrown => thrown
      end
  end.

Definition internal_server_error : Json.value :=
  Json.Obj [("error", Json.Str "Internal Server Error")].
Definition route_not_found : Json.value :=
  Json.Obj [("error", Json.Str "Route not found")].
Definition server_error (message : string) : Json.value :=
  Json.Obj [("error", Json.Str "Server error"); ("message", Json.Str message)].

(** The texts [JSON.stringify] gives for these bodies. *)
Definition internal_server_error_text : string :=
  "{" ++ Json.quote "error" ++ ":" ++ Json.quote "Internal Server Error" ++ "}".
Definition route_not_found_text : string :=
  "{" ++ Json.quote "error" ++ ":" ++ Json.quote "Route not found" ++ "}".
Definition server_error_text (message : string) : string :=
  "{" ++ Json.quote "error" ++ ":" ++ Json.quote "Server error" ++ ","
      ++ Json.quote "message" ++ ":" ++ Json.quote message ++ "}".

(** [for (const route of routes)]: the first route whose regex matches
    the pathname and whose method is the request's, with its position and
    the groups of the match. *)
Fixpoint find_route (rs : list Route) (pos : nat) (method pathname : string)
  : option (nat * Route * groups) :=
  match rs with
  | [] => None
  | route :: rs' =>
      match String_match pathname (route_regex route) with
      | Some g =>
          if String.eqb method (route_method route) then Some (pos, route, g)
          else find_route rs' (S pos) method pathname
      | None => find_route rs' (S pos) method pathname
      end
  end.

Section Request.

(** [JSON.parse]: [None] when it throws. *)
Variable JSON_parse : string -> option Json.value.
Variable app : App.
Variable req : IncomingMessage.

Definition view (st : State) : Request :=
  {| req_method := method req; req_url := url req;
     req_params := params st; req_body := body st |}.

(** [function next()] of a matched route: [handlers[j++]], invoked inside
    [try], the catch writing the 500 response.  [fuel] bounds the depth
    of nested calls, which never exceeds the number of handlers left:
    [routeHandler] gives as much, and more fuel changes nothing (lemma
    [next_fuel]). *)
Fixpoint next (route : nat) (hs : list Handler) (fuel : nat) (st : State)
  : result :=
  let st1 := log EvNext (set_j (S (j st)) st) in
  match nth_error hs (j st), fuel with
  | Some handler, S fuel' =>
      match run (next route hs fuel') (handler (view st1))
                (log (EvHandler route (j st)) st1) with
      | (Normal, st2) => (Normal, st2)
      | (Thrown _, st2) =>
          res_json internal_server_error
                   (res_status 500 (log EvHandlerError st2))
      end
  | _, _ => (Normal, st1)
  end.

Section Closure.

(** [const pathname], the normalized path of the request. *)
Variable pathname : string.

Definition routeHandler (st : State) : result :=
  let st0 := log EvRouteHandler st in
  match find_route (routes app) 0 (method req) pathname with
  | Some (pos, route, g) =>
      next pos (handlers route) (List.length (handlers route))
           (set_j 0 (set_params g st0))
  | None => res_json route_not_found (res_status 404 (log EvNotFound st0))
  end.

(** [function runMiddlewares()]: [middlewares[i++]], or the route handler
    when there is none.  [fuel] bounds the depth of nested calls, which
    never exceeds the number of middleware left: [handleRequest] gives as
    much, and more fuel changes nothing (lemma [runMiddlewares_fuel]). *)
Fixpoint runMiddlewares (fuel : nat) (st : State) : result :=
  let st1 := log EvRunMiddlewares (set_i (S (i st)) st) in
  match nth_error (middlewares app) (i st) with
  | None => routeHandler st1
  | Some middleware =>
      match fuel with
      | S fuel' =>
          run (runMiddlewares fuel') (middleware (view st1))
              (log (EvMiddleware (i st)) st1)
      | 0 => (Normal, st1)
      end
  end.

End Closure.

Definition body_methods : list string := ["POST"; "PUT"; "PATCH"].

(** [parseBody(req)]: for a body-bearing method the chunks are
    concatenated and parsed when the stream ends. *)
Definition parseBody (st : State) : State :=
  if existsb (String.eqb (method req)) body_methods then
    let text := fold_left append (chunks req) "" in
    let st' :=
      fold_left (fun s chunk => log (EvData chunk) s) (chunks req) st in
    set_body (match JSON_parse text with
              | Some v => v
              | None => Json.empty_object
              end) st'
  else set_body Json.empty_object st.

(** How the promise of [handleRequest] settles. *)
Inductive settled : Type :=
| Resolved
| Rejected (message : string).

(** The [catch (err)] of [handleRequest]. *)
Definition top_level_catch (message : string) (st : State) : settled * State :=
  let st0 := log EvServerError st in
  match Response.writeHead 500 "Content-Type" "application/json" (res st0) with
  | inl e => (Rejected e, st0)
  | inr r =>
      (Resolved,
       with_res (fun _ => Response.end_
                            (Json.stringify (server_error message)) r) st0)
  end.

(** The state a request arrives in: a fresh response, [req.body] not
    set yet. *)
Definition initial : State :=
  {| res := Response.fresh; params := []; body := Json.Null;
     i := 0; j := 0; trace := [] |}.

(** [async function handleRequest(req, res)]: the URL is parsed and its
    pathname normalized; [enhanceResponse(res)] gives [res] the methods
    [status] and [json] of [Response]; [req.params = {}]; the body is
    awaited; then [runMiddlewares()] is called, all inside [try]. *)
Definition handleRequest : settled * State :=
  match parsedUrl req with
  | InvalidURL message => top_level_catch message initial
  | Pathname p =>
      let pathname := normalize p in
      let st := parseBody (set_params [] initial) in
      match runMiddlewares pathname (List.length (middlewares app)) st with
      | (Normal, st') => (Resolved, st')
      | (Thrown message, st') => top_level_catch message st'
      end
  end.

(** The events of the chunks [parseBody] consumes, and the value it
    gives [req.body]. *)
Definition chunk_events : list event :=
  if existsb (String.eqb (method req)) body_methods
  then map EvData (chunks req) else [].

Definition parsed_body : Json.value :=
  if existsb (String.eqb (method req)) body_methods
  then match JSON_parse (fold_left append (chunks req) "") with
       | Some v => v
       | None => Json.empty_object
       end
  else Json.empty_object.

End Request.

(** *** Bodies that do not call their continuation, and handlers that do
    not look at the request target *)

Fixpoint calls_next (p : prog) : bool :=
  match p with
  | Return | Throw _ => false
  | Effect _ k | Status _ k | Json _ k => calls_next k
  | Next _ => true
  end.

(** How many times a body calls its continuation. *)
Fixpoint next_calls (p : prog) : nat :=
  match p with
  | Return | Throw _ => 0
  | Effect _ k | Status _ k | Json _ k => next_calls k
  | Next k => S (next_calls k)
  end.

(** Events that do not go past the middleware at position [K]: no
    middleware after it, nothing of the routing and handler stage. *)
Definition before_routing (K : nat) (e : event) : Prop :=
  match e with
  | EvData _ | EvRunMiddlewares | EvEffect _ | EvServerError => True
  | EvMiddleware k => k <= K
  | _ => False
  end.

(** Events that may follow the catch of a handler error when no body
    calls [next] again: effects of the bodies that are returning, and
    catches. *)
Definition unwinding (e : event) : Prop :=
  match e with
  | EvEffect _ | EvHandlerError | EvServerError => True
  | _ => False
  end.

(** After the first handler error, only unwinding events. *)
Fixpoint settles (d : list event) : Prop :=
  match d with
  | [] => True
  | EvHandlerError :: r => Forall unwinding r
  | _ :: r => settles r
  end.

(** [st'] has the events of [st], then events that settle. *)
Definition settling (st st' : State) : Prop :=
  exists d, trace st' = (trace st ++ d)%list /\ settles d.

(** [st'] has the events of [st], then events without handler error. *)
Definition calm (st st' : State) : Prop :=
  exists d, trace st' = (trace st ++ d)%list /\ ~ In EvHandlerError d.

(** Every middleware and every handler calls [next] at most once. *)
Definition at_most_once (h : Handler) : Prop :=
  forall r, next_calls (h r) <= 1.

Definition app_at_most_once (app : App) : Prop :=
  Forall at_most_once (middlewares app)
  /\ Forall (fun route => Forall at_most_once (handlers route)) (routes app).

Definition with_url (u : string) (r : Request) : Request :=
  {| req_method := req_method r; req_url := u;
     req_params := req_params r; req_body := req_body r |}.

Definition url_blind (h : Handler) : Prop :=
  forall r u, h (with_url u r) = h r.

Definition app_url_blind (app : App) : Prop :=
  Forall url_blind (middlewares app)
  /\ Forall (fun route => Forall url_blind (handlers route)) (routes app).

(** [st'] has the events of [st], then events that satisfy [P]. *)
Definition grows (P : event -> Prop) (st st' : State) : Prop :=
  exists d, trace st' = (trace st ++ d)%list /\ Forall P d.

(** Handler events are those of the handlers up to position [K] of their
    route. *)
Definition handlers_upto (K : nat) (e : event) : Prop :=
  forall route k, e = EvHandler route k -> k <= K.

(** A route matches a request when its method is the request's and its
    regex matches the pathname. *)
Definition route_matches (method pathname : string) (route : Route) : bool :=
  String.eqb method (route_method route)
  && match String_match pathname (route_regex route) with
     | Some _ => true
     | None => false
     end.

End Engine.

(* ================================================================= *)
(** ** Well-formed traces

    A monitor for the order of the events of one request: chunks are read
    before anything else; a middleware is invoked, and the routes are
    looked up, right after a call of [runMiddlewares]; no middleware is
    invoked once the routes were looked up, and the positions of the
    invoked middleware increase; a handler is invoked right after a call
    of a route's [next]; the 404 response follows a lookup. *)

Module Monitor.
Import Engine.

Record t : Type := {
  reading : bool;        (* only chunks were read so far *)
  routed : bool;         (* the routes were looked up *)
  next_mw : nat;         (* least position a middleware may be invoked at *)
  prev : option event    (* the previous event *)
}.

Definition start : t :=
  {| reading := true; routed := false; next_mw := 0; prev := None |}.

Definition is_run (e : option event) : bool :=
  match e with Some EvRunMiddlewares => true | _ => false end.
Definition is_next (e : option event) : bool :=
  match e with Some EvNext => true | _ => false end.
Definition is_lookup (e : option event) : bool :=
  match e with Some EvRouteHandler => true | _ => false end.

Definition guard (c : bool) (m : t) : option t := if c then Some m else None.

Definition step (m : t) (e : event) : option t :=
  match e with
  | EvData _ =>
      guard (reading m)
            {| reading := true; routed := routed m;
               next_mw := next_mw m; prev := Some e |}
  | EvRunMiddlewares =>
      Some {| reading := false; routed := routed m;
              next_mw := next_mw m; prev := Some e |}
  | EvMiddleware k =>
      guard (is_run (prev m) && negb (routed m) && (next_mw m <=? k)%nat)
            {| reading := false; routed := false;
               next_mw := S k; prev := Some e |}
  | EvRouteHandler =>
      guard (is_run (prev m))
            {| reading := false; routed := true;
               next_mw := next_mw m; prev := Some e |}
  | EvNext | EvHandlerError =>
      guard (routed m)
            {| reading := false; routed := true;
               next_mw := next_mw m; prev := Some e |}
  | EvHandler _ _ =>
      guard (routed m && is_next (prev m))
            {| reading := false; routed := true;
               next_mw := next_mw m; prev := Some e |}
  | EvNotFound =>
      guard (routed m && is_lookup (prev m))
            {| reading := false; routed := true;
               next_mw := next_mw m; prev := Some e |}
  | EvEffect _ =>
      guard (negb (reading m))
            {| reading := false; routed := routed m;
               next_mw := next_mw m; prev := Some e |}
  | EvServerError =>
      Some {| reading := reading m; routed := routed m;
              next_mw := next_mw m; prev := Some e |}
  end.

Fixpoint accept (m : t) (l : list event) : option t :=
  match l with
  | [] => Some m
  | e :: r =>
      match step m e with
      | Some m' => accept m' r
      | None => None
      end
  end.

Definition well_formed (l : list event) : Prop :=
  exists m, accept start l = Some m.

(** The event that an event must follow immediately, if any. *)
Definition required_prev (e : event) : option event :=
  match e with
  | EvMiddleware _ | EvRouteHandler => Some EvRunMiddlewares
  | EvHandler _ _ => Some EvNext
  | EvNotFound => Some EvRouteHandler
  | _ => None
  end.

(** Events of the routing and handler stage. *)
Definition routing_event (e : event) : bool :=
  match e with
  | EvRouteHandler | EvNext | EvHandler _ _ | EvNotFound | EvHandlerError => true
  | _ => false
  end.

Definition handler_event (e : event) : bool :=
  match e with EvHandler _ _ => true | _ => false end.

Definition data_event (e : event) : bool :=
  match e with EvData _ => true | _ => false end.

(** The monitor state [m] follows the request state [st] of [app]: it
    accepted the events so far, its bound on middleware positions is below
    the cursor, and the cursor is past the middleware once the routes were
    looked up. *)
Definition tracks (app : App) (m : t) (st : State) : Prop :=
  accept start (trace st) = Some m
  /\ next_mw m <= i st
  /\ (routed m = true -> List.length (middlewares app) <= i st).

(** In the handler stage: the routes were looked up. *)
Definition in_chain (app : App) (st : State) : Prop :=
  exists m, tracks app m st /\ routed m = true /\ reading m = false.

(** In the middleware stage, or later: something was run. *)
Definition in_body (app : App) (st : State) : Prop :=
  exists m, tracks app m st /\ reading m = false.

End Monitor.

(* ================================================================= *)
(** ** Example applications *)

Module Examples.
Import PathMatcher Pattern Engine.

(** A stand-in for [JSON.parse] that knows one text, [{"a":1}]. *)
Definition a_is_1 : string := "{" ++ Json.quote "a" ++ ":1}".

Definition parse_a_is_1 (text : string) : option Json.value :=
  if String.eqb text a_is_1 then Some (Json.Obj [("a", Json.Num 1)]) else None.

Definition request (m target : string) (payload : list string)
  : IncomingMessage :=
  {| method := m; url := target; parsedUrl := Pathname target;
     chunks := payload |}.

Definition registered (c : completion App) : App :=
  match c with Ok app => app | _ => createApp end.

(** [(req, res) => res.json({ id: req.params.id })], with an effect. *)
Definition show_id (tag : string) : Handler :=
  fun r =>
    Effect tag
      (Json (Json.Obj [("id", Json.Str (match req_params r with
                                         | (_, v) :: _ => v
                                         | [] => ""
                                         end))]) Return).

(** [/users/:id] registered before [/users/me]. *)
Definition overlapping : App :=
  registered (get (registered (get createApp "/users/:id" [show_id "first"]))
                  "/users/me" [show_id "second"]).

(** [(req, res, next) => { next(); next(); }] *)
Definition next_twice : Handler := fun _ => Next (Next Return).
(** [(req, res, next) => { next(); }] *)
Definition pass : Handler := fun _ => Next Return.
(** A handler with an effect, that does not call [next]. *)
Definition stop (tag : string) : Handler := fun _ => Effect tag Return.
(** [() => { throw new Error(message); }] *)
Definition fail (message : string) : Handler := fun _ => Throw message.

(** Three handlers on one route: the first calls [next] twice, the second
    stops. *)
Definition skipping : App :=
  registered (get createApp "/x" [next_twice; stop "second"; stop "third"]).

(** Three handlers on one route: the first calls [next] twice, the second
    throws. *)
Definition resuming : App :=
  registered (get createApp "/x" [next_twice; fail "boom"; stop "third"]).

(** Three middleware, the second of which stops, before a route. *)
Definition vetoing : App :=
  use (use (use (registered (get createApp "/x" [stop "handler"])) pass)
           (stop "auth"))
      (stop "late").

(** A middleware that throws. *)
Definition failing_middleware : App :=
  use (registered (get createApp "/x" [stop "handler"])) (fail "denied").

(** A route whose only handler throws. *)
Definition failing_handler : App :=
  registered (get createApp "/x" [fail "boom"]).

(** A route with two handlers, the first of which stops. *)
Definition two_handlers : App :=
  registered (get createApp "/x" [stop "first"; stop "second"]).

Definition users_id : Route :=
  {| route_method := "GET";
     route_regex := {| atoms := atoms_of [Lit "users"; Param "id"] |};
     handlers := [show_id "first"] |}.

Definition users_me : Route :=
  {| route_method := "GET";
     route_regex := {| atoms := atoms_of [Lit "users"; Lit "me"] |};
     handlers := [show_id "second"] |}.

(** A request state whose response was sent already. *)
Definition answered : State :=
  snd (res_json (Json.Obj [("ok", Json.Bool true)]) initial).

Definition users_posts : list segment :=
  [Lit "users"; Param "id"; Lit "posts"; Param "postId"].

End Examples.
(* ================================================================= *)
(** ** Shapes of patterns and of traces

    Notions used to state further properties of the matcher and of the
    dispatch engine. *)

Module Shape.
Import Str PathMatcher Pattern Engine.

(** A character without a meaning of its own in a regular expression. *)
Definition ordinary (c : ascii) : bool := negb (is_syntax_char c).

(** A character that stands for itself in a route pattern: ordinary, and
    not the colon. *)
Definition verbatim (c : ascii) : bool :=
  ordinary c && negb (Ascii.eqb c ":").

(** A segment whose literal text has no dot (nor any other syntax
    character). *)
Definition exact_segment (sg : segment) : bool :=
  match sg with
  | Lit text => forallb ordinary text
  | Param _ => true
  end.

Fixpoint count_slashes (s : string) : nat :=
  match s with
  | "" => 0
  | String c r => (if is_slash c then 1 else 0) + count_slashes r
  end.

(** The methods of the application object that register a route, with
    the method they register it for. *)
Definition verbs : list ((App -> string -> list Handler -> completion App)
                         * string) :=
  [(get, "GET"); (post, "POST"); (put, "PUT"); (patch, "PATCH");
   (delete, "DELETE")].

(** A body that neither writes a response nor throws. *)
Fixpoint silent (p : prog) : bool :=
  match p with
  | Return => true
  | Throw _ => false
  | Effect _ k | Status _ k | Next k => silent k
  | Json _ _ => false
  end.

(** A body that passes: it neither responds nor throws, and calls
    [next] exactly once. *)
Definition passes (p : prog) : bool :=
  silent p && (next_calls p =? 1)%nat.

(** The message of the exception that a body throws before it responds
    or calls [next], if it does. *)
Fixpoint throws (p : prog) : option string :=
  match p with
  | Throw message => Some message
  | Effect _ k | Status _ k => throws k
  | _ => None
  end.

(** The positions of the handlers invoked in a trace, and the number of
    route lookups. *)
Fixpoint handler_positions (t : list event) : list nat :=
  match t with
  | [] => []
  | EvHandler _ k :: r => k :: handler_positions r
  | _ :: r => handler_positions r
  end.

Fixpoint lookups (t : list event) : nat :=
  match t with
  | [] => 0
  | EvRouteHandler :: r => S (lookups r)
  | _ :: r => lookups r
  end.

Fixpoint increasing (l : list nat) : Prop :=
  match l with
  | [] => True
  | k :: r => Forall (fun k' => k < k') r /\ increasing r
  end.

(** Every middleware below the cursor was invoked, and every middleware
    of the application was invoked before each route lookup. *)
Definition covered (app : App) (st : State) : Prop :=
  (forall k, k < i st -> k < List.length (middlewares app) ->
             In (EvMiddleware k) (trace st))
  /\ forall t1 t2, trace st = (t1 ++ EvRouteHandler :: t2)%list ->
                   forall k, k < List.length (middlewares app) ->
                             In (EvMiddleware k) t1.

(** Before the routes are looked up; in the handler chain of the only
    lookup, the handlers invoked so far standing in increasing positions
    below the cursor; and what a request ends in either way. *)
Definition unrouted (st : State) : Prop :=
  lookups (trace st) = 0 /\ handler_positions (trace st) = [].

Definition chain_in_order (st : State) : Prop :=
  lookups (trace st) = 1
  /\ increasing (handler_positions (trace st))
  /\ Forall (fun k => k < j st) (handler_positions (trace st)).

Definition in_order (st : State) : Prop :=
  lookups (trace st) <= 1 /\ increasing (handler_positions (trace st)).

(** The request as a middleware or a handler sees it when [req.params]
    is [g] and [req.body] is [v]; a handler that is given that request
    whenever it is invoked; and an application whose middleware are given
    the request with empty parameters and whose handlers are given it with
    the groups of the match of their route. *)
Definition seen (req : IncomingMessage) (g : groups) (v : Json.value)
  : Request :=
  {| req_method := method req; req_url := url req;
     req_params := g; req_body := v |}.

Definition informed (req : IncomingMessage) (g : groups) (v : Json.value)
           (h : Handler) : Handler :=
  fun _ => h (seen req g v).

Definition inform_route (req : IncomingMessage) (pathname : string)
           (v : Json.value) (route : Route) : Route :=
  {| route_method := route_method route;
     route_regex := route_regex route;
     handlers :=
       map (informed req
                     match String_match pathname (route_regex route) with
                     | Some g => g
                     | None => []
                     end v)
           (handlers route) |}.

Definition inform (req : IncomingMessage) (pathname : string)
           (v : Json.value) (app : App) : App :=
  {| routes := map (inform_route req pathname v) (routes app);
     middlewares := map (informed req [] v) (middlewares app) |}.

(** A status code with which [res.end] sends the body it is given:
    writing the head, Node refuses a code outside 100..999, and it sends
    no body with the codes 1xx, 204 and 304. *)
Definition answerable (code : Z) : bool :=
  ((200 <=? code) && (code <=? 999)
   && negb (code =? 204) && negb (code =? 304))%Z.

(** The status code in force when a body calls [next] for the first time
    (or ends without calling it), on a response whose code was [c]; and
    the code in force when the middleware after the middleware [before]
    is invoked, each of them being given the request [r] and calling
    [next]: the last code that one of them gave [res.status] before its
    call of [next], 200 if none did. *)
Fixpoint status_at_next (c : Z) (p : prog) : Z :=
  match p with
  | Status c' k => status_at_next c' k
  | Effect _ k | Json _ k => status_at_next c k
  | Return | Throw _ | Next _ => c
  end.

Definition status_behind (r : Request) (before : list Handler) : Z :=
  fold_left (fun c m => status_at_next c (m r)) before 200%Z.

(** The largest integer below which every integer is a JavaScript number
    ([Number.MAX_SAFE_INTEGER]), and a value whose numbers are such
    integers: [JSON.stringify] prints them digit by digit. *)
Definition MAX_SAFE_INTEGER : Z := 9007199254740991.

Fixpoint exact_numbers (v : Json.value) : bool :=
  match v with
  | Json.Num z => (Z.abs z <=? MAX_SAFE_INTEGER)%Z
  | Json.Arr items => List.forallb exact_numbers items
  | Json.Obj fields =>
      List.forallb
        (fun kv : string * Json.value => let (_, x) := kv in exact_numbers x)
        fields
  | _ => true
  end.

(** A body whose calls of [res.json], if any, are made with such a status
    code and such data, on a response whose code is [c] when the body
    starts. *)
Fixpoint answers_well (c : Z) (p : prog) : bool :=
  match p with
  | Status c' k => answers_well c' k
  | Json data k => answerable c && exact_numbers data && answers_well c k
  | Effect _ k | Next k => answers_well c k
  | Return | Throw _ => true
  end.

End Shape.

(* ================================================================= *)
(** ** More example applications *)

Module Scenarios.
Import PathMatcher Engine Examples.

(** [app.use((req, res, next) => next()); app.get('/x')]: a route
    registered without handlers. *)
Definition no_handlers : App :=
  use (registered (get createApp "/x" [])) pass.

(** A middleware with an effect, that calls [next]. *)
Definition logging (tag : string) : Handler := fun _ => Effect tag (Next Return).

(** [app.get('/x', handler); app.use(log)]: the middleware is registered
    after the route. *)
Definition late_middleware : App :=
  use (registered (get createApp "/x" [stop "handler"])) (logging "log").

(** A middleware that responds and then throws. *)
Definition responds_then_throws : App :=
  use createApp (fun _ => Json (Json.Obj [("ok", Json.Bool true)])
                               (Throw "late")).

(** A middleware that calls [next] twice, before a route. *)
Definition twice_routed : App :=
  use (registered (get createApp "/x" [stop "handler"])) next_twice.

(** [(req, res) => res.status(201).json({ id: req.params.id })] behind
    a logging middleware. *)
Definition created : Handler :=
  fun r => Status 201 (Json (Json.Obj [("id", Json.Str (match req_params r with
                                                        | (_, v) :: _ => v
                                                        | [] => ""
                                                        end))]) Return).

Definition creating : App :=
  use (registered (post createApp "/items/:id" [created])) (logging "log").

(** The same route behind a handler that lets the request through:
    [app.post('/items/:id', guard, created)]. *)
Definition guarded : App :=
  use (registered (post createApp "/items/:id" [logging "guard"; created]))
      (logging "log").

(** A handler that throws, behind a handler and a middleware that pass. *)
Definition failing_behind : App :=
  use (registered (get createApp "/x" [logging "guard"; fail "boom"]))
      (logging "log").

(** A middleware that throws, behind one that passes. *)
Definition denying : App :=
  use (use (registered (get createApp "/x" [stop "handler"])) (logging "log"))
      (fun _ => Effect "check" (Throw "denied")).

(** [(req, res, next) => { next(); res.json({ late: true }); }]: a
    middleware that responds once its call of [next] has returned. *)
Definition answers_late : Handler :=
  fun _ => Next (Json (Json.Obj [("late", Json.Bool true)]) Return).

(** That middleware before one that neither responds nor calls [next]. *)
Definition answering_late : App :=
  use (use (registered (get createApp "/x" [stop "handler"])) answers_late)
      (stop "auth").

End Scenarios.

(* ================================================================= *)
(** ** The file watcher ([lib/watch.js])

    The watcher restarts the server when a watched file changes.  The
    file system is given as the tree of directory entries that
    [fs.readdirSync] returns; the timers and the child processes are the
    part of a state that the callbacks read and write.  When a pending
    timer expires is up to the environment. *)

Module Watch.
Import Str.

#[local] Set Warnings "-register-all".

(** *** [watchDirectory] *)

(** An entry of a directory, as [readdirSync(dir, { withFileTypes: true })]
    gives it: a regular file, a directory with its own entries, or an
    entry that is neither (a link, a socket). *)
Inductive Dirent : Type :=
| File (name : string)
| Directory (name : string) (entries : list Dirent)
| Other (name : string).

(** [s.endsWith(suffix)] and [s.startsWith(prefix)]. *)
Definition endsWith (s suffix : string) : bool :=
  (String.length suffix <=? String.length s)%nat
  && String.eqb (drop (String.length s - String.length suffix) s) suffix.

Definition startsWith (s prefix : string) : bool :=
  match strip_prefix prefix s with Some _ => true | None => false end.

(** [path.join(dir, name)] for the name of a directory entry and a
    directory path without trailing separator, with the separator [/]. *)
Definition path_join (dir name : string) : string := dir ++ "/" ++ name.

(** The callback of [forEach] in [watchDirectory(dir)], applied to one
    entry; the result lists the calls of [watchFile], in order. *)
Fixpoint watchEntry (dir : string) (entry : Dirent) : list string :=
  let fullPath :=
    path_join dir match entry with
                  | File name | Directory name _ | Other name => name
                  end in
  match entry with
  | Directory name entries =>
      if String.eqb name "node_modules" || startsWith name "." then []
      else flat_map (watchEntry fullPath) entries
  | File _ => if endsWith fullPath ".js" then [fullPath] else []
  | Other _ => []
  end.

Definition watchDirectory (dir : string) (entries : list Dirent)
  : list string :=
  flat_map (watchEntry dir) entries.

(** A directory that the walk enters. *)
Definition entered (name : string) : bool :=
  negb (String.eqb name "node_modules") && negb (startsWith name ".").

(** [name] is a regular file of the directory reached from [entries]
    through the directories [dirs]. *)
Fixpoint located (entries : list Dirent) (dirs : list string) (name : string)
  : Prop :=
  match dirs with
  | [] => In (File name) entries
  | d :: ds => exists sub, In (Directory d sub) entries /\ located sub ds name
  end.

(** The path of a file from the names of the directories down to it. *)
Definition path_of (dir : string) (dirs : list string) (name : string)
  : string :=
  path_join (fold_left path_join dirs dir) name.

(** *** [startServer] and the debounce of [watchFile] *)

Inductive line : Type :=
| Watching                            (* [watch] Watching project files.. *)
| Restarted                           (* [watch] server restarted *)
| ChangesDetected (filePath : string). (* [watch] changes detected: ... *)

(** [nodeProcess] and [debounceTimeout] are the variables of the module;
    processes and timers are named by numbers, in the order of their
    creation; [timers] are the timers that were set and neither expired
    nor were cleared, with the file of their callback; [killed] are the
    processes on which [kill] was called. *)
Record Watcher : Type := {
  nodeProcess : option nat;
  debounceTimeout : option nat;
  timers : list (nat * string);
  timers_set : nat;
  spawned : nat;
  killed : list nat;
  console : list line
}.

Definition say (l : line) (w : Watcher) : Watcher :=
  {| nodeProcess := nodeProcess w; debounceTimeout := debounceTimeout w;
     timers := timers w; timers_set := timers_set w; spawned := spawned w;
     killed := killed w; console := console w ++ [l] |}.

(** [if (nodeProcess) nodeProcess.kill(); nodeProcess = spawn(...);
    console.log(...)]. *)
Definition startServer (w : Watcher) : Watcher :=
  say Restarted
      {| nodeProcess := Some (spawned w);
         debounceTimeout := debounceTimeout w;
         timers := timers w; timers_set := timers_set w;
         spawned := S (spawned w);
         killed := match nodeProcess w with
                   | Some p => killed w ++ [p]
                   | None => killed w
                   end;
         console := console w |}.

Definition without (id : nat) (ts : list (nat * string))
  : list (nat * string) :=
  filter (fun t => negb (fst t =? id)%nat) ts.

(** [clearTimeout(t)]: nothing happens for [null] or a timer that is not
    pending. *)
Definition clearTimeout (t : option nat) (w : Watcher) : Watcher :=
  match t with
  | None => w
  | Some id =>
      {| nodeProcess := nodeProcess w; debounceTimeout := debounceTimeout w;
         timers := without id (timers w); timers_set := timers_set w;
         spawned := spawned w; killed := killed w; console := console w |}
  end.

(** The listener that [watchFile(filePath)] gives to [fs.watchFile]:
    [clearTimeout(debounceTimeout); debounceTimeout = setTimeout(...)]. *)
Definition listener (filePath : string) (w : Watcher) : Watcher :=
  let w1 := clearTimeout (debounceTimeout w) w in
  {| nodeProcess := nodeProcess w1;
     debounceTimeout := Some (timers_set w1);
     timers := timers w1 ++ [(timers_set w1, filePath)];
     timers_set := S (timers_set w1);
     spawned := spawned w1; killed := killed w1; console := console w1 |}.

(** A pending timer expires: its callback logs the file and restarts the
    server. *)
Definition expire (id : nat) (w : Watcher) : Watcher :=
  match find (fun t => (fst t =? id)%nat) (timers w) with
  | Some (_, filePath) =>
      startServer
        (say (ChangesDetected filePath)
             {| nodeProcess := nodeProcess w;
                debounceTimeout := debounceTimeout w;
                timers := without id (timers w); timers_set := timers_set w;
                spawned := spawned w; killed := killed w;
                console := console w |})
  | None => w
  end.

(** What the environment does: a watched file changes, or a timer
    expires. *)
Inductive happening : Type :=
| Change (filePath : string)
| Expire (id : nat).

Definition react (w : Watcher) (h : happening) : Watcher :=
  match h with
  | Change filePath => listener filePath w
  | Expire id => expire id w
  end.

(** The script: the banner, [startServer()], then the listeners are
    installed and the happenings are handled as they come. *)
Definition started : Watcher :=
  startServer
    {| nodeProcess := None; debounceTimeout := None; timers := [];
       timers_set := 0; spawned := 0; killed := []; console := [Watching] |}.

Definition after (hs : list happening) : Watcher := fold_left react hs started.

(** At most one timer is pending, the one that [debounceTimeout] names. *)
Definition one_pending (w : Watcher) : Prop :=
  timers w = []
  \/ exists id filePath,
       timers w = [(id, filePath)] /\ debounceTimeout w = Some id.

(** The current process is the one spawned last, and [kill] was called
    on every process spawned before it. *)
Definition one_server (w : Watcher) : Prop :=
  exists p, nodeProcess w = Some p /\ spawned w = S p
            /\ forall q, q < p <-> In q (killed w).

Fixpoint restarts (c : list line) : nat :=
  match c with
  | [] => 0
  | Restarted :: r => S (restarts r)
  | _ :: r => restarts r
  end.

Fixpoint changes (hs : list happening) : nat :=
  match hs with
  | [] => 0
  | Change _ :: r => S (changes r)
  | _ :: r => changes r
  end.

End Watch.

(* ================================================================= *)
(** ** Facts about characters and strings *)

Module StrFacts.
Import Str.

Lemma append_nil_r (s : string) : s ++ "" = s.
Proof. induction s as [|c s IH]; simpl; [reflexivity | now rewrite IH]. Qed.

Lemma append_assoc (a b c : string) : (a ++ b) ++ c = a ++ (b ++ c).
Proof. induction a as [|x a IH]; simpl; [reflexivity | now rewrite IH]. Qed.

Lemma length_append (a b : string) :
  String.length (a ++ b) = String.length a + String.length b.
Proof. induction a as [|x a IH]; simpl; [reflexivity | now rewrite IH]. Qed.

Lemma is_empty_true (s : string) : is_empty s = true -> s = "".
Proof. destruct s; simpl; [reflexivity | discriminate]. Qed.

Lemma forallb_append (p : ascii -> bool) (a b : string) :
  forallb p (a ++ b) = forallb p a && forallb p b.
Proof.
  induction a as [|x a IH]; simpl; [reflexivity|].
  now rewrite IH, andb_assoc.
Qed.

Lemma forallb_impl (p q : ascii -> bool) (s : string) :
  (forall c, p c = true -> q c = true) ->
  forallb p s = true -> forallb q s = true.
Proof.
  intros Hpq. induction s as [|c s IH]; simpl; [reflexivity|].
  intros H. apply andb_true_iff in H as [Hc Hs].
  now rewrite (Hpq _ Hc), (IH Hs).
Qed.

(** [span] splits its argument; the first part satisfies the predicate
    and the second does not start with a character that does. *)
Lemma span_spec (p : ascii -> bool) (s a b : string) :
  span p s = (a, b) ->
  s = a ++ b /\ forallb p a = true /\ head_fails p b.
Proof.
  revert a b. induction s as [|c s IH]; simpl; intros a b H.
  - inversion H; subst. simpl. auto.
  - destruct (p c) eqn:Hc.
    + destruct (span p s) as [a' b'] eqn:Hs. inversion H; subst.
      destruct (IH _ _ eq_refl) as (-> & Ha & Hb).
      simpl. rewrite Hc, Ha. auto.
    + inversion H; subst. simpl. auto.
Qed.

Lemma span_exact (p : ascii -> bool) (a b : string) :
  forallb p a = true -> head_fails p b -> span p (a ++ b) = (a, b).
Proof.
  induction a as [|c a IH]; simpl; intros Ha Hb.
  - destruct b as [|d b]; simpl in *; [reflexivity | now rewrite Hb].
  - apply andb_true_iff in Ha as [Hc Ha]. now rewrite Hc, (IH Ha Hb).
Qed.

Lemma span_length (p : ascii -> bool) (s a b : string) :
  span p s = (a, b) -> String.length b <= String.length s.
Proof.
  intros H. apply span_spec in H as (-> & _ & _).
  rewrite length_append. lia.
Qed.

Lemma take_append (a b : string) : take (String.length a) (a ++ b) = a.
Proof. induction a as [|c a IH]; simpl; [now destruct b | now rewrite IH]. Qed.

Lemma drop_append (a b : string) : drop (String.length a) (a ++ b) = b.
Proof. induction a as [|c a IH]; simpl; [now destruct b | exact IH]. Qed.

Lemma take_drop (n : nat) (s : string) : take n s ++ drop n s = s.
Proof.
  revert s; induction n as [|n IH]; intros [|c s]; simpl; try reflexivity.
  now rewrite IH.
Qed.

Lemma take_length_le (n : nat) (s : string) :
  n <= String.length s -> String.length (take n s) = n.
Proof.
  revert s; induction n as [|n IH]; intros [|c s]; simpl; intros H;
    try reflexivity; try lia.
  rewrite IH; [reflexivity | lia].
Qed.

Lemma forallb_take (p : ascii -> bool) (n : nat) (s : string) :
  forallb p s = true -> forallb p (take n s) = true.
Proof.
  revert s; induction n as [|n IH]; intros [|c s]; simpl; try reflexivity.
  intros H. apply andb_true_iff in H as [Hc Hs]. now rewrite Hc, IH.
Qed.

Lemma word_not_slash (c : ascii) : is_word c = true -> is_slash c = false.
Proof. by_cases_on c. Qed.

Lemma word_not_colon (c : ascii) : is_word c = true -> Ascii.eqb c ":" = false.
Proof. by_cases_on c. Qed.

Lemma slash_eq (c : ascii) : is_slash c = true -> c = "/"%char.
Proof. apply Ascii.eqb_eq. Qed.

End StrFacts.
(* ================================================================= *)
(** ** Facts about the path matcher *)

Module PathMatcherFacts.
Import Str StrFacts PathMatcher Pattern.

(** *** Normalization *)

Lemma strip_all_slashes (s : string) :
  forallb is_slash s = true -> strip_trailing_slashes s = "".
Proof.
  destruct s as [|c s]; simpl; [reflexivity|].
  unfold TRAILING_SLASH_REGEXP_matches; simpl. now intros ->.
Qed.

Lemma strip_append_slashes (s t : string) :
  forallb is_slash t = true ->
  strip_trailing_slashes (s ++ t) = strip_trailing_slashes s.
Proof.
  intros Ht. induction s as [|c s IH].
  - simpl. now apply strip_all_slashes.
  - cbn [append strip_trailing_slashes].
    unfold TRAILING_SLASH_REGEXP_matches. cbn [is_empty negb forallb andb].
    rewrite forallb_append, Ht, andb_true_r, IH. reflexivity.
Qed.

Lemma strip_keeps_nonslash_end (s : string) (c : ascii) :
  is_slash c = false ->
  strip_trailing_slashes (s ++ String c "") = s ++ String c "".
Proof.
  intros Hc. induction s as [|d s IH].
  - simpl. unfold TRAILING_SLASH_REGEXP_matches. simpl. now rewrite Hc.
  - cbn [append strip_trailing_slashes].
    unfold TRAILING_SLASH_REGEXP_matches. cbn [is_empty negb forallb andb].
    rewrite forallb_append. simpl. rewrite Hc, !andb_false_r, IH. reflexivity.
Qed.

Lemma normalize_append_slashes (s t : string) :
  forallb is_slash t = true -> normalize (s ++ t) = normalize s.
Proof. intros Ht. unfold normalize. now rewrite strip_append_slashes. Qed.

Lemma normalize_all_slashes (s : string) :
  forallb is_slash s = true -> normalize s = "/".
Proof. intros H. unfold normalize. now rewrite strip_all_slashes. Qed.

Lemma normalize_nonslash_end (s : string) (c : ascii) :
  is_slash c = false -> normalize (s ++ String c "") = s ++ String c "".
Proof.
  intros Hc. unfold normalize. rewrite strip_keeps_nonslash_end by assumption.
  now destruct s.
Qed.

(** A string is its part up to the last character that is not a slash,
    followed by slashes. *)
Lemma trailing_slashes_split (s : string) :
  forallb is_slash s = true \/
  exists b c t, s = (b ++ String c "") ++ t /\ is_slash c = false
                /\ forallb is_slash t = true.
Proof.
  induction s as [|d s IH].
  - left; reflexivity.
  - destruct IH as [Hs | (b & c & t & -> & Hc & Ht)].
    + destruct (is_slash d) eqn:Hd.
      * left. simpl. now rewrite Hd.
      * right. exists "", d, s. simpl. auto.
    + right. exists (String d b), c, t. simpl. auto.
Qed.

Lemma normalize_idempotent (s : string) : normalize (normalize s) = normalize s.
Proof.
  destruct (trailing_slashes_split s) as [Hs | (b & c & t & -> & Hc & Ht)].
  - rewrite (normalize_all_slashes s Hs). reflexivity.
  - rewrite normalize_append_slashes by assumption.
    rewrite !normalize_nonslash_end by assumption. reflexivity.
Qed.

(** *** The scanning functions do not depend on their fuel *)

Lemma replace_params_fuel (n m : nat) (s : string) :
  String.length s <= n -> String.length s <= m ->
  replace_params_from n s = replace_params_from m s.
Proof.
  revert m s. induction n as [|n IH]; intros m s Hn Hm.
  - destruct s; [|simpl in Hn; lia]. now destruct m.
  - destruct m as [|m].
    + destruct s; [reflexivity | simpl in Hm; lia].
    + destruct s as [|c r]; [reflexivity|]. simpl in Hn, Hm. simpl.
      destruct (span is_word r) as [key rest] eqn:Hsp.
      pose proof (span_length _ _ _ _ Hsp) as Hlen.
      rewrite (IH m rest) by lia. rewrite (IH m r) by lia. reflexivity.
Qed.

Lemma replace_params_nil : replace_params "" = ("", []).
Proof. reflexivity. Qed.

Lemma replace_params_cons (c : ascii) (r : string) :
  replace_params (String c r) =
  let (key, rest) := span is_word r in
  if Ascii.eqb c ":" && negb (is_empty key) then
    let (out, keys) := replace_params rest in
    (capture_group key ++ out, key :: keys)
  else
    let (out, keys) := replace_params r in (String c out, keys).
Proof.
  unfold replace_params at 1. cbn [String.length replace_params_from].
  destruct (span is_word r) as [key rest] eqn:Hsp.
  pose proof (span_length _ _ _ _ Hsp) as Hlen.
  unfold replace_params.
  rewrite (replace_params_fuel (String.length r) (String.length rest) rest)
    by lia.
  reflexivity.
Qed.

Lemma tokenize_fuel (n m : nat) (s : string) :
  String.length s <= n -> String.length s <= m ->
  tokenize_from n s = tokenize_from m s.
Proof.
  revert m s. induction n as [|n IH]; intros m s Hn Hm.
  - destruct s; [|simpl in Hn; lia]. now destruct m.
  - destruct m as [|m].
    + destruct s; [reflexivity | simpl in Hm; lia].
    + destruct s as [|c r]; [reflexivity|]. simpl in Hn, Hm. simpl.
      destruct (span is_word r) as [key rest] eqn:Hsp.
      pose proof (span_length _ _ _ _ Hsp) as Hlen.
      rewrite (IH m rest) by lia. rewrite (IH m r) by lia. reflexivity.
Qed.

Lemma tokenize_cons (c : ascii) (r : string) :
  tokenize (String c r) =
  let (key, rest) := span is_word r in
  if Ascii.eqb c ":" && negb (is_empty key) then ANamed key :: tokenize rest
  else (if Ascii.eqb c "." then AAny else AChar c) :: tokenize r.
Proof.
  unfold tokenize at 1. cbn [String.length tokenize_from].
  destruct (span is_word r) as [key rest] eqn:Hsp.
  pose proof (span_length _ _ _ _ Hsp) as Hlen.
  unfold tokenize.
  rewrite (tokenize_fuel (String.length r) (String.length rest) rest) by lia.
  reflexivity.
Qed.

Lemma parse_atoms_fuel (n m : nat) (s : string) :
  String.length s <= n -> String.length s <= m ->
  parse_atoms n s = parse_atoms m s.
Proof.
  revert m s. induction n as [|n IH]; intros m s Hn Hm.
  - destruct s; [|simpl in Hn; lia]. now destruct m.
  - destruct m as [|m].
    + destruct s; [reflexivity | simpl in Hm; lia].
    + destruct s as [|c r]; [reflexivity|]. simpl in Hn, Hm.
      cbn [parse_atoms].
      destruct (Ascii.eqb c "$"); [reflexivity|].
      destruct (Ascii.eqb c "\").
      { destruct r as [|d r']; [reflexivity|]. cbn [strip_prefix].
        destruct (Ascii.eqb "/" d); [|reflexivity].
        simpl in Hn, Hm. rewrite (IH m r') by lia. reflexivity. }
      destruct (Ascii.eqb c ".").
      { rewrite (IH m r) by lia. reflexivity. }
      destruct (Ascii.eqb c "(").
      { destruct (strip_prefix "?<" r) as [r1|] eqn:H1; [|reflexivity].
        destruct (span is_word r1) as [name r2] eqn:H2.
        destruct (strip_prefix ">" r2) as [r3|] eqn:H3; [|reflexivity].
        destruct (valid_group_name name); [|reflexivity].
        destruct (strip_prefix "[^\/]+)" r3) as [r4|] eqn:H4; [|reflexivity].
        assert (Hlen : String.length r4 <= String.length r).
        { assert (Hsp : forall p s t, strip_prefix p s = Some t ->
                                      String.length t <= String.length s).
          { induction p as [|a p IHp]; intros [|b s0] t H; simpl in H;
              try discriminate; try (inversion H; subst; simpl; lia).
            destruct (Ascii.eqb a b); [|discriminate].
            apply IHp in H. simpl. lia. }
          apply Hsp in H1, H3, H4. apply span_length in H2. lia. }
        rewrite (IH m r4) by lia. reflexivity. }
      destruct (is_syntax_char c); [reflexivity|].
      rewrite (IH m r) by lia. reflexivity.
Qed.

(** *** Compilation agrees with the direct reading of the pattern *)

Lemma escape_append (a b : string) :
  escape_slashes (a ++ b) = escape_slashes a ++ escape_slashes b.
Proof.
  induction a as [|c a IH]; simpl; [reflexivity|].
  destruct (is_slash c); simpl; now rewrite IH.
Qed.

Lemma span_word_escape (r : string) :
  span is_word (escape_slashes r) =
  (fst (span is_word r), escape_slashes (snd (span is_word r))).
Proof.
  induction r as [|d r IH]; [reflexivity|].
  cbn [escape_slashes span].
  destruct (is_word d) eqn:Hw.
  - rewrite (word_not_slash _ Hw). cbn [span]. rewrite Hw, IH.
    destruct (span is_word r); reflexivity.
  - destruct (is_slash d) eqn:Hs.
    + cbn. rewrite Hs. reflexivity.
    + cbn [span fst snd escape_slashes]. rewrite Hw, Hs. reflexivity.
Qed.

Lemma syntax_char_cases (c : ascii) :
  is_syntax_char c = false ->
  Ascii.eqb c "$" = false /\ Ascii.eqb c "\" = false /\
  Ascii.eqb c "." = false /\ Ascii.eqb c "(" = false.
Proof. by_cases_on c. Qed.

Lemma dot_cases (c : ascii) :
  Ascii.eqb c "." = true ->
  Ascii.eqb c "$" = false /\ Ascii.eqb c "\" = false.
Proof. by_cases_on c. Qed.

Lemma colon_cases (c : ascii) :
  Ascii.eqb c ":" = true ->
  is_syntax_char c = false /\ Ascii.eqb c "." = false.
Proof. by_cases_on c. Qed.

Lemma check_names_char (l : list atom) (a : atom) :
  group_names (a :: l) = group_names l ->
  bind (check_names l) (fun l => Ok (a :: l)) = check_names (a :: l).
Proof.
  intros H. unfold check_names. rewrite H.
  now destruct (List.forallb valid_group_name (group_names l)).
Qed.

Lemma compile_steps (n : nat) (s : string) :
  String.length s <= n -> forallb supported s = true ->
  snd (replace_params (escape_slashes s)) = group_names (tokenize s) /\
  forall N, String.length (fst (replace_params (escape_slashes s)) ++ "$") <= N ->
            parse_atoms N (fst (replace_params (escape_slashes s)) ++ "$")
            = check_names (tokenize s).
Proof.
  revert s. induction n as [|n IH]; intros s Hlen Hsup.
  { destruct s; [|simpl in Hlen; lia]. split; [reflexivity|].
    intros [|N] HN; [simpl in HN; lia | reflexivity]. }
  destruct s as [|c r].
  { split; [reflexivity|]. intros [|N] HN; [simpl in HN; lia | reflexivity]. }
  simpl in Hlen. cbn [forallb] in Hsup.
  apply andb_true_iff in Hsup as [Hc Hr].
  rewrite tokenize_cons. cbn [escape_slashes].
  destruct (is_slash c) eqn:Hslash.
  - (* a slash: escaped, then matched as itself *)
    apply slash_eq in Hslash; subst c.
    rewrite replace_params_cons. cbn [span is_word].
    replace (is_word "/") with false by reflexivity.
    cbn [Ascii.eqb Bool.eqb andb].
    rewrite replace_params_cons.
    destruct (span is_word (escape_slashes r)) as [k0 r0].
    cbn [Ascii.eqb Bool.eqb andb].
    destruct (IH r ltac:(lia) Hr) as [IHk IHp].
    destruct (replace_params (escape_slashes r)) as [out ks].
    destruct (span is_word r) as [key rest].
    cbn [Ascii.eqb Bool.eqb andb fst snd] in *.
    split; [exact IHk|].
    intros [|N] HN; [simpl in HN; lia|].
    cbn [append parse_atoms Ascii.eqb Bool.eqb strip_prefix].
    rewrite IHp by (simpl in HN; lia).
    now apply check_names_char.
  - rewrite replace_params_cons, span_word_escape.
    destruct (span is_word r) as [key rest] eqn:Hsp. cbn [fst snd].
    pose proof (span_length _ _ _ _ Hsp) as Hrest.
    destruct (span_spec _ _ _ _ Hsp) as (Hr_eq & Hkey & _).
    destruct (Ascii.eqb c ":" && negb (is_empty key)) eqn:Hparam.
    + (* a colon and a name: a named capture *)
      assert (Hsup' : forallb supported rest = true).
      { rewrite Hr_eq, forallb_append in Hr.
        now apply andb_true_iff in Hr. }
      destruct (IH rest ltac:(lia) Hsup') as [IHk IHp].
      destruct (replace_params (escape_slashes rest)) as [out ks].
      cbn [fst snd] in *. split; [cbn [group_names]; now rewrite IHk|].
      intros [|N] HN; [simpl in HN; lia|].
      unfold capture_group. rewrite !append_assoc.
      cbn [append parse_atoms Ascii.eqb Bool.eqb strip_prefix].
      rewrite span_exact; [|exact Hkey|reflexivity].
      cbn [strip_prefix Ascii.eqb Bool.eqb].
      unfold check_names at 1. cbn [group_names List.forallb].
      destruct (valid_group_name key); [|reflexivity].
      cbn [andb].
      rewrite IHp.
      * unfold check_names.
        now destruct (List.forallb valid_group_name (group_names (tokenize rest))).
      * unfold capture_group in HN. rewrite !append_assoc in HN.
        repeat (rewrite length_append in HN; simpl in HN).
        rewrite length_append. simpl. lia.
    + (* any other character stands for itself *)
      destruct (IH r ltac:(lia) Hr) as [IHk IHp].
      destruct (replace_params (escape_slashes r)) as [out ks].
      cbn [fst snd] in *.
      split; [now destruct (Ascii.eqb c ".")|].
      intros [|N] HN; [simpl in HN; lia|].
      cbn [append parse_atoms].
      destruct (Ascii.eqb c ".") eqn:Hdot.
      * destruct (dot_cases _ Hdot) as (-> & ->).
        rewrite IHp by (simpl in HN; lia). now apply check_names_char.
      * unfold supported in Hc. rewrite Hdot, orb_false_r in Hc.
        apply negb_true_iff in Hc.
        destruct (syntax_char_cases _ Hc) as (-> & -> & _ & ->).
        rewrite Hc, IHp by (simpl in HN; lia). now apply check_names_char.
Qed.

Lemma supported_normalize (s : string) :
  forallb supported s = true -> forallb supported (normalize s) = true.
Proof.
  intros H.
  destruct (trailing_slashes_split s) as [Hs | (b & c & t & -> & Hc & Ht)].
  - now rewrite normalize_all_slashes.
  - rewrite normalize_append_slashes, normalize_nonslash_end by assumption.
    rewrite forallb_append in H. now apply andb_true_iff in H.
Qed.

(** [pathToRegex] on a pattern of supported characters: the atoms are the
    direct reading of the normalized pattern, unless a name is invalid or
    occurs twice, which makes the constructor throw. *)
Lemma pathToRegex_tokenize (pattern : string) :
  forallb supported pattern = true ->
  pathToRegex pattern =
  let l := tokenize (normalize pattern) in
  if List.forallb valid_group_name (group_names l) && distinct (group_names l)
  then Ok {| regex := {| atoms := l |}; keys := group_names l |}
  else SyntaxError.
Proof.
  intros Hsup. apply supported_normalize in Hsup.
  unfold pathToRegex.
  destruct (compile_steps _ _ (le_n _) Hsup) as [Hk Hp].
  destruct (replace_params (escape_slashes (normalize pattern))) as [out ks].
  cbn [fst snd] in *. subst ks.
  cbn [append RegExp_new Ascii.eqb Bool.eqb].
  rewrite Hp by apply le_n. unfold check_names. cbv zeta.
  destruct (List.forallb valid_group_name
              (group_names (tokenize (normalize pattern)))); [|reflexivity].
  cbn [bind andb].
  now destruct (distinct (group_names (tokenize (normalize pattern)))).
Qed.

(** *** The matcher and the matching relation *)

Lemma take_append_le (m : nat) (a b : string) :
  m <= String.length a -> take m (a ++ b) = take m a.
Proof.
  revert a; induction m as [|m IH]; intros [|c a]; simpl; intros H;
    try reflexivity; try lia.
  rewrite IH; [reflexivity | lia].
Qed.

Lemma take_nonempty (m : nat) (s : string) :
  1 <= m -> 1 <= String.length s -> is_empty (take m s) = false.
Proof. destruct m, s; simpl; intros; try lia; reflexivity. Qed.

Lemma span_append_all (p : ascii -> bool) (v s : string) :
  forallb p v = true ->
  span p (v ++ s) = (v ++ fst (span p s), snd (span p s)).
Proof.
  induction v as [|c v IH]; simpl; intros H.
  - now destruct (span p s).
  - apply andb_true_iff in H as [Hc Hv]. now rewrite Hc, (IH Hv).
Qed.

Lemma backtrack_sound (rest : string -> option groups) (name s : string)
      (n : nat) (g : groups) :
  backtrack rest name s n = Some g ->
  exists m g', 1 <= m <= n /\ rest (drop m s) = Some g'
               /\ g = (name, take m s) :: g'.
Proof.
  induction n as [|n IH]; simpl; [discriminate|].
  destruct s as [|c s'] eqn:Hs.
  - destruct (rest "") as [g0|] eqn:Hr.
    + intros H; inversion H; subst. exists (S n), g0. simpl. repeat split; auto; lia.
    + intros H. destruct (IH H) as (m & g' & Hm & Hr' & ->).
      exists m, g'. repeat split; auto; lia.
  - destruct (rest (drop n s')) as [g0|] eqn:Hr.
    + intros H; inversion H; subst. exists (S n), g0. simpl.
      repeat split; auto; lia.
    + intros H. destruct (IH H) as (m & g' & Hm & Hr' & ->).
      exists m, g'. repeat split; auto; lia.
Qed.

Lemma backtrack_complete (rest : string -> option groups) (name s : string)
      (n m : nat) (g : groups) :
  1 <= m <= n -> rest (drop m s) = Some g ->
  exists g', backtrack rest name s n = Some g'.
Proof.
  induction n as [|n IH]; intros Hm Hr; [lia|].
  cbn [backtrack].
  destruct (rest (drop (S n) s)) as [g0|] eqn:Hn; [eauto|].
  destruct (Nat.eq_dec m (S n)) as [->|Hne]; [congruence|].
  apply IH; [lia | assumption].
Qed.

Lemma exec_atoms_sound (l : list atom) (s : string) (g : groups) :
  exec_atoms l s = Some g -> matches l s g.
Proof.
  revert s g. induction l as [|a l IH]; intros s g H.
  - simpl in H. destruct s; simpl in H; [|discriminate].
    inversion H; subst. constructor.
  - destruct a as [c| |name]; cbn [exec_atoms] in H.
    + destruct s as [|d s']; [discriminate|].
      destruct (Ascii.eqb c d) eqn:Hcd; [|discriminate].
      apply Ascii.eqb_eq in Hcd; subst d. constructor. now apply IH.
    + destruct s as [|d s']; [discriminate|].
      destruct (is_line_terminator d) eqn:Hd; [discriminate|].
      constructor; [assumption | now apply IH].
    + apply backtrack_sound in H as (m & g' & Hm & Hr & ->).
      destruct (span (fun c => negb (is_slash c)) s) as [a b] eqn:Hsp.
      apply span_spec in Hsp as (Hs & Ha & _). cbn [fst] in Hm.
      rewrite <- (take_drop m s) at 1.
      constructor.
      * apply take_nonempty; [lia|]. subst s. rewrite length_append. lia.
      * subst s. rewrite take_append_le by lia. now apply forallb_take.
      * now apply IH.
Qed.

Lemma exec_atoms_complete (l : list atom) (s : string) (g : groups) :
  matches l s g -> exists g', exec_atoms l s = Some g'.
Proof.
  induction 1 as [|c l s g _ [g' IH]|c l s g Hc _ [g' IH]
                  |name v l s g Hv Hns _ [g' IH]].
  - exists []. reflexivity.
  - exists g'. cbn [exec_atoms]. now rewrite Ascii.eqb_refl.
  - exists g'. cbn [exec_atoms]. now rewrite Hc.
  - cbn [exec_atoms].
    apply backtrack_complete with (m := String.length v) (g := g').
    + rewrite span_append_all by exact Hns. cbn [fst].
      rewrite length_append. destruct v; [discriminate | simpl; lia].
    + now rewrite drop_append.
Qed.

(** *** Patterns given by segments *)

Lemma plain_cases (c : ascii) :
  plain c = true ->
  Ascii.eqb c ":" = false /\ is_slash c = false /\ supported c = true.
Proof. by_cases_on c. Qed.

Lemma word_supported (c : ascii) : is_word c = true -> supported c = true.
Proof. by_cases_on c. Qed.

Lemma tokenize_plain (t x : string) :
  forallb plain t = true ->
  tokenize (t ++ x)
  = (map atom_of_char (list_ascii_of_string t) ++ tokenize x)%list.
Proof.
  induction t as [|c t IH]; simpl; intros H; [reflexivity|].
  apply andb_true_iff in H as [Hc Ht].
  destruct (plain_cases _ Hc) as (Hcolon & _).
  rewrite tokenize_cons. destruct (span is_word (t ++ x)).
  rewrite Hcolon. cbn [andb]. now rewrite IH.
Qed.

Lemma render_head (segs : list segment) : head_fails is_word (render segs).
Proof. destruct segs; simpl; [exact I | reflexivity]. Qed.

Lemma tokenize_render (segs : list segment) :
  List.forallb wf_segment segs = true ->
  tokenize (render segs) = atoms_of segs.
Proof.
  induction segs as [|sg segs IH]; [reflexivity|].
  cbn [List.forallb render atoms_of]. intros H.
  apply andb_true_iff in H as [Hsg Hsegs].
  rewrite tokenize_cons.
  destruct (span is_word (render_segment sg ++ render segs)) as [k0 r0].
  cbn [Ascii.eqb Bool.eqb andb].
  destruct sg as [text|name]; cbn [render_segment wf_segment] in *.
  - apply andb_true_iff in Hsg as [_ Hplain].
    now rewrite tokenize_plain, IH.
  - apply andb_true_iff in Hsg as [Hword Hvalid].
    cbn [append]. rewrite tokenize_cons.
    rewrite span_exact; [|exact Hword|apply render_head].
    destruct name; [discriminate|]. cbn. now rewrite IH.
Qed.

Lemma group_names_app_chars (cs : list ascii) (l : list atom) :
  group_names (map atom_of_char cs ++ l)%list = group_names l.
Proof.
  induction cs as [|c cs IH]; simpl; auto.
  unfold atom_of_char at 1. now destruct (Ascii.eqb c ".").
Qed.

Lemma group_names_atoms_of (segs : list segment) :
  group_names (atoms_of segs) = param_names segs.
Proof.
  induction segs as [|[text|name] segs IH]; simpl; auto.
  - now rewrite group_names_app_chars.
  - now rewrite IH.
Qed.

Lemma param_names_valid (segs : list segment) :
  List.forallb wf_segment segs = true ->
  List.forallb valid_group_name (param_names segs) = true.
Proof.
  induction segs as [|[text|name] segs IH]; simpl; auto; intros H;
    apply andb_true_iff in H as [H1 H2]; auto.
  apply andb_true_iff in H1 as [_ ->]. simpl. auto.
Qed.

Lemma segment_text (sg : segment) :
  wf_segment sg = true ->
  is_empty (render_segment sg) = false
  /\ forallb nonslash (render_segment sg) = true
  /\ forallb supported (render_segment sg) = true.
Proof.
  destruct sg as [text|name]; cbn [wf_segment render_segment]; intros H;
    apply andb_true_iff in H as [H1 H2].
  - apply negb_true_iff in H1. repeat split; [exact H1| |].
    + eapply forallb_impl; [|exact H2]. intros c Hc. unfold nonslash.
      destruct (plain_cases _ Hc) as (_ & -> & _). reflexivity.
    + eapply forallb_impl; [|exact H2]. intros c Hc.
      now destruct (plain_cases _ Hc) as (_ & _ & ->).
  - repeat split; cbn.
    + eapply forallb_impl; [|exact H1]. intros c Hc. unfold nonslash.
      now rewrite (word_not_slash _ Hc).
    + eapply forallb_impl; [|exact H1]. apply word_supported.
Qed.

Lemma last_split (s : string) :
  is_empty s = false -> exists b c, s = b ++ String c "".
Proof.
  induction s as [|d s IH]; [discriminate|]. intros _.
  destruct s as [|e s'].
  - exists "", d. reflexivity.
  - destruct (IH eq_refl) as (b & c & ->). exists (String d b), c. reflexivity.
Qed.

Lemma render_last (segs : list segment) :
  segs <> [] -> List.forallb wf_segment segs = true ->
  exists b c, render segs = b ++ String c "" /\ is_slash c = false.
Proof.
  induction segs as [|sg segs IH]; [congruence|]. intros _ H.
  cbn [List.forallb] in H. apply andb_true_iff in H as [Hsg Hsegs].
  destruct segs as [|sg' segs'].
  - destruct (segment_text _ Hsg) as (Hne & Hns & _).
    destruct (last_split _ Hne) as (b & c & Hb).
    exists (String "/" b), c. cbn [render]. rewrite append_nil_r, Hb.
    split; [reflexivity|].
    rewrite Hb, forallb_append in Hns. apply andb_true_iff in Hns as [_ Hc].
    simpl in Hc. rewrite andb_true_r in Hc. now apply negb_true_iff in Hc.
  - destruct (IH ltac:(congruence) Hsegs) as (b & c & Hb & Hc).
    exists (String "/" (render_segment sg ++ b)), c.
    split; [|exact Hc].
    change (render (sg :: sg' :: segs'))
      with (String "/" (render_segment sg ++ render (sg' :: segs'))).
    rewrite Hb. cbn [append]. now rewrite append_assoc.
Qed.

Lemma render_supported (segs : list segment) :
  List.forallb wf_segment segs = true -> forallb supported (render segs) = true.
Proof.
  induction segs as [|sg segs IH]; [reflexivity|]. cbn [List.forallb render].
  intros H. apply andb_true_iff in H as [Hsg Hsegs].
  cbn [forallb]. rewrite forallb_append.
  destruct (segment_text _ Hsg) as (_ & _ & ->). now rewrite IH.
Qed.

Lemma concrete_head (values : list string) :
  head_fails nonslash (concrete values).
Proof. destruct values; simpl; [exact I | reflexivity]. Qed.

Lemma exec_chars (t : string) (l : list atom) (s : string) :
  forallb plain t = true ->
  exec_atoms (map atom_of_char (list_ascii_of_string t) ++ l)%list (t ++ s)
  = exec_atoms l s.
Proof.
  induction t as [|c t IH]; [reflexivity|]. cbn [forallb]. intros H.
  apply andb_true_iff in H as [Hc Ht].
  cbn [list_ascii_of_string map app append]. unfold atom_of_char at 1.
  destruct (Ascii.eqb c ".") eqn:Hdot; cbn [exec_atoms].
  - apply Ascii.eqb_eq in Hdot; subst c. now apply IH.
  - rewrite Ascii.eqb_refl. now apply IH.
Qed.

Lemma exec_atoms_of (segs : list segment) (values : list string) :
  List.forallb wf_segment segs = true ->
  instance_of segs values = true ->
  exec_atoms (atoms_of segs) (concrete values) = Some (bindings segs values).
Proof.
  revert values. induction segs as [|sg segs IH]; intros [|v vs] Hwf H;
    try discriminate; try (destruct sg; discriminate); [reflexivity|].
  cbn [List.forallb] in Hwf. apply andb_true_iff in Hwf as [Hsg Hsegs].
  destruct sg as [text|name]; cbn [instance_of] in H.
  - apply andb_true_iff in H as [Ht Hr]. apply String.eqb_eq in Ht; subst v.
    cbn [wf_segment] in Hsg. apply andb_true_iff in Hsg as [_ Hplain].
    cbn [atoms_of concrete bindings exec_atoms]. cbn [Ascii.eqb Bool.eqb].
    now rewrite exec_chars, IH.
  - apply andb_true_iff in H as [H Hr]. apply andb_true_iff in H as [Hne Hns].
    apply negb_true_iff in Hne.
    cbn [atoms_of concrete bindings exec_atoms]. cbn [Ascii.eqb Bool.eqb].
    cbn [exec_atoms].
    rewrite span_exact; [|exact Hns|apply concrete_head]. cbn [fst].
    destruct v as [|c v']; [discriminate|].
    cbn [String.length backtrack].
    rewrite (drop_append (String c v')), (take_append (String c v')).
    now rewrite (IH _ Hsegs Hr).
Qed.

(** A pattern given by well-formed segments compiles to the atoms of its
    segments, and a path with its structure is matched with the segments
    bound to the parameters. *)
Lemma pathToRegex_segments (segs : list segment) :
  wf_pattern segs = true ->
  pathToRegex (render segs)
  = Ok {| regex := {| atoms := atoms_of segs |}; keys := param_names segs |}.
Proof.
  unfold wf_pattern. intros H.
  apply andb_true_iff in H as [H Hdist]. apply andb_true_iff in H as [Hne Hwf].
  assert (Hnil : segs <> []) by (destruct segs; [discriminate | congruence]).
  rewrite pathToRegex_tokenize by now apply render_supported.
  destruct (render_last segs Hnil Hwf) as (b & c & Hb & Hc).
  assert (Hnorm : normalize (render segs) = render segs).
  { rewrite Hb. now apply normalize_nonslash_end. }
  rewrite Hnorm, tokenize_render by assumption. cbv zeta.
  rewrite group_names_atoms_of, param_names_valid, Hdist by assumption.
  reflexivity.
Qed.




End PathMatcherFacts.
(* ================================================================= *)
(** ** Facts about the dispatch engine *)

Module EngineFacts.
Import Str StrFacts PathMatcher Pattern Engine Monitor.
#[local] Open Scope list_scope.

(** *** Running a body *)

Lemma res_json_cases (data : Json.value) (st : State) :
  (exists e, res_json data st = (Thrown e, st)
             /\ Response.headersSent (res st) = true)
  \/ (exists r, res_json data st = (Normal, with_res (fun _ => r) st)
                /\ Response.headersSent (res st) = false
                /\ Response.json data (res st) = inr r).
Proof.
  unfold res_json, Response.json, Response.setHeader.
  destruct (Response.headersSent (res st)) eqn:H.
  - left. eauto.
  - right. eauto.
Qed.

Section Run.

Variable nxt : State -> result.
Variable Inv : State -> Prop.
Hypothesis Inv_effect : forall st tag, Inv st -> Inv (log (EvEffect tag) st).
Hypothesis Inv_res : forall st f, Inv st -> Inv (with_res f st).

(** An invariant of the steps of a body and of its continuation holds
    after the body. *)
Lemma run_inv :
  (forall st, Inv st -> Inv (snd (nxt st))) ->
  forall p st, Inv st -> Inv (snd (run nxt p st)).
Proof.
  intros Hnxt. induction p as [|m|tag k IH|code k IH|data k IH|k IH];
    intros st Hst; cbn [run snd]; auto.
  - apply IH. unfold res_status. auto.
  - destruct (res_json_cases data st) as [(e & -> & _) | (r & -> & _)];
      cbn [snd]; auto.
  - pose proof (Hnxt st Hst) as H.
    destruct (nxt st) as [[|e] st']; cbn [snd] in *; auto.
Qed.

(** Two continuations that agree where the invariant holds give the same
    run. *)
Lemma run_ext (nxt' : State -> result) :
  (forall st, Inv st -> Inv (snd (nxt st))) ->
  (forall st, Inv st -> nxt st = nxt' st) ->
  forall p st, Inv st -> run nxt p st = run nxt' p st.
Proof.
  intros Hnxt Heq. induction p as [|m|tag k IH|code k IH|data k IH|k IH];
    intros st Hst; cbn [run]; auto.
  - apply IH. unfold res_status. auto.
  - destruct (res_json_cases data st) as [(e & -> & _) | (r & -> & _)]; auto.
  - rewrite <- (Heq st Hst). pose proof (Hnxt st Hst) as H.
    destruct (nxt st) as [[|e] st']; cbn [snd] in *; auto.
Qed.

End Run.

(** A body that does not call its continuation runs the same whatever
    the continuation. *)
Lemma run_without_next (nxt nxt' : State -> result) (p : prog) (st : State) :
  calls_next p = false -> run nxt p st = run nxt' p st.
Proof.
  revert st. induction p as [|m|tag k IH|code k IH|data k IH|k IH];
    intros st H; cbn [run calls_next] in *; auto; try discriminate.
  destruct (res_json data st) as [[|e] st']; auto.
Qed.

(** *** The cursors and the fuel *)

Lemma nth_error_lt {A : Type} (l : list A) (n : nat) (x : A) :
  nth_error l n = Some x -> n < List.length l.
Proof. intros H. apply nth_error_Some. congruence. Qed.

Section Chain.

Variable JSON_parse : string -> option Json.value.
Variable app : App.
Variable req : IncomingMessage.

Lemma next_unfold (route : nat) (hs : list Handler) (fuel : nat) (st : State) :
  next req route hs fuel st =
  let st1 := log EvNext (set_j (S (j st)) st) in
  match nth_error hs (j st), fuel with
  | Some handler, S fuel' =>
      match run (next req route hs fuel') (handler (view req st1))
                (log (EvHandler route (j st)) st1) with
      | (Normal, st2) => (Normal, st2)
      | (Thrown _, st2) =>
          res_json internal_server_error
                   (res_status 500 (log EvHandlerError st2))
      end
  | _, _ => (Normal, st1)
  end.
Proof. destruct fuel; reflexivity. Qed.

Lemma res_json_frame (data : Json.value) (st : State) :
  let st' := snd (res_json data st) in
  i st' = i st /\ j st' = j st /\ trace st' = trace st
  /\ body st' = body st /\ params st' = params st.
Proof.
  destruct (res_json_cases data st) as [(e & -> & _) | (r & -> & _)];
    cbn; auto.
Qed.

Lemma next_j_mono (route : nat) (hs : list Handler) (fuel : nat) (st : State) :
  j st <= j (snd (next req route hs fuel st)).
Proof.
  revert st. induction fuel as [|fuel IH]; intros st; rewrite next_unfold;
    cbv zeta.
  - destruct (nth_error hs (j st)); cbn; lia.
  - destruct (nth_error hs (j st)) as [h|]; [|cbn; lia].
    set (st0 := log (EvHandler route (j st)) _).
    assert (H : S (j st) <= j (snd (run (next req route hs fuel)
                                        (h (view req (log EvNext (set_j (S (j st)) st)))) st0))).
    { apply run_inv with (Inv := fun s => S (j st) <= j s); cbn; auto.
      intros s Hs. specialize (IH s). lia. }
    destruct (run _ _ st0) as [[|e] st2]; cbn [snd] in *; [lia|].
    destruct (res_json_frame internal_server_error
                (res_status 500 (log EvHandlerError st2))) as (_ & -> & _).
    cbn. lia.
Qed.

(** The fuel of [next] does not matter once it covers the handlers left. *)
Lemma next_fuel (route : nat) (hs : list Handler) (f1 f2 : nat) (st : State) :
  List.length hs - j st <= f1 -> List.length hs - j st <= f2 ->
  next req route hs f1 st = next req route hs f2 st.
Proof.
  revert f2 st. induction f1 as [|f1 IH]; intros f2 st H1 H2;
    rewrite !next_unfold; cbv zeta;
    destruct (nth_error hs (j st)) as [h|] eqn:Hh;
    try (destruct f2; reflexivity).
  - apply nth_error_lt in Hh. lia.
  - pose proof (nth_error_lt _ _ _ Hh) as Hlt.
    destruct f2 as [|f2]; [lia|].
    rewrite (run_ext (next req route hs f1) (fun s => S (j st) <= j s))
      with (nxt' := next req route hs f2); cbn; auto.
    + intros s Hs. pose proof (next_j_mono route hs f1 s). lia.
    + intros s Hs. apply IH; lia.
Qed.

Lemma next_i (route : nat) (hs : list Handler) (fuel : nat) (st : State) :
  i (snd (next req route hs fuel st)) = i st.
Proof.
  revert st. induction fuel as [|fuel IH]; intros st; rewrite next_unfold;
    cbv zeta.
  - destruct (nth_error hs (j st)); reflexivity.
  - destruct (nth_error hs (j st)) as [h|]; [|reflexivity].
    set (st0 := log (EvHandler route (j st)) _).
    assert (H : i (snd (run (next req route hs fuel)
                            (h (view req (log EvNext (set_j (S (j st)) st)))) st0)) = i st).
    { apply run_inv with (Inv := fun s => i s = i st); cbn; auto.
      intros s Hs. now rewrite IH. }
    destruct (run _ _ st0) as [[|e] st2]; cbn [snd] in *; [assumption|].
    destruct (res_json_frame internal_server_error
                (res_status 500 (log EvHandlerError st2))) as (-> & _).
    exact H.
Qed.

Section Closure.

Variable pathname : string.

Lemma routeHandler_i (st : State) :
  i (snd (routeHandler app req pathname st)) = i st.
Proof.
  unfold routeHandler.
  destruct (find_route (routes app) 0 (method req) pathname)
    as [[[pos route] g]|].
  - now rewrite next_i.
  - now destruct (res_json_frame route_not_found
                    (res_status 404 (log EvNotFound (log EvRouteHandler st))))
      as (-> & _).
Qed.

Lemma runMiddlewares_unfold (fuel : nat) (st : State) :
  runMiddlewares app req pathname fuel st =
  let st1 := log EvRunMiddlewares (set_i (S (i st)) st) in
  match nth_error (middlewares app) (i st) with
  | None => routeHandler app req pathname st1
  | Some middleware =>
      match fuel with
      | S fuel' =>
          run (runMiddlewares app req pathname fuel') (middleware (view req st1))
              (log (EvMiddleware (i st)) st1)
      | 0 => (Normal, st1)
      end
  end.
Proof. destruct fuel; reflexivity. Qed.

Lemma runMiddlewares_i_mono (fuel : nat) (st : State) :
  S (i st) <= i (snd (runMiddlewares app req pathname fuel st)).
Proof.
  revert st. induction fuel as [|fuel IH]; intros st;
    rewrite runMiddlewares_unfold; cbv zeta;
    destruct (nth_error (middlewares app) (i st)) as [m|];
    try (rewrite routeHandler_i; cbn; lia).
  - cbn; lia.
  - apply run_inv with (Inv := fun s => S (i st) <= i s); cbn; auto.
    intros s Hs. specialize (IH s). lia.
Qed.

(** The fuel of [runMiddlewares] does not matter once it covers the
    middleware left. *)
Lemma runMiddlewares_fuel (f1 f2 : nat) (st : State) :
  List.length (middlewares app) - i st <= f1 ->
  List.length (middlewares app) - i st <= f2 ->
  runMiddlewares app req pathname f1 st = runMiddlewares app req pathname f2 st.
Proof.
  revert f2 st. induction f1 as [|f1 IH]; intros f2 st H1 H2;
    rewrite !runMiddlewares_unfold; cbv zeta;
    destruct (nth_error (middlewares app) (i st)) as [m|] eqn:Hm;
    try reflexivity.
  - apply nth_error_lt in Hm. lia.
  - pose proof (nth_error_lt _ _ _ Hm) as Hlt.
    destruct f2 as [|f2]; [lia|].
    apply run_ext with (Inv := fun s => S (i st) <= i s); cbn; auto.
    + intros s Hs. pose proof (runMiddlewares_i_mono f1 s). lia.
    + intros s Hs. apply IH; lia.
Qed.

(** *** Every trace is well formed *)

Lemma accept_app (m : Monitor.t) (a b : list event) :
  accept m (a ++ b)
  = match accept m a with Some m' => accept m' b | None => None end.
Proof.
  revert m. induction a as [|e a IH]; intros m; cbn; [reflexivity|].
  destruct (step m e); auto.
Qed.

Lemma tracks_log (m m' : Monitor.t) (e : event) (st : State) :
  tracks app m st -> step m e = Some m' ->
  next_mw m' <= i st ->
  (routed m' = true -> List.length (middlewares app) <= i st) ->
  tracks app m' (log e st).
Proof.
  intros (Hacc & _ & _) Hstep Hmw Hr. repeat split; auto.
  cbn. rewrite accept_app, Hacc. cbn. now rewrite Hstep.
Qed.

Lemma in_chain_body (st : State) : (in_chain app) st -> (in_body app) st.
Proof. intros (m & H & _ & Hr). now exists m. Qed.

Lemma in_chain_effect (st : State) (tag : string) :
  (in_chain app) st -> (in_chain app) (log (EvEffect tag) st).
Proof.
  intros (m & H & Hrt & Hrd).
  eexists. split; [eapply tracks_log; [exact H| | |]|].
  - cbn. rewrite Hrd. reflexivity.
  - cbn. apply H.
  - cbn. apply H.
  - cbn. auto.
Qed.

Lemma in_body_effect (st : State) (tag : string) :
  (in_body app) st -> (in_body app) (log (EvEffect tag) st).
Proof.
  intros (m & H & Hrd).
  eexists. split; [eapply tracks_log; [exact H| | |]|].
  - cbn. rewrite Hrd. reflexivity.
  - cbn. apply H.
  - cbn. apply H.
  - cbn. auto.
Qed.

Lemma in_chain_res_json (data : Json.value) (st : State) :
  (in_chain app) st -> (in_chain app) (snd (res_json data st)).
Proof.
  destruct (res_json_cases data st) as [(e & -> & _) | (r & -> & _)]; auto.
Qed.

Lemma next_in_chain (route : nat) (hs : list Handler) (fuel : nat) (st : State) :
  (in_chain app) st -> (in_chain app) (snd (next req route hs fuel st)).
Proof.
  revert st. induction fuel as [|fuel IH]; intros st (m & H & Hrt & Hrd);
    rewrite next_unfold; cbv zeta.
  - assert (Hn : (in_chain app) (log EvNext (set_j (S (j st)) st))).
    { eexists. split; [eapply tracks_log with (m := m); [exact H| | |]|].
      - cbn. rewrite Hrt. reflexivity.
      - cbn. apply H.
      - cbn. intros _. now apply H.
      - cbn. auto. }
    destruct (nth_error hs (j st)); exact Hn.
  - set (st1 := log EvNext (set_j (S (j st)) st)).
    assert (H1 : exists m1, tracks app m1 st1 /\ routed m1 = true
                            /\ reading m1 = false /\ prev m1 = Some EvNext).
    { eexists. split; [eapply tracks_log with (m := m); [exact H| | |]|].
      - cbn. rewrite Hrt. reflexivity.
      - cbn. apply H.
      - cbn. intros _. now apply H.
      - cbn. auto. }
    destruct (nth_error hs (j st)) as [h|];
      [|destruct H1 as (m1 & ? & ? & ? & _); now exists m1].
    destruct H1 as (m1 & Ht1 & Hrt1 & Hrd1 & Hp1).
    assert (H2 : (in_chain app) (log (EvHandler route (j st)) st1)).
    { eexists. split; [eapply tracks_log with (m := m1); [exact Ht1| | |]|].
      - cbn. rewrite Hrt1, Hp1. reflexivity.
      - cbn. apply Ht1.
      - cbn. intros _. now apply Ht1.
      - cbn. auto. }
    pose proof (run_inv (next req route hs fuel) (in_chain app)
                  in_chain_effect (fun s f Hs => Hs) IH
                  (h (view req st1)) _ H2) as H3.
    destruct (run _ _ (log (EvHandler route (j st)) st1)) as [[|e] st2];
      cbn [snd] in *; [assumption|].
    apply in_chain_res_json.
    destruct H3 as (m3 & Ht3 & Hrt3 & Hrd3).
    eexists. split; [eapply tracks_log with (m := m3); [exact Ht3| | |]|].
    + cbn. rewrite Hrt3. reflexivity.
    + cbn. apply Ht3.
    + cbn. intros _. now apply Ht3.
    + cbn. auto.
Qed.

Lemma routeHandler_in_chain (st : State) (m : Monitor.t) :
  tracks app m st -> prev m = Some EvRunMiddlewares ->
  List.length (middlewares app) <= i st ->
  (in_chain app) (snd (routeHandler app req pathname st)).
Proof.
  intros H Hp Hlen. unfold routeHandler.
  assert (H0 : exists m0, tracks app m0 (log EvRouteHandler st)
                          /\ routed m0 = true /\ reading m0 = false
                          /\ prev m0 = Some EvRouteHandler).
  { eexists. split; [eapply tracks_log with (m := m); [exact H| | |]|].
    - cbn. rewrite Hp. reflexivity.
    - cbn. apply H.
    - cbn. auto.
    - cbn. auto. }
  destruct H0 as (m0 & Ht0 & Hrt0 & Hrd0 & Hp0).
  destruct (find_route (routes app) 0 (method req) pathname)
    as [[[pos route] g]|].
  - apply next_in_chain. now exists m0.
  - apply in_chain_res_json.
    eexists. split; [eapply tracks_log with (m := m0); [exact Ht0| | |]|].
    + cbn. rewrite Hrt0, Hp0. reflexivity.
    + cbn. apply Ht0.
    + cbn. intros _. now apply Ht0.
    + cbn. auto.
Qed.

Lemma runMiddlewares_in_body (fuel : nat) (st : State) (m : Monitor.t) :
  tracks app m st ->
  (in_body app) (snd (runMiddlewares app req pathname fuel st)).
Proof.
  revert st m. induction fuel as [|fuel IH]; intros st m H;
    rewrite runMiddlewares_unfold; cbv zeta;
    set (st1 := log EvRunMiddlewares (set_i (S (i st)) st));
    assert (H1 : exists m1, tracks app m1 st1 /\ reading m1 = false
                            /\ prev m1 = Some EvRunMiddlewares
                            /\ routed m1 = routed m /\ next_mw m1 = next_mw m)
      by (eexists; split;
          [apply tracks_log with (m := m) (st := set_i (S (i st)) st);
           [split; [apply H|split; cbn; [destruct H as (_ & ? & _); lia
                                        |intros Hr; destruct H as (_ & _ & Hl);
                                         specialize (Hl Hr); lia]]
           |reflexivity
           |cbn; destruct H as (_ & ? & _); lia
           |cbn; intros Hr; destruct H as (_ & _ & Hl); specialize (Hl Hr); lia]
          |cbn; auto]);
    destruct H1 as (m1 & Ht1 & Hrd1 & Hp1 & Hrt1 & Hmw1);
    destruct (nth_error (middlewares app) (i st)) as [mw|] eqn:Hmw.
  - now exists m1.
  - apply in_chain_body. apply routeHandler_in_chain with (m := m1); auto.
    apply nth_error_None in Hmw. cbn. lia.
  - pose proof (nth_error_lt _ _ _ Hmw) as Hlt.
    assert (Hnr : routed m = false).
    { destruct H as (_ & _ & Hl).
      destruct (routed m); [specialize (Hl eq_refl); lia | reflexivity]. }
    assert (H2 : (in_body app) (log (EvMiddleware (i st)) st1)).
    { eexists. split; [eapply tracks_log with (m := m1); [exact Ht1| | |]|].
      - cbn. rewrite Hp1, Hrt1, Hnr, Hmw1. cbn.
        destruct H as (_ & Hle & _). apply Nat.leb_le in Hle. rewrite Hle.
        reflexivity.
      - cbn. lia.
      - cbn. discriminate.
      - cbn. auto. }
    apply run_inv with (Inv := (in_body app)); auto using in_body_effect.
    intros s (ms & Hs & _). now apply IH with (m := ms).
  - apply in_chain_body. apply routeHandler_in_chain with (m := m1); auto.
    apply nth_error_None in Hmw. cbn. lia.
Qed.

End Closure.

Lemma parseBody_tracks (st : State) (m : Monitor.t) :
  tracks app m st -> reading m = true ->
  exists m', tracks app m' (parseBody JSON_parse req st).
Proof.
  intros H Hrd. unfold parseBody.
  destruct (existsb (String.eqb (method req)) body_methods).
  - assert (Hfold : forall cs s ms, tracks app ms s -> reading ms = true ->
              exists m', tracks app m' (fold_left (fun s c => log (EvData c) s) cs s)
                         /\ reading m' = true).
    { induction cs as [|c cs IHc]; intros s ms Hs Hr; cbn [fold_left].
      - now exists ms.
      - eapply IHc; [eapply tracks_log with (m := ms); [exact Hs| | |]|].
        + cbn. rewrite Hr. reflexivity.
        + cbn. apply Hs.
        + cbn. apply Hs.
        + reflexivity. }
    destruct (Hfold (chunks req) st m H Hrd) as (m' & Hm' & _).
    now exists m'.
  - now exists m.
Qed.

Lemma top_level_catch_tracks (message : string) (st : State) (m : Monitor.t) :
  tracks app m st ->
  exists m', tracks app m' (snd (top_level_catch message st)).
Proof.
  intros H. unfold top_level_catch.
  assert (H' : exists m', tracks app m' (log EvServerError st)).
  { eexists. eapply tracks_log with (m := m); [exact H|reflexivity| |];
      cbn; apply H. }
  destruct (Response.writeHead _ _ _ _); exact H'.
Qed.

(** The events of a request are a well-formed trace. *)
Lemma handleRequest_well_formed :
  well_formed (trace (snd (handleRequest JSON_parse app req))).
Proof.
  assert (H0 : tracks app start initial).
  { repeat split; cbn; [lia | discriminate]. }
  assert (Hgoal : exists m,
             tracks app m (snd (handleRequest JSON_parse app req))).
  { unfold handleRequest. destruct (parsedUrl req) as [p|message].
    - destruct (parseBody_tracks (set_params [] initial) start H0 eq_refl)
        as (m1 & H1).
      destruct (runMiddlewares_in_body (normalize p)
                  (List.length (middlewares app)) _ m1 H1) as (m2 & H2 & _).
      destruct (runMiddlewares _ _ _ _ _) as [[|e] st']; cbn [snd] in *.
      + now exists m2.
      + now apply top_level_catch_tracks with (m := m2).
    - now apply top_level_catch_tracks with (m := start). }
  destruct Hgoal as (m & Hm & _). now exists m.
Qed.

End Chain.

(** *** What a well-formed trace excludes *)

Lemma step_prev (m m' : Monitor.t) (e : event) :
  step m e = Some m' -> prev m' = Some e.
Proof.
  destruct e; cbn; unfold guard;
    repeat match goal with |- context [if ?c then _ else _] => destruct c end;
    intros H; inversion H; reflexivity.
Qed.

Lemma step_required (m m' : Monitor.t) (e e1 : event) :
  step m e = Some m' -> required_prev e = Some e1 -> prev m = Some e1.
Proof.
  destruct e; cbn; try discriminate; unfold guard;
    destruct (prev m) as [[]|]; cbn; rewrite ?andb_false_r; cbn;
    intros H1 H2; try discriminate; inversion H2; reflexivity.
Qed.

Lemma accept_prev (m m' : Monitor.t) (a : list event) (e : event) :
  accept m (a ++ [e]) = Some m' -> prev m' = Some e.
Proof.
  rewrite accept_app. destruct (accept m a) as [m1|]; [|discriminate].
  cbn. destruct (step m1 e) as [m2|] eqn:H; [|discriminate].
  intros H'; inversion H'; subst. now apply step_prev in H.
Qed.

(** An event that must follow another one does. *)
Lemma accept_adjacent (m m' : Monitor.t) (a b : list event) (e e1 : event) :
  accept m (a ++ e :: b) = Some m' -> required_prev e = Some e1 ->
  (a = [] /\ prev m = Some e1) \/ exists a', a = a' ++ [e1].
Proof.
  intros H Hreq. rewrite accept_app in H.
  destruct (accept m a) as [m1|] eqn:Ha; [|discriminate]. cbn in H.
  destruct (step m1 e) as [m2|] eqn:Hs; [|discriminate].
  pose proof (step_required _ _ _ _ Hs Hreq) as Hp.
  destruct a as [|x a0]; [left; cbn in Ha; inversion Ha; subst; auto|].
  right. destruct (@exists_last _ (x :: a0)) as (a' & y & Hy); [discriminate|].
  rewrite Hy in Ha. apply accept_prev in Ha.
  exists a'. rewrite Hy. congruence.
Qed.

Lemma routed_mono (m m' : Monitor.t) (a : list event) :
  accept m a = Some m' -> routed m = true -> routed m' = true.
Proof.
  revert m. induction a as [|e a IH]; intros m H Hr; cbn in H.
  - now inversion H; subst.
  - destruct (step m e) as [m1|] eqn:Hs; [|discriminate].
    apply (IH m1 H).
    destruct e; cbn in Hs; unfold guard in Hs; rewrite ?Hr in Hs; cbn in Hs;
      rewrite ?andb_false_r in Hs; cbn in Hs;
      repeat match type of Hs with
             | context [if ?c then _ else _] => destruct c
             end; inversion Hs; subst; cbn; auto.
Qed.

(** Before the routes were looked up there is no event of the routing
    and handler stage. *)
Lemma unrouted_no_routing (m m' : Monitor.t) (a : list event) :
  accept m a = Some m' -> routed m' = false ->
  forall e, In e a -> routing_event e = false.
Proof.
  revert m. induction a as [|x a IH]; intros m H Hr e Hin; [destruct Hin|].
  cbn in H. destruct (step m x) as [m1|] eqn:Hs; [|discriminate].
  destruct Hin as [<- | Hin]; [|now apply (IH m1)].
  destruct (routing_event x) eqn:Hx; [|reflexivity].
  assert (Hr1 : routed m1 = true).
  { destruct x; try discriminate; cbn in Hs; unfold guard in Hs;
      repeat match type of Hs with
             | context [if ?c then _ else _] => destruct c
             end; inversion Hs; subst; reflexivity. }
  pose proof (routed_mono _ _ _ H Hr1). congruence.
Qed.

(** The routes are looked up only by [EvRouteHandler]. *)
Lemma routed_origin (m m' : Monitor.t) (a : list event) :
  accept m a = Some m' -> routed m' = true ->
  routed m = true \/ In EvRouteHandler a.
Proof.
  revert m. induction a as [|x a IH]; intros m H Hr; cbn in H.
  - inversion H; subst; auto.
  - destruct (step m x) as [m1|] eqn:Hs; [|discriminate].
    destruct (IH m1 H Hr) as [Hr1 | Hin]; [|right; now right].
    destruct x; cbn in Hs; unfold guard in Hs;
      try (right; left; reflexivity);
      destruct (routed m); auto; cbn in Hs;
      repeat match type of Hs with
             | context [if ?c then _ else _] => destruct c
             end; inversion Hs; subst; cbn in Hr1; try discriminate; auto.
Qed.

(** The positions of the invoked middleware increase. *)
Lemma middleware_below (m m' : Monitor.t) (a : list event) :
  accept m a = Some m' ->
  next_mw m <= next_mw m' /\ forall k, In (EvMiddleware k) a -> k < next_mw m'.
Proof.
  revert m. induction a as [|x a IH]; intros m H; cbn in H.
  - inversion H; subst. split; [lia | intros k []].
  - destruct (step m x) as [m1|] eqn:Hs; [|discriminate].
    destruct (IH m1 H) as [Hle Hin].
    assert (Hstep : next_mw m <= next_mw m1
                    /\ forall k, x = EvMiddleware k -> k < next_mw m1).
    { destruct x; cbn in Hs; unfold guard in Hs;
        repeat match type of Hs with
               | context [if ?c then _ else _] => destruct c eqn:?
               end; inversion Hs; subst; cbn; split; try lia;
        try (intros k Hk; discriminate Hk).
      - repeat match goal with
               | H : _ && _ = true |- _ => apply andb_true_iff in H as [? ?]
               end.
        match goal with H : (_ <=? _)%nat = true |- _ => apply Nat.leb_le in H end.
        lia.
      - intros k Hk. inversion Hk; subst. lia. }
    destruct Hstep as [Hle1 Hx]. split; [lia|].
    intros k [Hk | Hk]; [specialize (Hx k Hk); lia | now apply Hin].
Qed.

(** After the middleware at position [k] was invoked, as long as
    [runMiddlewares] is not called again: no other middleware is invoked,
    the routes are not looked up, and nothing of the routing and handler
    stage happens; before it, only middleware at lower positions ran. *)
Lemma veto_trace (t1 t2 : list event) (k : nat) :
  well_formed (t1 ++ EvMiddleware k :: t2) ->
  ~ In EvRunMiddlewares t2 ->
  (forall k', In (EvMiddleware k') t1 -> k' < k)
  /\ (forall k', ~ In (EvMiddleware k') t2)
  /\ (forall e, In e (t1 ++ t2) -> routing_event e = false).
Proof.
  intros (m3 & Hacc) Hquiet. rewrite accept_app in Hacc.
  destruct (accept start t1) as [m1|] eqn:H1; [|discriminate].
  cbn [accept] in Hacc.
  destruct (step m1 (EvMiddleware k)) as [m2|] eqn:Hs; [|discriminate].
  assert (Hm2 : routed m1 = false /\ next_mw m1 <= k /\ routed m2 = false
                /\ prev m2 = Some (EvMiddleware k)).
  { cbn in Hs. unfold guard in Hs.
    destruct (is_run (prev m1) && negb (routed m1) && (next_mw m1 <=? k)%nat)
      eqn:Hg; [|discriminate].
    apply andb_true_iff in Hg as [Hg Hle]. apply andb_true_iff in Hg as [_ Hnr].
    apply negb_true_iff in Hnr. apply Nat.leb_le in Hle.
    inversion Hs; subst. cbn. auto. }
  destruct Hm2 as (Hr1 & Hle & Hr2 & Hp2).
  assert (Hadj : forall e a b, t2 = a ++ e :: b ->
                               required_prev e <> Some EvRunMiddlewares).
  { intros e a b -> Hreq.
    destruct (accept_adjacent _ _ _ _ _ _ Hacc Hreq) as [[_ Hp] | (a' & ->)].
    - congruence.
    - apply Hquiet. rewrite <- app_assoc. apply in_or_app. right. now left. }
  assert (Hr3 : routed m3 = false).
  { destruct (routed m3) eqn:Hr3; [|reflexivity].
    destruct (routed_origin _ _ _ Hacc Hr3) as [Hr | Hin]; [congruence|].
    apply in_split in Hin as (a & b & Hab).
    now destruct (Hadj _ _ _ Hab). }
  repeat split.
  - intros k' Hin. destruct (middleware_below _ _ _ H1) as [_ Hb].
    specialize (Hb k' Hin). lia.
  - intros k' Hin. apply in_split in Hin as (a & b & Hab).
    now destruct (Hadj _ _ _ Hab).
  - intros e Hin. apply in_app_or in Hin as [Hin | Hin].
    + now apply (unrouted_no_routing _ _ _ H1 Hr1).
    + now apply (unrouted_no_routing _ _ _ Hacc Hr3).
Qed.

(** After an event that is not a call of [next], no handler is invoked as
    long as [next] is not called. *)
Lemma no_handler_without_next (t1 t2 : list event) (e0 : event) :
  well_formed (t1 ++ e0 :: t2) -> e0 <> EvNext ->
  ~ In EvNext t2 ->
  forall e, In e t2 -> handler_event e = false.
Proof.
  intros (m3 & Hacc) He0 Hquiet e Hin.
  destruct (handler_event e) eqn:He; [|reflexivity].
  destruct e as [| | | | |r0 j0| | | |]; try discriminate.
  apply in_split in Hin as (a & b & ->).
  replace (t1 ++ e0 :: a ++ EvHandler r0 j0 :: b)
    with ((t1 ++ e0 :: a) ++ EvHandler r0 j0 :: b) in Hacc
    by (rewrite <- app_assoc; reflexivity).
  destruct (accept_adjacent _ _ _ _ _ _ Hacc eq_refl) as [[Hnil _] | (a' & Ha')].
  - now destruct t1.
  - destruct a as [|x a0].
    + apply app_inj_tail in Ha' as [_ Ha']. congruence.
    + destruct (@exists_last _ (x :: a0)) as (a1 & y & Hy); [discriminate|].
      rewrite Hy in Ha', Hquiet.
      replace (t1 ++ e0 :: a1 ++ [y]) with ((t1 ++ e0 :: a1) ++ [y]) in Ha'
        by (rewrite <- app_assoc; reflexivity).
      apply app_inj_tail in Ha' as [_ ->].
      exfalso. apply Hquiet. rewrite <- app_assoc.
      apply in_or_app. right. now left.
Qed.


(** *** Which events a call adds *)

Section Grows.

Variable P : event -> Prop.

Lemma grows_refl (st : State) : grows P st st.
Proof. exists []. split; [now rewrite app_nil_r | constructor]. Qed.

Lemma grows_trans (a b c : State) : grows P a b -> grows P b c -> grows P a c.
Proof.
  intros (d1 & H1 & P1) (d2 & H2 & P2). exists (d1 ++ d2). split.
  - now rewrite H2, H1, app_assoc.
  - apply Forall_app. auto.
Qed.

Lemma grows_log (st : State) (e : event) : P e -> grows P st (log e st).
Proof. intros He. exists [e]. split; [reflexivity | now constructor]. Qed.

Lemma grows_same (st st' : State) : trace st' = trace st -> grows P st st'.
Proof. intros H. exists []. split; [now rewrite app_nil_r | constructor]. Qed.

Lemma grows_res_json (data : Json.value) (st : State) :
  grows P st (snd (res_json data st)).
Proof.
  apply grows_same.
  now destruct (res_json_frame data st) as (_ & _ & -> & _).
Qed.

Hypothesis P_effect : forall tag, P (EvEffect tag).

Lemma run_grows (nxt : State -> result) (p : prog) (st : State) :
  (forall s, grows P s (snd (nxt s))) -> grows P st (snd (run nxt p st)).
Proof.
  intros Hnxt.
  apply (run_inv nxt (grows P st)).
  - intros s tag Hs. eapply grows_trans; [exact Hs | now apply grows_log].
  - intros s f Hs. eapply grows_trans; [exact Hs | now apply grows_same].
  - intros s Hs. eapply grows_trans; [exact Hs | apply Hnxt].
  - apply grows_refl.
Qed.

Section Chain.

Variable app : App.
Variable req : IncomingMessage.

Lemma next_grows (route : nat) (hs : list Handler) (fuel : nat) (st : State) :
  P EvNext -> P EvHandlerError -> (forall k, P (EvHandler route k)) ->
  grows P st (snd (next req route hs fuel st)).
Proof.
  intros Pn Pe Ph. revert st.
  induction fuel as [|fuel IH]; intros st; rewrite next_unfold; cbv zeta.
  - assert (H : grows P st (log EvNext (set_j (S (j st)) st)))
      by (exists [EvNext]; split; [reflexivity | now constructor]).
    destruct (nth_error hs (j st)); exact H.
  - assert (H : grows P st (log EvNext (set_j (S (j st)) st)))
      by (exists [EvNext]; split; [reflexivity | now constructor]).
    destruct (nth_error hs (j st)) as [h|]; [|exact H].
    set (st1 := log EvNext (set_j (S (j st)) st)) in *.
    pose proof (run_grows (next req route hs fuel) (h (view req st1))
                  (log (EvHandler route (j st)) st1) IH) as Hrun.
    assert (H2 : grows P st (snd (run (next req route hs fuel)
                                      (h (view req st1))
                                      (log (EvHandler route (j st)) st1)))).
    { eapply grows_trans; [exact H|].
      eapply grows_trans; [apply grows_log, Ph | exact Hrun]. }
    destruct (run _ _ (log (EvHandler route (j st)) st1)) as [[|e] st2];
      cbn [snd] in *; [exact H2|].
    eapply grows_trans; [exact H2|].
    eapply grows_trans; [|apply grows_res_json].
    eapply grows_trans; [apply grows_log, Pe | now apply grows_same].
Qed.

Variable pathname : string.

Lemma routeHandler_grows (st : State) :
  P EvRouteHandler -> P EvNotFound ->
  P EvNext -> P EvHandlerError -> (forall r k, P (EvHandler r k)) ->
  grows P st (snd (routeHandler app req pathname st)).
Proof.
  intros Pr Pf Pn Pe Ph. unfold routeHandler.
  destruct (find_route (routes app) 0 (method req) pathname)
    as [[[pos route] g]|].
  - eapply grows_trans; [apply grows_log, Pr|].
    eapply grows_trans; [|apply next_grows; auto].
    now apply grows_same.
  - eapply grows_trans; [apply grows_log, Pr|].
    eapply grows_trans; [apply grows_log, Pf|].
    eapply grows_trans; [|apply grows_res_json]. now apply grows_same.
Qed.

Lemma runMiddlewares_grows (fuel : nat) (st : State) :
  (forall s, grows P s (snd (routeHandler app req pathname s))) ->
  P EvRunMiddlewares -> (forall k, P (EvMiddleware k)) ->
  grows P st (snd (runMiddlewares app req pathname fuel st)).
Proof.
  intros Hroute Pr Pm. revert st.
  induction fuel as [|fuel IH]; intros st; rewrite runMiddlewares_unfold;
    cbv zeta;
    assert (H : grows P st (log EvRunMiddlewares (set_i (S (i st)) st)))
      by (exists [EvRunMiddlewares]; split; [reflexivity | now constructor]);
    destruct (nth_error (middlewares app) (i st)) as [m|];
    try (eapply grows_trans; [exact H | apply Hroute]); [exact H|].
  eapply grows_trans; [exact H|].
  eapply grows_trans; [apply grows_log, Pm|].
  now apply run_grows.
Qed.

End Chain.

End Grows.

(** *** The body of the request *)

Section Body.

Variable JSON_parse : string -> option Json.value.
Variable app : App.
Variable req : IncomingMessage.

Lemma next_body (route : nat) (hs : list Handler) (fuel : nat) (st : State) :
  body (snd (next req route hs fuel st)) = body st.
Proof.
  revert st. induction fuel as [|fuel IH]; intros st; rewrite next_unfold;
    cbv zeta.
  - destruct (nth_error hs (j st)); reflexivity.
  - destruct (nth_error hs (j st)) as [h|]; [|reflexivity].
    set (st0 := log (EvHandler route (j st)) _).
    assert (H : body (snd (run (next req route hs fuel)
                               (h (view req (log EvNext (set_j (S (j st)) st)))) st0))
                = body st).
    { apply run_inv with (Inv := fun s => body s = body st); cbn; auto.
      intros s Hs. now rewrite IH. }
    destruct (run _ _ st0) as [[|e] st2]; cbn [snd] in *; [assumption|].
    destruct (res_json_frame internal_server_error
                (res_status 500 (log EvHandlerError st2))) as (_ & _ & _ & -> & _).
    exact H.
Qed.

Lemma runMiddlewares_body (pathname : string) (fuel : nat) (st : State) :
  body (snd (runMiddlewares app req pathname fuel st)) = body st.
Proof.
  revert st. induction fuel as [|fuel IH]; intros st;
    rewrite runMiddlewares_unfold; cbv zeta;
    assert (Hroute : forall s, body (snd (routeHandler app req pathname s)) = body s)
      by (intros s; unfold routeHandler;
          destruct (find_route (routes app) 0 (method req) pathname)
            as [[[pos route] g]|];
          [now rewrite next_body
          |now destruct (res_json_frame route_not_found
                           (res_status 404 (log EvNotFound (log EvRouteHandler s))))
             as (_ & _ & _ & -> & _)]);
    destruct (nth_error (middlewares app) (i st)) as [m|];
    try (now rewrite Hroute); [reflexivity|].
  apply run_inv with (Inv := fun s => body s = body st); cbn; auto.
  intros s Hs. now rewrite IH.
Qed.

End Body.


(** *** The route table *)

Lemma find_route_first (before after : list Route) (route : Route)
      (pos : nat) (method pathname : string) (g : groups) :
  (forall r, In r before -> route_matches method pathname r = false) ->
  String.eqb method (route_method route) = true ->
  String_match pathname (route_regex route) = Some g ->
  find_route (before ++ route :: after) pos method pathname
  = Some (pos + List.length before, route, g).
Proof.
  intros Hb Hm Hg. revert pos.
  induction before as [|r before IH]; intros pos; cbn [app find_route].
  - rewrite Hg, Hm. cbn. now rewrite Nat.add_0_r.
  - pose proof (Hb r (or_introl eq_refl)) as Hr. unfold route_matches in Hr.
    rewrite IH by (intros r' Hr'; apply Hb; now right).
    cbn [List.length]. rewrite Nat.add_succ_r.
    destruct (String_match pathname (route_regex r)); [|reflexivity].
    destruct (String.eqb method (route_method r)); [discriminate | reflexivity].
Qed.

Lemma find_route_none (rs : list Route) (pos : nat) (method pathname : string) :
  (forall r, In r rs -> route_matches method pathname r = false) ->
  find_route rs pos method pathname = None.
Proof.
  revert pos. induction rs as [|r rs IH]; intros pos Hrs; [reflexivity|].
  cbn [find_route].
  pose proof (Hrs r (or_introl eq_refl)) as Hr. unfold route_matches in Hr.
  rewrite IH by (intros r' Hr'; apply Hrs; now right).
  destruct (String_match pathname (route_regex r)); [|reflexivity].
  destruct (String.eqb method (route_method r)); [discriminate | reflexivity].
Qed.

Lemma register_appends (app app' : App) (method path : string)
      (hs : list Handler) :
  register app method path hs = Ok app' ->
  exists pr, pathToRegex path = Ok pr
             /\ routes app' = routes app ++ [{| route_method := method;
                                               route_regex := regex pr;
                                               handlers := hs |}]
             /\ middlewares app' = middlewares app.
Proof.
  unfold register. destruct (pathToRegex path) as [pr| |]; cbn;
    intros H; inversion H; subst. exists pr. auto.
Qed.

(** *** The responses of the framework *)

Lemma stringify_internal_server_error :
  Json.stringify internal_server_error = internal_server_error_text.
Proof. reflexivity. Qed.

Lemma stringify_route_not_found :
  Json.stringify route_not_found = route_not_found_text.
Proof. reflexivity. Qed.

Lemma stringify_server_error (message : string) :
  Json.stringify (server_error message) = server_error_text message.
Proof. reflexivity. Qed.

(** [res.status(code).json(data)] on a response that was not sent. *)
Lemma status_json_unsent (code : Z) (data : Json.value) (st : State) :
  Response.headersSent (res st) = false ->
  exists st', res_json data (res_status code st) = (Normal, st')
              /\ Response.delivered (res st') = Some (code, Json.stringify data)
              /\ Response.content_type (res st') = Some "application/json"
              /\ trace st' = trace st /\ i st' = i st /\ j st' = j st
              /\ body st' = body st /\ params st' = params st.
Proof.
  intros H. unfold res_json, Response.json, Response.setHeader.
  unfold Response.headersSent in *.
  cbn [res_status with_res res Response.status Response.sent].
  destruct (Response.sent (res st)) eqn:Hs; [discriminate|].
  eexists. split; [reflexivity|].
  unfold Response.delivered, Response.content_type. cbn.
  repeat split.
Qed.

(** Once sent, a response stays sent. *)
Lemma res_json_sent (data : Json.value) (st : State) :
  Response.headersSent (res (snd (res_json data st))) = true.
Proof.
  destruct (res_json_cases data st) as [(e & -> & H) | (r & -> & H & Hr)];
    cbn [snd]; [exact H|].
  unfold Response.json, Response.setHeader in Hr. rewrite H in Hr.
  inversion Hr; subst. cbn.
  unfold Response.headersSent in *. cbn.
  now destruct (Response.sent (res st)).
Qed.

Lemma res_json_keeps_sent (data : Json.value) (st : State) :
  Response.headersSent (res st) = true ->
  Response.headersSent (res (snd (res_json data st))) = true.
Proof. intros _. apply res_json_sent. Qed.

(** An exception leaves a handler chain only if the response was sent:
    the catch of [next] throws only when [res.json] does. *)
Lemma next_throws_sent (req : IncomingMessage) (route : nat)
      (hs : list Handler) (fuel : nat) (st st' : State) (e : string) :
  next req route hs fuel st = (Thrown e, st') ->
  Response.headersSent (res st') = true.
Proof.
  rewrite next_unfold. cbv zeta.
  destruct (nth_error hs (j st)) as [h|]; [|discriminate].
  destruct fuel as [|fuel]; [discriminate|].
  destruct (run _ _ _) as [[|e0] st2]; [discriminate|].
  intros H.
  destruct (res_json_cases internal_server_error
              (res_status 500 (log EvHandlerError st2)))
    as [(e1 & H1 & Hs) | (r & H1 & _)]; rewrite H1 in H; inversion H; subst.
  exact Hs.
Qed.

(** *** Handlers that do not look at the request target *)

Section Blind.

Variable app : App.
Variables req req' : IncomingMessage.
Hypothesis same_method : method req = method req'.

Lemma view_with_url (st : State) :
  view req' st = with_url (url req') (view req st).
Proof. unfold view, with_url. cbn. now rewrite same_method. Qed.

Lemma next_blind (route : nat) (hs : list Handler) (fuel : nat) (st : State) :
  Forall url_blind hs ->
  next req route hs fuel st = next req' route hs fuel st.
Proof.
  intros Hb. revert st. induction fuel as [|fuel IH]; intros st;
    rewrite !next_unfold; cbv zeta.
  - destruct (nth_error hs (j st)); reflexivity.
  - destruct (nth_error hs (j st)) as [h|] eqn:Hh; [|reflexivity].
    assert (Hh' : url_blind h).
    { rewrite Forall_forall in Hb. apply Hb. eapply nth_error_In; eauto. }
    rewrite view_with_url, Hh'.
    rewrite (run_ext (next req route hs fuel) (fun _ => True))
      with (nxt' := next req' route hs fuel); auto.
Qed.

Lemma routeHandler_blind (pathname : string) (st : State) :
  Forall (fun route => Forall url_blind (handlers route)) (routes app) ->
  routeHandler app req pathname st = routeHandler app req' pathname st.
Proof.
  intros Hb. unfold routeHandler. rewrite <- same_method.
  destruct (find_route (routes app) 0 (method req) pathname)
    as [[[pos route] g]|] eqn:Hf; [|reflexivity].
  apply next_blind.
  assert (Hin : forall rs p, find_route rs p (method req) pathname
                             = Some (pos, route, g) -> In route rs).
  { induction rs as [|r rs IHrs]; intros p H; [discriminate|]. cbn in H.
    destruct (String_match pathname (route_regex r));
      [destruct (String.eqb (method req) (route_method r));
       [inversion H; subst; now left|]|];
      right; eapply IHrs; eauto. }
  rewrite Forall_forall in Hb. eapply Hb, Hin, Hf.
Qed.

Lemma runMiddlewares_blind (pathname : string) (fuel : nat) (st : State) :
  app_url_blind app ->
  runMiddlewares app req pathname fuel st
  = runMiddlewares app req' pathname fuel st.
Proof.
  intros [Hm Hr]. revert st. induction fuel as [|fuel IH]; intros st;
    rewrite !runMiddlewares_unfold; cbv zeta;
    destruct (nth_error (middlewares app) (i st)) as [m|] eqn:Hnth;
    try (now apply routeHandler_blind); [reflexivity|].
  assert (Hm' : url_blind m).
  { rewrite Forall_forall in Hm. apply Hm. eapply nth_error_In; eauto. }
  rewrite view_with_url, Hm'.
  apply run_ext with (Inv := fun _ => True); auto.
Qed.

End Blind.

(** *** The events of a whole request *)

Section Whole.

Variable JSON_parse : string -> option Json.value.
Variable app : App.
Variable req : IncomingMessage.

Lemma parseBody_state :
  parseBody JSON_parse req (set_params [] initial)
  = {| res := Response.fresh; params := [];
       body := parsed_body JSON_parse req;
       i := 0; j := 0; trace := chunk_events req |}.
Proof.
  unfold parseBody, parsed_body, chunk_events.
  destruct (existsb (String.eqb (method req)) body_methods); [|reflexivity].
  assert (H : forall cs st,
             fold_left (fun s c => log (EvData c) s) cs st
             = {| res := res st; params := params st; body := body st;
                  i := i st; j := j st; trace := trace st ++ map EvData cs |}).
  { induction cs as [|c cs IH]; intros st; cbn [fold_left map].
    - rewrite app_nil_r. now destruct st.
    - rewrite IH. cbn. now rewrite <- app_assoc. }
  rewrite H. reflexivity.
Qed.

Variable P : event -> Prop.
Hypothesis P_effect : forall tag, P (EvEffect tag).
Hypothesis P_run : P EvRunMiddlewares.
Hypothesis P_middleware : forall k, P (EvMiddleware k).
Hypothesis P_server_error : P EvServerError.

(** After the chunks were read, a request only has events that the
    routing stage has, or events of the middleware stage. *)
Lemma handleRequest_events (p : string) :
  parsedUrl req = Pathname p ->
  (forall s, grows P s (snd (routeHandler app req (normalize p) s))) ->
  exists d, trace (snd (handleRequest JSON_parse app req))
            = chunk_events req ++ d
            /\ Forall P d.
Proof.
  intros Hp Hroute. unfold handleRequest. rewrite Hp, parseBody_state.
  pose proof (runMiddlewares_grows P P_effect app req (normalize p)
                (List.length (middlewares app))
                {| res := Response.fresh; params := [];
                   body := parsed_body JSON_parse req;
                   i := 0; j := 0; trace := chunk_events req |}
                Hroute P_run P_middleware) as (d & Hd & Pd).
  destruct (runMiddlewares _ _ _ _ _) as [[|e] st']; cbn [snd trace] in *.
  - now exists d.
  - exists (d ++ [EvServerError]). split.
    + unfold top_level_catch.
      destruct (Response.writeHead _ _ _ _); cbn; rewrite Hd;
        now rewrite app_assoc.
    + apply Forall_app. split; [exact Pd | now constructor].
Qed.

End Whole.

(** *** A middleware that does not call [next], after middleware that
    call it at most once *)

Lemma next_calls_none (p : prog) : next_calls p = 0 -> calls_next p = false.
Proof. induction p; cbn; auto; discriminate. Qed.

Lemma calls_next_none (p : prog) : calls_next p = false -> next_calls p = 0.
Proof. induction p; cbn; auto; discriminate. Qed.

Section Once.

Variable nxt : State -> result.
Variables pre post : State -> Prop.
Hypothesis pre_effect : forall s tag, pre s -> pre (log (EvEffect tag) s).
Hypothesis pre_res : forall s f, pre s -> pre (with_res f s).
Hypothesis post_effect : forall s tag, post s -> post (log (EvEffect tag) s).
Hypothesis post_res : forall s f, post s -> post (with_res f s).
Hypothesis pre_post : forall s, pre s -> post s.
Hypothesis nxt_post : forall s, pre s -> post (snd (nxt s)).

(** A body that calls its continuation at most once calls it where [pre]
    holds, and ends where [post] holds. *)
Lemma run_at_most_once (p : prog) (st : State) :
  next_calls p <= 1 -> pre st -> post (snd (run nxt p st)).
Proof.
  revert st. induction p as [|m|tag k IH|code k IH|data k IH|k IH];
    intros st Hn Hst; cbn [run snd next_calls] in *; auto.
  - apply IH; auto. unfold res_status. auto.
  - destruct (res_json_cases data st) as [(e & -> & _) | (r & -> & _)];
      cbn [snd]; auto.
  - pose proof (nxt_post st Hst) as H.
    destruct (nxt st) as [[|e] st']; cbn [snd] in *; auto.
    rewrite (run_without_next nxt (fun s => (Normal, s)))
      by (apply next_calls_none; lia).
    apply run_inv; auto.
Qed.

End Once.

Section Veto.

Variable app : App.
Variable req : IncomingMessage.
Variables (before after : list Handler) (blocker : Handler).
Hypothesis chain : middlewares app = before ++ blocker :: after.
Hypothesis before_once : forall m r, In m before -> next_calls (m r) <= 1.
Hypothesis blocker_stops : forall r, calls_next (blocker r) = false.

(** The position of the middleware that stops. *)
Variable K : nat.
Hypothesis K_position : K = List.length before.

Lemma chain_length : List.length (middlewares app) = S (K + List.length after).
Proof. rewrite chain, length_app, K_position. cbn. lia. Qed.

Lemma runMiddlewares_veto (pathname : string) (fuel : nat) (st : State) :
  i st <= K -> List.length (middlewares app) - i st <= fuel ->
  let st' := snd (runMiddlewares app req pathname fuel st) in
  i st' <= S K /\ grows (before_routing K) st st'.
Proof.
  pose proof chain_length as Hlen.
  revert st. induction fuel as [|fuel IH]; intros st Hi Hfuel; [lia|].
  cbv zeta. rewrite runMiddlewares_unfold. cbv zeta.
  set (st1 := log EvRunMiddlewares (set_i (S (i st)) st)).
  assert (H1 : grows (before_routing K) st (log (EvMiddleware (i st)) st1)).
  { exists [EvRunMiddlewares; EvMiddleware (i st)]. split.
    - cbn. now rewrite <- app_assoc.
    - repeat constructor. exact Hi. }
  destruct (Nat.eq_dec (i st) K) as [HK | HK].
  - (* the middleware that stops *)
    assert (Hnth : nth_error (middlewares app) (i st) = Some blocker).
    { rewrite chain, HK, K_position, nth_error_app2 by lia.
      now rewrite Nat.sub_diag. }
    rewrite Hnth.
    rewrite (run_without_next _ (fun s => (Normal, s)))
      by apply blocker_stops.
    split.
    + apply run_inv with (Inv := fun s => i s <= S K); cbn; auto. lia.
    + eapply grows_trans; [exact H1|].
      apply run_grows; [intros tag; exact I|].
      intros s. apply grows_refl.
  - (* a middleware before it *)
    destruct (nth_error (middlewares app) (i st)) as [m|] eqn:Hnth;
      [|apply nth_error_None in Hnth; lia].
    assert (Hm : In m before).
    { rewrite chain, nth_error_app1 in Hnth by lia.
      eapply nth_error_In; eauto. }
    apply (run_at_most_once (runMiddlewares app req pathname fuel)
             (fun s => i s = S (i st) /\ grows (before_routing K) st s)
             (fun s => i s <= S K /\ grows (before_routing K) st s)).
    + intros s tag [Hs Hg]. split; [exact Hs|].
      eapply grows_trans; [exact Hg | now apply grows_log].
    + intros s f [Hs Hg]. split; [exact Hs|].
      eapply grows_trans; [exact Hg | now apply grows_same].
    + intros s tag [Hs Hg]. split; [exact Hs|].
      eapply grows_trans; [exact Hg | now apply grows_log].
    + intros s f [Hs Hg]. split; [exact Hs|].
      eapply grows_trans; [exact Hg | now apply grows_same].
    + intros s [Hs Hg]. split; [lia | exact Hg].
    + intros s [Hs Hg].
      destruct (IH s) as [Hi' Hg']; [lia | lia |].
      split; [exact Hi' | eapply grows_trans; eauto].
    + apply before_once. exact Hm.
    + split; [reflexivity | exact H1].
Qed.

(** A request whose middleware at position [K] does not call [next], the
    ones before it calling it at most once, has no event past that
    middleware. *)
Lemma handleRequest_veto (JSON_parse : string -> option Json.value)
      (p : string) :
  parsedUrl req = Pathname p ->
  Forall (before_routing K)
         (trace (snd (handleRequest JSON_parse app req))).
Proof.
  intros Hp. unfold handleRequest. rewrite Hp, parseBody_state.
  assert (Hchunks : Forall (before_routing K) (chunk_events req)).
  { unfold chunk_events. destruct (existsb _ _); [|constructor].
    apply Forall_forall. intros e He.
    apply in_map_iff in He as (c & <- & _). exact I. }
  set (st0 := {| res := Response.fresh; params := [];
                 body := parsed_body JSON_parse req;
                 i := 0; j := 0; trace := chunk_events req |}).
  destruct (runMiddlewares_veto (normalize p)
              (List.length (middlewares app)) st0)
    as [_ (d & Hd & Pd)]; [cbn; lia | cbn; lia |].
  destruct (runMiddlewares _ _ _ _ _) as [[|e] st']; cbn [snd trace] in *.
  - rewrite Hd. apply Forall_app. auto.
  - unfold top_level_catch.
    destruct (Response.writeHead _ _ _ _); cbn; rewrite Hd;
      repeat (apply Forall_app; split); auto; repeat constructor.
Qed.

End Veto.

(** *** A handler that does not call [next], after handlers that call it
    at most once *)

Section HandlerVeto.

Variable app : App.
Variable req : IncomingMessage.
Variable route : nat.
Variables (before after : list Handler) (blocker : Handler).
Hypothesis before_once : forall m r, In m before -> next_calls (m r) <= 1.
Hypothesis blocker_stops : forall r, calls_next (blocker r) = false.

(** The position of the handler that stops. *)
Variable K : nat.
Hypothesis K_position : K = List.length before.

(** The handlers of the route. *)
Variable hs : list Handler.
Hypothesis hs_chain : hs = before ++ blocker :: after.

Lemma handlers_upto_other (e : event) :
  (forall r k, e <> EvHandler r k) -> handlers_upto K e.
Proof. intros H r k He. now destruct (H r k). Qed.

Lemma next_veto (fuel : nat) (st : State) :
  j st <= K -> List.length hs - j st <= fuel ->
  let st' := snd (next req route hs fuel st) in
  j st' <= S K /\ grows (handlers_upto K) st st'.
Proof.
  assert (Hlen : List.length hs = S (K + List.length after)).
  { rewrite hs_chain, length_app, K_position. cbn. lia. }
  revert st. induction fuel as [|fuel IH]; intros st Hj Hfuel; [lia|].
  cbv zeta. rewrite next_unfold. cbv zeta.
  set (st1 := log EvNext (set_j (S (j st)) st)).
  assert (H1 : grows (handlers_upto K) st (log (EvHandler route (j st)) st1)).
  { exists [EvNext; EvHandler route (j st)]. split.
    - cbn. now rewrite <- app_assoc.
    - repeat constructor.
      + apply handlers_upto_other. discriminate.
      + intros r k H. inversion H; subst. exact Hj. }
  assert (Hcatch : forall s,
             j s <= S K /\ grows (handlers_upto K) st s ->
             j (snd (res_json internal_server_error
                       (res_status 500 (log EvHandlerError s)))) <= S K
             /\ grows (handlers_upto K) st
                  (snd (res_json internal_server_error
                          (res_status 500 (log EvHandlerError s))))).
  { intros s [Hs Hg].
    destruct (res_json_frame internal_server_error
                (res_status 500 (log EvHandlerError s))) as (_ & Hj' & _).
    split; [rewrite Hj'; exact Hs|].
    eapply grows_trans; [exact Hg|].
    eapply grows_trans; [|apply grows_res_json].
    eapply grows_trans; [apply grows_log | now apply grows_same].
    apply handlers_upto_other. discriminate. }
  assert (Hend : forall r : result,
             (j (snd r) <= S K /\ grows (handlers_upto K) st (snd r)) ->
             let st' := snd (match r with
                             | (Normal, st2) => (Normal, st2)
                             | (Thrown _, st2) =>
                                 res_json internal_server_error
                                   (res_status 500 (log EvHandlerError st2))
                             end) in
             j st' <= S K /\ grows (handlers_upto K) st st').
  { intros [[|e] st2] H; cbn [snd] in *; [exact H | now apply Hcatch]. }
  destruct (Nat.eq_dec (j st) K) as [HK | HK].
  - (* the handler that stops *)
    assert (Hnth : nth_error hs (j st) = Some blocker).
    { rewrite hs_chain, HK, K_position, nth_error_app2 by lia.
      now rewrite Nat.sub_diag. }
    rewrite Hnth. apply Hend.
    rewrite (run_without_next _ (fun s => (Normal, s)))
      by apply blocker_stops.
    split.
    + apply run_inv with (Inv := fun s => j s <= S K); cbn; auto. lia.
    + eapply grows_trans; [exact H1|].
      apply run_grows; [|intros s; apply grows_refl].
      intros tag. apply handlers_upto_other. discriminate.
  - (* a handler before it *)
    destruct (nth_error hs (j st)) as [m|] eqn:Hnth;
      [|apply nth_error_None in Hnth; lia].
    assert (Hm : In m before).
    { rewrite hs_chain, nth_error_app1 in Hnth by lia.
      eapply nth_error_In; eauto. }
    apply Hend.
    apply (run_at_most_once (next req route hs fuel)
             (fun s => j s = S (j st) /\ grows (handlers_upto K) st s)
             (fun s => j s <= S K /\ grows (handlers_upto K) st s)).
    + intros s tag [Hs Hg]. split; [exact Hs|].
      eapply grows_trans; [exact Hg | apply grows_log].
      apply handlers_upto_other. discriminate.
    + intros s f [Hs Hg]. split; [exact Hs|].
      eapply grows_trans; [exact Hg | now apply grows_same].
    + intros s tag [Hs Hg]. split; [exact Hs|].
      eapply grows_trans; [exact Hg | apply grows_log].
      apply handlers_upto_other. discriminate.
    + intros s f [Hs Hg]. split; [exact Hs|].
      eapply grows_trans; [exact Hg | now apply grows_same].
    + intros s [Hs Hg]. split; [lia | exact Hg].
    + intros s [Hs Hg].
      destruct (IH s) as [Hj' Hg']; [lia | lia |].
      split; [exact Hj' | eapply grows_trans; eauto].
    + apply before_once. exact Hm.
    + split; [reflexivity | exact H1].
Qed.

End HandlerVeto.

(** When the matched route has a handler that does not call [next], the
    ones before it calling it at most once, the route handler invokes no
    handler past that one. *)
Lemma routeHandler_veto (app : App) (req : IncomingMessage)
      (pathname : string) (pos : nat) (route : Route) (g : groups)
      (before after : list Handler) (blocker : Handler) (st : State) :
  find_route (routes app) 0 (method req) pathname = Some (pos, route, g) ->
  handlers route = before ++ blocker :: after ->
  (forall m r, In m before -> next_calls (m r) <= 1) ->
  (forall r, calls_next (blocker r) = false) ->
  grows (handlers_upto (List.length before)) st
        (snd (routeHandler app req pathname st)).
Proof.
  intros Hfind Hhs Honce Hstops. unfold routeHandler. rewrite Hfind, Hhs.
  destruct (next_veto req pos before after blocker Honce Hstops
              (List.length before) eq_refl
              (before ++ blocker :: after) eq_refl
              (List.length (before ++ blocker :: after))
              (set_j 0 (set_params g (log EvRouteHandler st))))
    as [_ Hg]; [cbn; lia | cbn; lia |].
  eapply grows_trans; [|exact Hg].
  eapply grows_trans; [apply grows_log | now apply grows_same].
  intros r k H. discriminate H.
Qed.

(** *** After an error, when every body calls [next] at most once *)

Lemma settles_quiet (a : list event) :
  ~ In EvHandlerError a -> settles a.
Proof.
  induction a as [|e a IH]; cbn; [trivial|]. intros H.
  destruct e; try (apply IH; intros Hin; apply H; now right).
  destruct H. now left.
Qed.

Lemma settles_app_quiet (a b : list event) :
  ~ In EvHandlerError a -> settles b -> settles (a ++ b).
Proof.
  induction a as [|e a IH]; cbn; [trivial|]. intros H Hb.
  destruct e; try (apply IH; [intros Hin; apply H; now right | exact Hb]).
  destruct H. now left.
Qed.

Lemma settles_app_unwinding (a b : list event) :
  settles a -> Forall unwinding b -> settles (a ++ b).
Proof.
  induction a as [|e a IH]; cbn; intros Ha Hb.
  - induction Hb as [|x b Hx Hb IHb]; cbn; [trivial|].
    destruct x; try contradiction; auto.
  - destruct e; try (now apply IH). apply Forall_app. auto.
Qed.

Lemma settles_split (t1 t2 : list event) :
  settles (t1 ++ EvHandlerError :: t2) -> Forall unwinding t2.
Proof.
  induction t1 as [|e t1 IH]; cbn; [trivial|].
  destruct e; try exact IH.
  intros H. apply Forall_app in H as [_ H]. now inversion H.
Qed.

Lemma calm_settling (st st' : State) : calm st st' -> settling st st'.
Proof.
  intros (d & Hd & Hq). exists d. split; [exact Hd | now apply settles_quiet].
Qed.

Lemma calm_then (a b c : State) : calm a b -> settling b c -> settling a c.
Proof.
  intros (d1 & H1 & Q1) (d2 & H2 & S2). exists (d1 ++ d2). split.
  - now rewrite H2, H1, app_assoc.
  - now apply settles_app_quiet.
Qed.

Lemma settling_then (a b c : State) :
  settling a b -> grows unwinding b c -> settling a c.
Proof.
  intros (d1 & H1 & S1) (d2 & H2 & U2). exists (d1 ++ d2). split.
  - now rewrite H2, H1, app_assoc.
  - now apply settles_app_unwinding.
Qed.

Lemma calm_log (a b : State) (e : event) :
  e <> EvHandlerError -> calm a b -> calm a (log e b).
Proof.
  intros He (d & Hd & Hq). exists (d ++ [e]). split.
  - cbn. now rewrite Hd, app_assoc.
  - intros Hin. apply in_app_or in Hin as [Hin | [Hin | []]]; auto.
Qed.

Lemma calm_same (a b c : State) : trace c = trace b -> calm a b -> calm a c.
Proof. intros H (d & Hd & Hq). exists d. split; [congruence | exact Hq]. Qed.

Lemma calm_refl (a : State) : calm a a.
Proof. exists []. split; [now rewrite app_nil_r | intros []]. Qed.

Lemma settling_log (a b : State) (e : event) :
  unwinding e -> settling a b -> settling a (log e b).
Proof.
  intros He H. eapply settling_then; [exact H|]. now apply grows_log.
Qed.

Lemma settling_same (a b c : State) :
  trace c = trace b -> settling a b -> settling a c.
Proof. intros H (d & Hd & Hs). exists d. split; [congruence | exact Hs]. Qed.

(** A body that calls a settling continuation at most once, from a calm
    state, settles. *)
Lemma run_settling (nxt : State -> result) (p : prog) (st0 st : State) :
  next_calls p <= 1 ->
  (forall s, settling s (snd (nxt s))) ->
  calm st0 st -> settling st0 (snd (run nxt p st)).
Proof.
  intros Hp Hnxt Hst.
  apply (run_at_most_once nxt (calm st0) (settling st0)).
  - intros s tag Hs. apply calm_log; [discriminate | exact Hs].
  - intros s f Hs. eapply calm_same; [|exact Hs]. reflexivity.
  - intros s tag Hs. apply settling_log; [exact I | exact Hs].
  - intros s f Hs. eapply settling_same; [|exact Hs]. reflexivity.
  - apply calm_settling.
  - intros s Hs. eapply calm_then; [exact Hs | apply Hnxt].
  - exact Hp.
  - exact Hst.
Qed.

Section Settling.

Variable app : App.
Variable req : IncomingMessage.

Lemma next_settling (route : nat) (hs : list Handler) (fuel : nat)
      (st : State) :
  Forall at_most_once hs ->
  settling st (snd (next req route hs fuel st)).
Proof.
  intros Hhs. revert st. induction fuel as [|fuel IH]; intros st;
    rewrite next_unfold; cbv zeta;
    assert (H0 : calm st (log EvNext (set_j (S (j st)) st)))
      by (apply calm_log; [discriminate|];
          eapply calm_same; [|apply calm_refl]; reflexivity).
  - apply calm_settling. destruct (nth_error hs (j st)); exact H0.
  - destruct (nth_error hs (j st)) as [h|] eqn:Hh;
      [|now apply calm_settling].
    assert (Hh' : at_most_once h).
    { rewrite Forall_forall in Hhs. apply Hhs. eapply nth_error_In; eauto. }
    set (st1 := log EvNext (set_j (S (j st)) st)) in *.
    pose proof (run_settling (next req route hs fuel) (h (view req st1))
                  st (log (EvHandler route (j st)) st1) (Hh' _) IH
                  ltac:(apply calm_log; [discriminate | exact H0])) as Hrun.
    destruct (run _ _ (log (EvHandler route (j st)) st1)) as [[|e] st2];
      cbn [snd] in *; [exact Hrun|].
    eapply settling_same;
      [|apply (settling_log st st2 EvHandlerError I Hrun)].
    now destruct (res_json_frame internal_server_error
                    (res_status 500 (log EvHandlerError st2)))
      as (_ & _ & -> & _).
Qed.

Variable pathname : string.

Lemma routeHandler_settling (st : State) :
  Forall (fun route => Forall at_most_once (handlers route)) (routes app) ->
  settling st (snd (routeHandler app req pathname st)).
Proof.
  intros Hroutes. unfold routeHandler.
  assert (H0 : calm st (log EvRouteHandler st))
    by (apply calm_log; [discriminate | apply calm_refl]).
  destruct (find_route (routes app) 0 (method req) pathname)
    as [[[pos route] g]|] eqn:Hf.
  - apply (calm_then st (set_j 0 (set_params g (log EvRouteHandler st))));
      [apply (calm_same st (log EvRouteHandler st));
       [reflexivity | exact H0]|].
    apply next_settling.
    assert (Hin : forall rs p, find_route rs p (method req) pathname
                               = Some (pos, route, g) -> In route rs).
    { induction rs as [|r rs IHrs]; intros p H; [discriminate|]. cbn in H.
      destruct (String_match pathname (route_regex r));
        [destruct (String.eqb (method req) (route_method r));
         [inversion H; subst; now left|]|];
        right; eapply IHrs; eauto. }
    rewrite Forall_forall in Hroutes. eapply Hroutes, Hin, Hf.
  - apply calm_settling.
    eapply calm_same;
      [|apply (calm_log st (log EvRouteHandler st) EvNotFound
                 ltac:(discriminate) H0)].
    now destruct (res_json_frame route_not_found
                    (res_status 404 (log EvNotFound (log EvRouteHandler st))))
      as (_ & _ & -> & _).
Qed.

Lemma runMiddlewares_settling (fuel : nat) (st : State) :
  app_at_most_once app ->
  settling st (snd (runMiddlewares app req pathname fuel st)).
Proof.
  intros [Hmw Hroutes]. revert st. induction fuel as [|fuel IH]; intros st;
    rewrite runMiddlewares_unfold; cbv zeta;
    assert (H0 : calm st (log EvRunMiddlewares (set_i (S (i st)) st)))
      by (apply calm_log; [discriminate|];
          eapply calm_same; [|apply calm_refl]; reflexivity);
    destruct (nth_error (middlewares app) (i st)) as [m|] eqn:Hm;
    try (eapply calm_then; [exact H0 | now apply routeHandler_settling]).
  - now apply calm_settling.
  - assert (Hm' : at_most_once m).
    { rewrite Forall_forall in Hmw. apply Hmw. eapply nth_error_In; eauto. }
    apply run_settling; [apply Hm' | exact IH |].
    apply calm_log; [discriminate | exact H0].
Qed.

End Settling.

(** In a request whose middleware and handlers call [next] at most once,
    only unwinding events follow a handler error. *)
Lemma handleRequest_settles (JSON_parse : string -> option Json.value)
      (app : App) (req : IncomingMessage) :
  app_at_most_once app ->
  settles (trace (snd (handleRequest JSON_parse app req))).
Proof.
  intros Happ. unfold handleRequest.
  destruct (parsedUrl req) as [p|message].
  - rewrite parseBody_state.
    set (st0 := {| res := Response.fresh; params := [];
                   body := parsed_body JSON_parse req;
                   i := 0; j := 0; trace := chunk_events req |}).
    assert (Hchunks : ~ In EvHandlerError (chunk_events req)).
    { unfold chunk_events. destruct (existsb _ _); [|intros []].
      intros Hin. apply in_map_iff in Hin as (c & Hc & _). discriminate Hc. }
    destruct (runMiddlewares_settling app req (normalize p)
                (List.length (middlewares app)) st0 Happ) as (d & Hd & Sd).
    destruct (runMiddlewares _ _ _ _ _) as [[|e] st']; cbn [snd trace] in *.
    + rewrite Hd. now apply settles_app_quiet.
    + unfold top_level_catch.
      destruct (Response.writeHead _ _ _ _); cbn; rewrite Hd;
        rewrite <- app_assoc; apply settles_app_quiet; auto;
        apply settles_app_unwinding; auto; repeat constructor.
  - unfold top_level_catch.
    destruct (Response.writeHead _ _ _ _); cbn; exact I.
Qed.

End EngineFacts.

(* ================================================================= *)
(** ** The properties of the specification *)

Import Str StrFacts PathMatcher PathMatcherFacts Pattern Engine Monitor
       EngineFacts.
Open Scope list_scope.

(** *** The model on small inputs *)

Example normalize_examples :
  normalize "" = "/" /\ normalize "///" = "/" /\ normalize "/a//" = "/a"
  /\ normalize "/a//b/" = "/a//b".
Proof. repeat split. Qed.

Example regex_source_example :
  replace_params (escape_slashes "/users/:id/posts/:postId")
  = ("\/users\/(?<id>[^\/]+)\/posts\/(?<postId>[^\/]+)", ["id"; "postId"]).
Proof. reflexivity. Qed.

Example constructor_throws_examples :
  pathToRegex "/:a/:a" = SyntaxError /\ pathToRegex "/:1a" = SyntaxError.
Proof. split; reflexivity. Qed.

Example out_of_model_example : pathToRegex "/a+" = OutOfModel.
Proof. reflexivity. Qed.

Example greedy_capture_example :
  String_match "/xyz" {| atoms := [AChar "/"; ANamed "a"; ANamed "b"] |}
  = Some [("a", "xy"); ("b", "z")].
Proof. reflexivity. Qed.

Example invalid_url_example :
  handleRequest Examples.parse_a_is_1 Examples.overlapping
                {| method := "GET"; url := "//"; parsedUrl := InvalidURL "Invalid URL";
                   chunks := [] |}
  = (Resolved,
     {| res := {| Response.statusCode := 500; Response.headers := [];
                  Response.sent :=
                    Some (500%Z, [("Content-Type", "application/json")],
                          Some (server_error_text "Invalid URL")) |};
        params := []; body := Json.Null; i := 0; j := 0;
        trace := [EvServerError] |}).
Proof. reflexivity. Qed.



(** C10, as stated, fails: in [/a:id] the segment [a:id] is not of the
    form [:name], yet its colon and name are compiled to a capture, so the
    path [/axyz] matches with [id = xyz], where a comparison segment by
    segment finds no match; and the dot of [/a.b] matches any character,
    so [/axb] matches. *)
Lemma colon_inside_segment_is_a_capture :
  pathToRegex "/a:id"
  = Ok {| regex := {| atoms := [AChar "/"; AChar "a"; ANamed "id"] |};
          keys := ["id"] |}
  /\ String_match "/axyz" {| atoms := [AChar "/"; AChar "a"; ANamed "id"] |}
     = Some [("id", "xyz")]
  /\ segment_match "/a:id" "/axyz" = None
  /\ pathToRegex "/a.b"
     = Ok {| regex := {| atoms := [AChar "/"; AChar "a"; AAny; AChar "b"] |};
             keys := [] |}
  /\ String_match "/axb" {| atoms := [AChar "/"; AChar "a"; AAny; AChar "b"] |}
     = Some []
  /\ segment_match "/a.b" "/axb" = None.
Proof. repeat split; vm_compute; reflexivity. Qed.

(** C10, amended.  For a pattern without regular-expression syntax
    characters other than the dot, compilation reads the normalized
    pattern from left to right: every colon followed by word characters,
    at the start of a segment or inside one, is a named capture whose name
    is the longest such run; every other character is matched verbatim,
    the dot matching any character; the constructor throws when a name
    starts with a digit or occurs twice.  A path matches exactly when it
    consists of the verbatim characters and, at each capture, of a
    non-empty run without slash. *)
Theorem compile_reads_left_to_right (pattern : string) :
  forallb supported pattern = true ->
  let l := tokenize (normalize pattern) in
  pathToRegex pattern
  = (if List.forallb valid_group_name (group_names l)
        && distinct (group_names l)
     then Ok {| regex := {| atoms := l |}; keys := group_names l |}
     else SyntaxError)
  /\ forall path,
       (forall g, String_match path {| atoms := l |} = Some g ->
                  matches l path g)
       /\ (forall g, matches l path g ->
                     exists g', String_match path {| atoms := l |} = Some g').
Proof.
  intros Hsup l. split; [now apply pathToRegex_tokenize|].
  intros path. split; intros g H.
  - now apply exec_atoms_sound.
  - now apply exec_atoms_complete with (g := g).
Qed.

Lemma compile_reads_left_to_right_witness :
  pathToRegex "/a:id/:x"
  = Ok {| regex := {| atoms := [AChar "/"; AChar "a"; ANamed "id";
                                AChar "/"; ANamed "x"] |};
          keys := ["id"; "x"] |}
  /\ forall path,
       (forall g, String_match path {| atoms := tokenize "/a:id/:x" |} = Some g ->
                  matches (tokenize "/a:id/:x") path g)
       /\ (forall g, matches (tokenize "/a:id/:x") path g ->
                     exists g', String_match path {| atoms := tokenize "/a:id/:x" |}
                                = Some g').
Proof.
  exact (compile_reads_left_to_right "/a:id/:x" eq_refl).
Defined.

(** C2. Routes are kept in registration order ([register] appends), and
    dispatch takes the first entry whose method is the request's and whose
    matcher matches the normalized path, whatever entries follow it, even
    if they match too: the lookup returns that entry with the groups of
    its match, and the route handler runs the handler chain of that entry
    and of no other. *)
Theorem first_registered_route_wins
        (app : App) (req : IncomingMessage) (pathname : string)
        (before after : list Route) (route : Route) (g : groups) (st : State) :
  routes app = before ++ route :: after ->
  (forall r, In r before -> route_matches (method req) pathname r = false) ->
  String.eqb (method req) (route_method route) = true ->
  String_match pathname (route_regex route) = Some g ->
  find_route (routes app) 0 (method req) pathname
  = Some (List.length before, route, g)
  /\ routeHandler app req pathname st
     = next req (List.length before) (handlers route)
            (List.length (handlers route))
            (set_j 0 (set_params g (log EvRouteHandler st)))
  /\ forall m path hs app',
       register app m path hs = Ok app' ->
       exists r, routes app' = routes app ++ [r]
                 /\ route_method r = m /\ handlers r = hs.
Proof.
  intros Hroutes Hbefore Hm Hg.
  assert (Hfind : find_route (routes app) 0 (method req) pathname
                  = Some (List.length before, route, g)).
  { rewrite Hroutes.
    apply (find_route_first before after route 0 _ _ g); assumption. }
  split; [exact Hfind|]. split.
  - unfold routeHandler. now rewrite Hfind.
  - intros m path hs app' H.
    destruct (register_appends _ _ _ _ _ H) as (pr & _ & Hr & _).
    eexists. split; [exact Hr|]. split; reflexivity.
Qed.

Lemma first_registered_route_wins_witness :
  routes Examples.overlapping = [Examples.users_id; Examples.users_me]
  /\ route_matches "GET" "/users/me" Examples.users_me = true
  /\ find_route (routes Examples.overlapping) 0 "GET" "/users/me"
     = Some (0, Examples.users_id, [("id", "me")])
  /\ trace (snd (routeHandler Examples.overlapping
                   (Examples.request "GET" "/users/me" []) "/users/me" initial))
     = [EvRouteHandler; EvNext; EvHandler 0 0; EvEffect "first"].
Proof.
  split; [reflexivity|]. split; [reflexivity|].
  destruct (first_registered_route_wins Examples.overlapping
              (Examples.request "GET" "/users/me" []) "/users/me"
              [] [Examples.users_me] Examples.users_id [("id", "me")] initial
              eq_refl (fun r (H : In r []) => match H with end)
              eq_refl eq_refl) as (Hfind & Hrun & _).
  split; [exact Hfind|]. rewrite Hrun. reflexivity.
Defined.

(** C4, as stated, fails: on a route with three handlers whose first one
    calls [next] twice, the second handler does not call [next], and the
    third handler runs all the same, at the second call of the first. *)
Lemma a_later_handler_runs_after_one_that_stops :
  map handlers (routes Examples.skipping)
  = [[Examples.next_twice; Examples.stop "second"; Examples.stop "third"]]
  /\ (forall r, calls_next (Examples.stop "second" r) = false)
  /\ trace (snd (handleRequest Examples.parse_a_is_1 Examples.skipping
                   (Examples.request "GET" "/x" [])))
     = [EvRunMiddlewares; EvRouteHandler; EvNext; EvHandler 0 0;
        EvNext; EvHandler 0 1; EvEffect "second";
        EvNext; EvHandler 0 2; EvEffect "third"].
Proof. repeat split. Qed.

(** C4, amended.  After a handler of the matched route was invoked, no
    handler is invoked as long as the route's [next] is not called again,
    by that handler or by one that was invoked before it.  So when a
    handler of the matched route does not call [next] and each handler
    before it calls [next] at most once, no handler after it runs in the
    request; in particular, on a route of two handlers whose first does
    not call [next], the second never runs. *)
Theorem handler_chain_short_circuit
        (JSON_parse : string -> option Json.value) (app : App)
        (req : IncomingMessage) (t1 t2 : list event) (route j : nat)
        (p : string) (pos : nat) (matched : Route) (g : groups)
        (before after : list Handler) (h : Handler) :
  (trace (snd (handleRequest JSON_parse app req))
   = t1 ++ EvHandler route j :: t2 ->
   ~ In EvNext t2 ->
   forall r k, ~ In (EvHandler r k) t2)
  /\ (parsedUrl req = Pathname p ->
      find_route (routes app) 0 (method req) (normalize p)
      = Some (pos, matched, g) ->
      handlers matched = before ++ h :: after ->
      (forall m r, In m before -> next_calls (m r) <= 1) ->
      (forall r, calls_next (h r) = false) ->
      forall r k, In (EvHandler r k)
                     (trace (snd (handleRequest JSON_parse app req))) ->
                  k <= List.length before).
Proof.
  split.
  - intros Htrace Hquiet r k Hin.
    pose proof (handleRequest_well_formed JSON_parse app req) as Hwf.
    rewrite Htrace in Hwf.
    pose proof (no_handler_without_next t1 t2 _ Hwf
                  ltac:(discriminate) Hquiet _ Hin) as H.
    discriminate H.
  - intros Hp Hfind Hhs Honce Hh r k Hin.
    destruct (handleRequest_events JSON_parse app req
                (handlers_upto (List.length before))
                ltac:(intros tag r0 k0 H; discriminate H)
                ltac:(intros r0 k0 H; discriminate H)
                ltac:(intros k1 r0 k0 H; discriminate H)
                ltac:(intros r0 k0 H; discriminate H)
                p Hp
                (fun s => routeHandler_veto app req (normalize p) pos
                            matched g before after h s Hfind Hhs Honce Hh))
      as (d & Hd & Pd).
    rewrite Hd in Hin. apply in_app_or in Hin as [Hin | Hin].
    + unfold chunk_events in Hin.
      destruct (existsb _ _); [|destruct Hin].
      apply in_map_iff in Hin as (c & Hc & _). discriminate Hc.
    + rewrite Forall_forall in Pd. exact (Pd _ Hin r k eq_refl).
Qed.

Lemma handler_chain_short_circuit_witness :
  (forall r k, ~ In (EvHandler r k) [EvEffect "first"])
  /\ (forall r k,
        In (EvHandler r k)
           (trace (snd (handleRequest Examples.parse_a_is_1
                          Examples.two_handlers
                          (Examples.request "GET" "/x" [])))) ->
        k <= 0).
Proof.
  destruct (handler_chain_short_circuit Examples.parse_a_is_1
              Examples.two_handlers (Examples.request "GET" "/x" [])
              [EvRunMiddlewares; EvRouteHandler; EvNext] [EvEffect "first"]
              0 0 "/x" 0
              {| route_method := "GET";
                 route_regex := {| atoms := [AChar "/"; AChar "x"] |};
                 handlers := [Examples.stop "first"; Examples.stop "second"] |}
              [] [] [Examples.stop "second"] (Examples.stop "first"))
    as [H1 H2].
  split.
  - apply H1; [reflexivity|]. intros [H | []]; discriminate H.
  - apply H2; try reflexivity. intros m r [].
Defined.

(** C5, as stated, fails: on a route with three handlers whose first one
    calls [next] twice, the second handler throws, the error is caught and
    the 500 response is written, and then the third handler runs, at the
    second call of the first. *)
Lemma a_later_handler_runs_after_an_error :
  map handlers (routes Examples.resuming)
  = [[Examples.next_twice; Examples.fail "boom"; Examples.stop "third"]]
  /\ trace (snd (handleRequest Examples.parse_a_is_1 Examples.resuming
                   (Examples.request "GET" "/x" [])))
     = [EvRunMiddlewares; EvRouteHandler; EvNext; EvHandler 0 0;
        EvNext; EvHandler 0 1; EvHandlerError;
        EvNext; EvHandler 0 2; EvEffect "third"].
Proof. repeat split. Qed.

(** C5, amended.  When a handler of the matched route throws and the
    response was not sent yet, the call of [next] that invoked it catches
    the error and returns normally, the response is status 500 with body
    [{"error":"Internal Server Error"}], sent as JSON, and the catch
    invokes nothing; after the catch no handler is invoked as long as the
    route's [next] is not called again by a handler that was invoked
    before.  So when every middleware and handler calls [next] at most
    once, no handler runs after the error: only bodies that return, and
    catches. *)
Theorem handler_error_is_contained
        (JSON_parse : string -> option Json.value) (app : App)
        (req : IncomingMessage) (route : nat) (hs : list Handler)
        (fuel : nat) (st st2 : State) (h : Handler) (e : string)
        (t1 t2 : list event) :
  (nth_error hs (j st) = Some h ->
   run (next req route hs fuel)
       (h (view req (log EvNext (set_j (S (j st)) st))))
       (log (EvHandler route (j st)) (log EvNext (set_j (S (j st)) st)))
   = (Thrown e, st2) ->
   Response.headersSent (res st2) = false ->
   exists st3,
     next req route hs (S fuel) st = (Normal, st3)
     /\ Response.delivered (res st3) = Some (500%Z, internal_server_error_text)
     /\ Response.content_type (res st3) = Some "application/json"
     /\ trace st3 = trace st2 ++ [EvHandlerError])
  /\ (trace (snd (handleRequest JSON_parse app req))
      = t1 ++ EvHandlerError :: t2 ->
      (~ In EvNext t2 -> forall r k, ~ In (EvHandler r k) t2)
      /\ (app_at_most_once app ->
          ~ In EvNext t2 /\ forall r k, ~ In (EvHandler r k) t2)).
Proof.
  split.
  - intros Hh Hrun Hunsent. rewrite next_unfold. cbv zeta. rewrite Hh, Hrun.
    destruct (status_json_unsent 500 internal_server_error
                (log EvHandlerError st2) Hunsent)
      as (st3 & H3 & Hd & Hc & Ht & _).
    exists st3. rewrite H3. repeat split; auto.
  - intros Htrace. split.
    + intros Hquiet r k Hin.
      pose proof (handleRequest_well_formed JSON_parse app req) as Hwf.
      rewrite Htrace in Hwf.
      pose proof (no_handler_without_next t1 t2 _ Hwf
                    ltac:(discriminate) Hquiet _ Hin) as H.
      discriminate H.
    + intros Happ.
      pose proof (handleRequest_settles JSON_parse app req Happ) as H.
      rewrite Htrace in H. apply settles_split in H.
      rewrite Forall_forall in H.
      split; [|intros r k]; intros Hin; exact (H _ Hin).
Qed.

Lemma handler_error_is_contained_witness :
  (exists st3,
     next (Examples.request "GET" "/x" []) 0 [Examples.fail "boom"] 1 initial
     = (Normal, st3)
     /\ Response.delivered (res st3) = Some (500%Z, internal_server_error_text)
     /\ Response.content_type (res st3) = Some "application/json"
     /\ trace st3 = [EvNext; EvHandler 0 0] ++ [EvHandlerError])
  /\ trace (snd (handleRequest Examples.parse_a_is_1 Examples.failing_handler
                   (Examples.request "GET" "/x" [])))
     = [EvRunMiddlewares; EvRouteHandler; EvNext; EvHandler 0 0]
         ++ EvHandlerError :: []
  /\ (forall r k, ~ In (EvHandler r k) [])
  /\ ~ In EvNext [].
Proof.
  destruct (handler_error_is_contained Examples.parse_a_is_1
              Examples.failing_handler (Examples.request "GET" "/x" [])
              0 [Examples.fail "boom"] 0 initial
              (log (EvHandler 0 0) (log EvNext (set_j 1 initial)))
              (Examples.fail "boom") "boom"
              [EvRunMiddlewares; EvRouteHandler; EvNext; EvHandler 0 0] [])
    as [H1 H2].
  split; [exact (H1 eq_refl eq_refl eq_refl)|].
  split; [reflexivity|].
  destruct (H2 eq_refl) as [H3 H4].
  split; [apply H3; intros []|].
  apply H4. split; [constructor | repeat constructor].
Defined.

(** C6. [runMiddlewares] has no catch of its own: when the middleware
    chain ends with an exception and the response was not sent yet, the
    exception reaches the catch of [handleRequest], which answers 500 with
    body [{"error":"Server error","message":<message>}], sent as JSON, and
    the promise resolves.  The per-handler catch never lets an exception
    out while the response is not sent, so such an exception was thrown by
    a middleware and not by a routed handler. *)
Theorem middleware_error_reaches_top_level
        (JSON_parse : string -> option Json.value) (app : App)
        (req : IncomingMessage) (p message : string) (st' : State) :
  parsedUrl req = Pathname p ->
  runMiddlewares app req (normalize p) (List.length (middlewares app))
                 (parseBody JSON_parse req (set_params [] initial))
  = (Thrown message, st') ->
  Response.headersSent (res st') = false ->
  (exists st'',
     handleRequest JSON_parse app req = (Resolved, st'')
     /\ Response.delivered (res st'')
        = Some (500%Z, server_error_text message)
     /\ Response.content_type (res st'') = Some "application/json"
     /\ trace st'' = trace st' ++ [EvServerError])
  /\ forall route hs fuel st e s',
       next req route hs fuel st = (Thrown e, s') ->
       Response.headersSent (res s') = true.
Proof.
  intros Hp Hrun Hunsent. split.
  - unfold handleRequest. rewrite Hp, Hrun. unfold top_level_catch.
    unfold Response.writeHead.
    cbn [log res]. rewrite Hunsent.
    eexists. split; [reflexivity|].
    unfold Response.delivered, Response.content_type. cbn.
    repeat split.
  - intros route hs fuel st e s'. apply next_throws_sent.
Qed.

Lemma middleware_error_reaches_top_level_witness :
  (exists st'',
     handleRequest Examples.parse_a_is_1 Examples.failing_middleware
                   (Examples.request "GET" "/x" []) = (Resolved, st'')
     /\ Response.delivered (res st'')
        = Some (500%Z, server_error_text "denied")
     /\ Response.content_type (res st'') = Some "application/json"
     /\ trace st'' = [EvRunMiddlewares; EvMiddleware 0] ++ [EvServerError])
  /\ Response.headersSent
       (res (snd (next (Examples.request "GET" "/x" []) 0
                       [Examples.fail "boom"] 1 Examples.answered))) = true.
Proof.
  destruct (middleware_error_reaches_top_level Examples.parse_a_is_1
              Examples.failing_middleware (Examples.request "GET" "/x" [])
              "/x" "denied"
              {| res := Response.fresh; params := []; body := Json.Obj [];
                 i := 1; j := 0;
                 trace := [EvRunMiddlewares; EvMiddleware 0] |}
              eq_refl eq_refl eq_refl) as [H1 H2].
  split; [exact H1|].
  exact (H2 0 [Examples.fail "boom"] 1 Examples.answered
            Response.ERR_HTTP_HEADERS_SENT_set _ eq_refl).
Defined.

(** C7. When the method is exactly POST, PUT or PATCH, [handleRequest]
    reads all the chunks and parses their concatenation before it calls
    [runMiddlewares]: the chain starts in a state where [req.body] is the
    parsed value, or the empty object when parsing throws, and [req.body]
    is still that at the end; the events of the chunks come first and no
    chunk is read later.  A parse failure is not surfaced: the request is
    handled as if its body were the empty object.  For any other method no
    chunk is read and [req.body] is the empty object. *)
Theorem body_is_parsed_before_the_chain
        (JSON_parse : string -> option Json.value) (app : App)
        (req : IncomingMessage) (p : string) :
  parsedUrl req = Pathname p ->
  let bearing := existsb (String.eqb (method req)) ["POST"; "PUT"; "PATCH"] in
  let text := fold_left append (chunks req) "" in
  let value := if bearing
               then match JSON_parse text with
                    | Some v => v
                    | None => Json.empty_object
                    end
               else Json.empty_object in
  let read := if bearing then map EvData (chunks req) else [] in
  handleRequest JSON_parse app req
  = match runMiddlewares app req (normalize p)
                         (List.length (middlewares app))
                         {| res := Response.fresh; params := [];
                            body := value; i := 0; j := 0; trace := read |}
    with
    | (Normal, st') => (Resolved, st')
    | (Thrown message, st') => top_level_catch message st'
    end
  /\ body (snd (handleRequest JSON_parse app req)) = value
  /\ (exists d, trace (snd (handleRequest JSON_parse app req)) = read ++ d
                /\ Forall (fun e => data_event e = false) d)
  /\ (JSON_parse text = None ->
      handleRequest JSON_parse app req
      = handleRequest (fun _ => Some Json.empty_object) app req).
Proof.
  intros Hp bearing text value read.
  assert (Hstart : parseBody JSON_parse req (set_params [] initial)
                   = {| res := Response.fresh; params := []; body := value;
                        i := 0; j := 0; trace := read |})
    by apply parseBody_state.
  split; [unfold handleRequest; now rewrite Hp, Hstart|]. split; [|split].
  - unfold handleRequest. rewrite Hp, Hstart.
    pose proof (runMiddlewares_body app req (normalize p)
                  (List.length (middlewares app))
                  {| res := Response.fresh; params := []; body := value;
                     i := 0; j := 0; trace := read |}) as Hb.
    destruct (runMiddlewares _ _ _ _ _) as [[|m] st']; cbn [snd body] in *;
      [exact Hb|].
    unfold top_level_catch. destruct (Response.writeHead _ _ _ _); exact Hb.
  - apply (handleRequest_events JSON_parse app req
             (fun e => data_event e = false)) with (p := p); auto.
    intros s. apply routeHandler_grows; auto.
  - intros Hnone. unfold handleRequest. rewrite Hp.
    replace (parseBody (fun _ => Some Json.empty_object) req
                       (set_params [] initial))
      with (parseBody JSON_parse req (set_params [] initial)); [reflexivity|].
    unfold parseBody. fold text. rewrite Hnone.
    now destruct (existsb (String.eqb (method req)) body_methods).
Qed.

Lemma body_is_parsed_before_the_chain_witness :
  body (snd (handleRequest Examples.parse_a_is_1 createApp
               (Examples.request "POST" "/x" ["{"; Json.quote "a"; ":1}"])))
  = Json.Obj [("a", Json.Num 1)]
  /\ body (snd (handleRequest Examples.parse_a_is_1 createApp
                  (Examples.request "POST" "/x" ["{"; "a"])))
     = Json.empty_object
  /\ handleRequest Examples.parse_a_is_1 createApp
                   (Examples.request "POST" "/x" ["{"; "a"])
     = handleRequest (fun _ => Some Json.empty_object) createApp
                     (Examples.request "POST" "/x" ["{"; "a"])
  /\ trace (snd (handleRequest Examples.parse_a_is_1 createApp
                   (Examples.request "GET" "/x" ["{"; "a"])))
     = [EvRunMiddlewares; EvRouteHandler; EvNotFound].
Proof.
  split; [|split; [|split]].
  - exact (proj1 (proj2 (body_is_parsed_before_the_chain
                           Examples.parse_a_is_1 createApp
                           (Examples.request "POST" "/x"
                              ["{"; Json.quote "a"; ":1}"]) "/x" eq_refl))).
  - exact (proj1 (proj2 (body_is_parsed_before_the_chain
                           Examples.parse_a_is_1 createApp
                           (Examples.request "POST" "/x" ["{"; "a"])
                           "/x" eq_refl))).
  - exact (proj2 (proj2 (proj2 (body_is_parsed_before_the_chain
                                  Examples.parse_a_is_1 createApp
                                  (Examples.request "POST" "/x" ["{"; "a"])
                                  "/x" eq_refl))) eq_refl).
  - reflexivity.
Defined.

(** C8. Normalization strips all the trailing slashes of a path: a path
    of slashes only (or empty) becomes [/], and any other path is its
    normalized path followed by slashes only, the normalized path ending
    with a character that is not a slash (it is the path up to its last
    character other than a slash).  So a request for a path with trailing
    slashes is routed as the request for the path without them: the
    lookup gives the same route and the same parameters, and when no
    middleware or handler looks at the request target the two requests
    are handled identically. *)
Theorem trailing_slash_equivalence
        (JSON_parse : string -> option Json.value) (app : App)
        (req req' : IncomingMessage) (p t : string) :
  parsedUrl req = Pathname (p ++ t)%string ->
  parsedUrl req' = Pathname p ->
  forallb is_slash t = true ->
  method req = method req' ->
  chunks req = chunks req' ->
  normalize (p ++ t)%string = normalize p
  /\ (forallb is_slash p = true -> normalize p = "/")
  /\ (forallb is_slash p = false ->
      exists b c s, p = ((b ++ String c "") ++ s)%string
                    /\ is_slash c = false
                    /\ forallb is_slash s = true
                    /\ normalize p = (b ++ String c "")%string
                    /\ normalize (p ++ t)%string = (b ++ String c "")%string)
  /\ (normalize p = "/"
      \/ exists b c, normalize p = (b ++ String c "")%string
                     /\ is_slash c = false)
  /\ find_route (routes app) 0 (method req) (normalize (p ++ t)%string)
     = find_route (routes app) 0 (method req') (normalize p)
  /\ (app_url_blind app ->
      handleRequest JSON_parse app req = handleRequest JSON_parse app req').
Proof.
  intros Hp Hp' Ht Hm Hc.
  pose proof (normalize_append_slashes p t Ht) as Hn.
  split; [exact Hn|]. split; [apply normalize_all_slashes|].
  split; [|split; [|split]].
  - intros Hns.
    destruct (trailing_slashes_split p) as [Hs | (b & c & s & Hsplit & Hcs & Hs)];
      [rewrite Hs in Hns; discriminate|].
    assert (Hnp : normalize p = (b ++ String c "")%string)
      by (rewrite Hsplit;
          now rewrite normalize_append_slashes, normalize_nonslash_end).
    exists b, c, s. repeat split; auto. now rewrite Hn.
  - destruct (trailing_slashes_split p) as [Hs | (b & c & s & -> & Hcs & Hs)].
    + left. now apply normalize_all_slashes.
    + right. exists b, c.
      now rewrite normalize_append_slashes, normalize_nonslash_end.
  - now rewrite Hn, Hm.
  - intros Hblind. unfold handleRequest. rewrite Hp, Hp', Hn.
    replace (parseBody JSON_parse req' (set_params [] initial))
      with (parseBody JSON_parse req (set_params [] initial))
      by (unfold parseBody; now rewrite Hm, Hc).
    rewrite (runMiddlewares_blind app req req' Hm) by assumption.
    reflexivity.
Qed.

Lemma trailing_slash_equivalence_witness :
  normalize "/users/" = normalize "/users"
  /\ normalize "/users/" = "/users"
  /\ handleRequest Examples.parse_a_is_1 Examples.overlapping
                   (Examples.request "GET" "/users/" [])
     = handleRequest Examples.parse_a_is_1 Examples.overlapping
                     (Examples.request "GET" "/users" []).
Proof.
  destruct (trailing_slash_equivalence Examples.parse_a_is_1
              Examples.overlapping (Examples.request "GET" "/users/" [])
              (Examples.request "GET" "/users" [])
              "/users" "/" eq_refl eq_refl eq_refl eq_refl eq_refl)
    as (H1 & _ & _ & _ & _ & H5).
  split; [exact H1|]. split; [reflexivity|]. apply H5. split.
  - constructor.
  - repeat constructor.
Defined.

(** C9. When no registered route has the method of the request and a
    matcher that matches its normalized path, which is the case when no
    route is registered at all, the route handler writes status 404 with
    body [{"error":"Route not found"}], sent as JSON, provided the
    response was not sent before; nothing follows the response.  With no
    middleware in the way, the request ends there with that response. *)
Theorem unmatched_route_is_404
        (JSON_parse : string -> option Json.value) (app : App)
        (req : IncomingMessage) (p : string) (st : State) :
  parsedUrl req = Pathname p ->
  (forall r, In r (routes app) ->
             route_matches (method req) (normalize p) r = false) ->
  (Response.headersSent (res st) = false ->
   exists st',
     routeHandler app req (normalize p) st = (Normal, st')
     /\ Response.delivered (res st') = Some (404%Z, route_not_found_text)
     /\ Response.content_type (res st') = Some "application/json"
     /\ trace st' = trace st ++ [EvRouteHandler; EvNotFound])
  /\ (middlewares app = [] ->
      exists st',
        handleRequest JSON_parse app req = (Resolved, st')
        /\ Response.delivered (res st') = Some (404%Z, route_not_found_text)
        /\ Response.content_type (res st') = Some "application/json"
        /\ trace st' = chunk_events req
                       ++ [EvRunMiddlewares; EvRouteHandler; EvNotFound]).
Proof.
  intros Hp Hnone.
  assert (Hroute : forall s, Response.headersSent (res s) = false ->
            exists st',
              routeHandler app req (normalize p) s = (Normal, st')
              /\ Response.delivered (res st') = Some (404%Z, route_not_found_text)
              /\ Response.content_type (res st') = Some "application/json"
              /\ trace st' = trace s ++ [EvRouteHandler; EvNotFound]).
  { intros s Hs. unfold routeHandler.
    rewrite (find_route_none _ 0 _ _ Hnone).
    destruct (status_json_unsent 404 route_not_found
                (log EvNotFound (log EvRouteHandler s)) Hs)
      as (st' & H1 & Hd & Hc & Ht & _).
    exists st'. rewrite H1. repeat split; auto.
    rewrite Ht. cbn. now rewrite <- app_assoc. }
  split; [apply Hroute|].
  intros Hmw. unfold handleRequest. rewrite Hp, parseBody_state.
  rewrite Hmw. cbn [List.length runMiddlewares i nth_error].
  rewrite Hmw. cbn [nth_error].
  destruct (Hroute (log EvRunMiddlewares
                      (set_i 1 {| res := Response.fresh; params := [];
                                  body := parsed_body JSON_parse req;
                                  i := 0; j := 0;
                                  trace := chunk_events req |})) eq_refl)
    as (st' & H1 & Hd & Hc & Ht).
  exists st'. rewrite H1. repeat split; auto.
  rewrite Ht. cbn. now rewrite <- app_assoc.
Qed.

Lemma unmatched_route_is_404_witness :
  (exists st',
     routeHandler createApp (Examples.request "GET" "/nowhere" [])
                  "/nowhere" initial = (Normal, st')
     /\ Response.delivered (res st') = Some (404%Z, route_not_found_text)
     /\ Response.content_type (res st') = Some "application/json"
     /\ trace st' = [] ++ [EvRouteHandler; EvNotFound])
  /\ exists st',
       handleRequest Examples.parse_a_is_1 createApp
                     (Examples.request "GET" "/nowhere" []) = (Resolved, st')
       /\ Response.delivered (res st') = Some (404%Z, route_not_found_text)
       /\ Response.content_type (res st') = Some "application/json"
       /\ trace st' = [] ++ [EvRunMiddlewares; EvRouteHandler; EvNotFound].
Proof.
  destruct (unmatched_route_is_404 Examples.parse_a_is_1 createApp
              (Examples.request "GET" "/nowhere" []) "/nowhere" initial
              eq_refl (fun r (H : In r []) => match H with end)) as [H1 H2].
  split; [exact (H1 eq_refl) | exact (H2 eq_refl)].
Defined.

(* ================================================================= *)
(** ** Further properties of the code

    Properties of the matcher, of the route table, of the dispatch engine
    and of the file watcher, beyond those of the specification; and the
    veto of a middleware (C3), which rests on the facts about bodies that
    pass. *)

(** *** Shapes of patterns *)

Module ShapeFacts.
Import Str StrFacts PathMatcher PathMatcherFacts Pattern Shape.
#[local] Open Scope list_scope.

Lemma ordinary_supported (c : ascii) : ordinary c = true -> supported c = true.
Proof. unfold ordinary, supported. intros ->. reflexivity. Qed.

Lemma verbatim_cases (c : ascii) :
  verbatim c = true ->
  Ascii.eqb c ":" = false /\ Ascii.eqb c "." = false /\ supported c = true.
Proof. by_cases_on c. Qed.

Lemma ordinary_not_dot (c : ascii) : ordinary c = true -> Ascii.eqb c "." = false.
Proof. by_cases_on c. Qed.

Lemma forallb_normalize (p : ascii -> bool) (s : string) :
  p "/"%char = true -> forallb p s = true -> forallb p (normalize s) = true.
Proof.
  intros Hp H.
  destruct (trailing_slashes_split s) as [Hs | (b & c & t & -> & Hc & Ht)].
  - rewrite normalize_all_slashes by assumption. cbn. now rewrite Hp.
  - rewrite normalize_append_slashes, normalize_nonslash_end by assumption.
    rewrite forallb_append in H. now apply andb_true_iff in H.
Qed.

Lemma tokenize_verbatim (s : string) :
  forallb verbatim s = true ->
  tokenize s = map AChar (list_ascii_of_string s).
Proof.
  induction s as [|c r IH]; intros H; [reflexivity|].
  cbn [forallb] in H. apply andb_true_iff in H as [Hc Hr].
  destruct (verbatim_cases c Hc) as (Hcolon & Hdot & _).
  rewrite tokenize_cons. destruct (span is_word r) as [key rest].
  rewrite Hcolon, Hdot. cbn [andb list_ascii_of_string map].
  now rewrite IH.
Qed.

Lemma group_names_chars (cs : list ascii) : group_names (map AChar cs) = [].
Proof. induction cs; cbn; auto. Qed.

Lemma exec_verbatim (s path : string) :
  exec_atoms (map AChar (list_ascii_of_string s)) path
  = if String.eqb path s then Some [] else None.
Proof.
  revert path. induction s as [|c r IH]; intros path; cbn.
  - destruct path; reflexivity.
  - destruct path as [|d path']; [reflexivity|]. cbn.
    rewrite Ascii.eqb_sym. destruct (Ascii.eqb d c); [apply IH|reflexivity].
Qed.

Lemma count_slashes_append (a b : string) :
  count_slashes (a ++ b)%string = count_slashes a + count_slashes b.
Proof. induction a as [|c a IH]; cbn; [reflexivity|]. rewrite IH. lia. Qed.

Lemma count_slashes_none (v : string) :
  forallb (fun c => negb (is_slash c)) v = true -> count_slashes v = 0.
Proof.
  induction v as [|c v IH]; cbn; [reflexivity|].
  intros H. apply andb_true_iff in H as [Hc Hv].
  destruct (is_slash c); [discriminate|]. now rewrite IH.
Qed.

(** The groups of a match: their names are those of the pattern, in its
    order, and their values are not empty and hold no slash. *)
Lemma matches_groups (l : list atom) (s : string) (g : groups) :
  matches l s g ->
  map fst g = group_names l
  /\ Forall (fun kv => is_empty (snd kv) = false
                       /\ forallb nonslash (snd kv) = true) g.
Proof.
  induction 1 as [|c l s g _ IH|c l s g _ _ IH|name v l s g Hv Hs _ IH]; cbn.
  - split; constructor.
  - exact IH.
  - exact IH.
  - destruct IH as [IH1 IH2]. split; [now rewrite IH1|].
    constructor; [now split|assumption].
Qed.

Lemma matches_slashes (n : nat) (s path : string) (g : groups) :
  String.length s <= n ->
  forallb ordinary s = true ->
  matches (tokenize s) path g ->
  count_slashes path = count_slashes s.
Proof.
  revert s path g. induction n as [|n IH]; intros s path g Hn Hs Hm.
  - destruct s; [|cbn in Hn; lia]. inversion Hm. reflexivity.
  - destruct s as [|c r]; [inversion Hm; reflexivity|].
    cbn [forallb] in Hs. apply andb_true_iff in Hs as [Hc Hr].
    rewrite tokenize_cons in Hm.
    destruct (span is_word r) as [key rest] eqn:Hspan.
    destruct (span_spec _ _ _ _ Hspan) as (-> & Hkey & _).
    destruct (Ascii.eqb c ":" && negb (is_empty key)) eqn:Hcase.
    + apply andb_true_iff in Hcase as [Hcolon _].
      apply Ascii.eqb_eq in Hcolon. subst c.
      inversion Hm as [| | |name v l s' g' Hv Hsl Hrest]; subst.
      rewrite forallb_append in Hr. apply andb_true_iff in Hr as [_ Hr].
      rewrite count_slashes_append, (count_slashes_none v) by assumption.
      cbn [count_slashes is_slash Ascii.eqb Bool.eqb].
      rewrite count_slashes_append, (count_slashes_none key).
      * cbn. apply IH with (g := g'); auto.
        cbn in Hn. rewrite length_append in Hn. lia.
      * eapply forallb_impl; [|exact Hkey].
        intros c Hc'. now rewrite (word_not_slash c Hc').
    + rewrite (ordinary_not_dot c Hc) in Hm.
      inversion Hm as [|c' l s' g' Hrest| |]; subst.
      cbn [count_slashes]. f_equal.
      apply IH with (g := g); auto. cbn in Hn. lia.
Qed.

End ShapeFacts.

Import Shape ShapeFacts.

(** X1. Trailing slashes of a route pattern are ignored: a pattern and
    the same pattern followed by slashes compile to the same matcher, so
    registering either gives the same application; an empty pattern or a
    pattern of slashes only is the root route, which matches the path [/]
    and no other. *)
Theorem pattern_trailing_slashes_are_ignored
        (app : App) (m p t : string) (hs : list Handler) :
  forallb is_slash t = true ->
  pathToRegex (p ++ t)%string = pathToRegex p
  /\ pathToRegex (normalize p) = pathToRegex p
  /\ register app m (p ++ t)%string hs = register app m p hs
  /\ pathToRegex t = Ok {| regex := {| atoms := [AChar "/"] |}; keys := [] |}
  /\ forall path,
       String_match path {| atoms := [AChar "/"] |}
       = if String.eqb path "/" then Some [] else None.
Proof.
  intros Ht.
  assert (H1 : pathToRegex (p ++ t)%string = pathToRegex p).
  { unfold pathToRegex. now rewrite normalize_append_slashes. }
  repeat split.
  - exact H1.
  - unfold pathToRegex. now rewrite normalize_idempotent.
  - unfold register. now rewrite H1.
  - unfold pathToRegex. rewrite normalize_all_slashes by assumption.
    reflexivity.
  - intros path. exact (exec_verbatim "/" path).
Qed.

Lemma pattern_trailing_slashes_are_ignored_witness :
  pathToRegex "/users//" = pathToRegex "/users"
  /\ register createApp "GET" "/users//" [Examples.pass]
     = register createApp "GET" "/users" [Examples.pass]
  /\ pathToRegex "//" = Ok {| regex := {| atoms := [AChar "/"] |}; keys := [] |}.
Proof.
  destruct (pattern_trailing_slashes_are_ignored
              createApp "GET" "/users" "//" [Examples.pass] eq_refl)
    as (H1 & _ & H3 & H4 & _).
  repeat split; assumption.
Defined.

(** X2. A pattern without colon, dot or other syntax character of
    regular expressions is a static route: it compiles, binds no
    parameter, and matches a path exactly when the path is the pattern
    without its trailing slashes ([/] for an empty pattern). *)
Theorem static_route_matches_its_own_path (pattern : string) :
  forallb verbatim pattern = true ->
  exists pr,
    pathToRegex pattern = Ok pr
    /\ keys pr = []
    /\ forall path,
         String_match path (regex pr)
         = if String.eqb path (normalize pattern) then Some [] else None.
Proof.
  intros H.
  assert (Hsup : forallb supported pattern = true).
  { eapply forallb_impl; [|exact H]. intros c Hc. now apply verbatim_cases. }
  assert (Hn : forallb verbatim (normalize pattern) = true)
    by (apply forallb_normalize; [reflexivity|assumption]).
  rewrite (pathToRegex_tokenize pattern Hsup). cbv zeta.
  rewrite (tokenize_verbatim _ Hn), group_names_chars. cbn [List.forallb distinct andb].
  eexists. split; [reflexivity|]. split; [reflexivity|].
  intros path. apply exec_verbatim.
Qed.

Lemma static_route_matches_its_own_path_witness :
  exists pr,
    pathToRegex "/api/users/" = Ok pr
    /\ keys pr = []
    /\ String_match "/api/users" (regex pr) = Some []
    /\ String_match "/api/users/7" (regex pr) = None
    /\ String_match "/api" (regex pr) = None.
Proof.
  destruct (static_route_matches_its_own_path "/api/users/" eq_refl)
    as (pr & H1 & H2 & H3).
  exists pr. repeat split; try assumption; rewrite H3; reflexivity.
Defined.

(** X3. When a path matches a compiled pattern (of supported
    characters), the groups of the match are the parameters of the
    pattern: their names are [keys], in the order of the pattern and
    without repetition, and each value is a non-empty piece of the path
    without slash. *)
Theorem captures_are_pieces_of_segments
        (pattern path : string) (pr : PathRegex) (g : groups) :
  forallb supported pattern = true ->
  pathToRegex pattern = Ok pr ->
  String_match path (regex pr) = Some g ->
  map fst g = keys pr
  /\ distinct (keys pr) = true
  /\ Forall (fun kv => is_empty (snd kv) = false
                       /\ forallb nonslash (snd kv) = true) g.
Proof.
  intros Hsup Hpr Hm.
  rewrite (pathToRegex_tokenize pattern Hsup) in Hpr. cbv zeta in Hpr.
  destruct (List.forallb valid_group_name _ && distinct _) eqn:Hok;
    [|discriminate].
  injection Hpr as <-. cbn [regex keys] in *.
  apply andb_true_iff in Hok as [_ Hd].
  apply exec_atoms_sound in Hm. apply matches_groups in Hm as [Hn Hv].
  auto.
Qed.

Lemma captures_are_pieces_of_segments_witness :
  exists pr g,
    pathToRegex "/files/:dir/:name" = Ok pr
    /\ String_match "/files/a.b/c" (regex pr) = Some g
    /\ map fst g = ["dir"; "name"]
    /\ Forall (fun kv => is_empty (snd kv) = false
                         /\ forallb nonslash (snd kv) = true) g.
Proof.
  eexists. eexists.
  split; [reflexivity|]. split; [reflexivity|].
  destruct (captures_are_pieces_of_segments
              "/files/:dir/:name" "/files/a.b/c" _ _ eq_refl eq_refl eq_refl)
    as (H1 & _ & H3).
  split; assumption.
Defined.

(** X4. A pattern without syntax character of regular expressions (so
    without dot; colons allowed) only matches paths that have as many
    slashes as the pattern without its trailing slashes: a route never
    answers a path with more or fewer segments. *)
Theorem match_keeps_the_number_of_slashes
        (pattern path : string) (pr : PathRegex) (g : groups) :
  forallb ordinary pattern = true ->
  pathToRegex pattern = Ok pr ->
  String_match path (regex pr) = Some g ->
  count_slashes path = count_slashes (normalize pattern).
Proof.
  intros Hord Hpr Hm.
  assert (Hsup : forallb supported pattern = true).
  { eapply forallb_impl; [|exact Hord]. apply ordinary_supported. }
  rewrite (pathToRegex_tokenize pattern Hsup) in Hpr. cbv zeta in Hpr.
  destruct (List.forallb valid_group_name _ && distinct _); [|discriminate].
  injection Hpr as <-. cbn [regex] in Hm.
  apply exec_atoms_sound in Hm.
  apply matches_slashes with (n := String.length (normalize pattern)) in Hm;
    auto.
  apply forallb_normalize; [reflexivity|assumption].
Qed.

Lemma match_keeps_the_number_of_slashes_witness :
  count_slashes "/users/42" = count_slashes (normalize "/users/:id/")
  /\ exists pr, pathToRegex "/users/:id/" = Ok pr
                /\ String_match "/users/42/posts" (regex pr) = None.
Proof.
  split.
  - apply (match_keeps_the_number_of_slashes
             "/users/:id/" "/users/42"
             {| regex := {| atoms := tokenize "/users/:id" |}; keys := ["id"] |}
             [("id", "42")]); reflexivity.
  - eexists. split; reflexivity.
Defined.

(** *** Patterns given by segments, read backwards *)

Lemma matches_chars (t : string) (l : list atom) (s : string) (g : groups) :
  forallb ordinary t = true ->
  matches (map atom_of_char (list_ascii_of_string t) ++ l) s g ->
  exists s', s = (t ++ s')%string /\ matches l s' g.
Proof.
  revert s. induction t as [|c t IH]; intros s Ht Hm; cbn in *.
  - exists s. auto.
  - apply andb_true_iff in Ht as [Hc Ht].
    unfold atom_of_char in Hm at 1. rewrite (ordinary_not_dot c Hc) in Hm.
    inversion Hm as [|c' l' s0 g' Hrest| |]; subst.
    destruct (IH _ Ht Hrest) as (s' & -> & Hs'). exists s'. auto.
Qed.

Lemma matches_atoms_of (segs : list segment) (path : string) (g : groups) :
  List.forallb exact_segment segs = true ->
  matches (atoms_of segs) path g ->
  exists values, path = concrete values
                 /\ instance_of segs values = true
                 /\ g = bindings segs values.
Proof.
  revert path g. induction segs as [|sg segs IH]; intros path g Hex Hm.
  - inversion Hm; subst. exists []. auto.
  - cbn [List.forallb] in Hex. apply andb_true_iff in Hex as [Hsg Hex].
    destruct sg as [text|name]; cbn [atoms_of exact_segment] in *.
    + inversion Hm as [|c l s0 g0 Hrest| |]; subst.
      destruct (matches_chars _ _ _ _ Hsg Hrest) as (s' & -> & Hs').
      destruct (IH _ _ Hex Hs') as (vs & -> & Hi & ->).
      exists (text :: vs). cbn. rewrite String.eqb_refl, Hi. auto.
    + inversion Hm as [|c l s0 g0 Hrest| |]; subst.
      inversion Hrest as [| | |n v l s1 g1 Hv Hsl Hrest']; subst.
      destruct (IH _ _ Hex Hrest') as (vs & -> & Hi & ->).
      exists (v :: vs). cbn. rewrite Hv, Hsl, Hi. auto.
Qed.

(** X5. A pattern given by segments, without dot in its literal
    segments, matches exactly the paths of its shape: the compiled matcher
    accepts a path if and only if the path consists of as many segments,
    equal to the literal segments and non-empty and without slash at the
    parameters, and the groups of the match are then the parameters bound
    to their segments, and no others. *)
Theorem segment_pattern_matches_its_shape_only
        (segs : list segment) (path : string) (g : groups) :
  wf_pattern segs = true ->
  List.forallb exact_segment segs = true ->
  exists pr,
    pathToRegex (render segs) = Ok pr
    /\ (String_match path (regex pr) = Some g <->
        exists values, path = concrete values
                       /\ instance_of segs values = true
                       /\ g = bindings segs values).
Proof.
  intros Hwf Hex. rewrite (pathToRegex_segments segs Hwf).
  eexists. split; [reflexivity|]. cbn [regex]. unfold String_match. cbn [atoms].
  split.
  - intros Hm. apply exec_atoms_sound in Hm. now apply matches_atoms_of.
  - intros (values & -> & Hi & ->). apply exec_atoms_of; [|assumption].
    unfold wf_pattern in Hwf.
    apply andb_true_iff in Hwf as [Hwf _]. now apply andb_true_iff in Hwf as [_ Hwf].
Qed.

Lemma segment_pattern_matches_its_shape_only_witness :
  exists pr,
    pathToRegex "/users/:id/posts/:postId" = Ok pr
    /\ (String_match "/users/42/posts/7" (regex pr)
        = Some [("id", "42"); ("postId", "7")]
        <-> exists values,
              "/users/42/posts/7" = concrete values
              /\ instance_of Examples.users_posts values = true
              /\ [("id", "42"); ("postId", "7")]
                 = bindings Examples.users_posts values).
Proof.
  exact (segment_pattern_matches_its_shape_only
           Examples.users_posts "/users/42/posts/7"
           [("id", "42"); ("postId", "7")] eq_refl eq_refl).
Defined.

(** *** The route table and the handlers of the matched route *)

Lemma find_route_sound (rs : list Route) (pos0 pos : nat) (m p : string)
      (route : Route) (g : groups) :
  find_route rs pos0 m p = Some (pos, route, g) ->
  exists k, pos = pos0 + k /\ nth_error rs k = Some route
            /\ String.eqb m (route_method route) = true
            /\ String_match p (route_regex route) = Some g
            /\ forall k' r, k' < k -> nth_error rs k' = Some r ->
                            route_matches m p r = false.
Proof.
  revert pos0. induction rs as [|r rs IH]; intros pos0 H; [discriminate|].
  cbn [find_route] in H.
  assert (Hnext : route_matches m p r = false ->
                  find_route rs (S pos0) m p = Some (pos, route, g) ->
                  exists k, pos = pos0 + k /\ nth_error (r :: rs) k = Some route
                            /\ String.eqb m (route_method route) = true
                            /\ String_match p (route_regex route) = Some g
                            /\ forall k' r', k' < k ->
                                 nth_error (r :: rs) k' = Some r' ->
                                 route_matches m p r' = false).
  { intros Hr H'. destruct (IH _ H') as (k & -> & Hk & Hmeth & Hg & Hbefore).
    exists (S k). split; [lia|]. split; [exact Hk|]. split; [exact Hmeth|].
    split; [exact Hg|].
    intros [|k'] r' Hlt Hr'; cbn in Hr'.
    - now inversion Hr'; subst.
    - apply (Hbefore k'); [lia|assumption]. }
  destruct (String_match p (route_regex r)) as [g0|] eqn:Hm.
  - destruct (String.eqb m (route_method r)) eqn:He.
    + inversion H; subst. exists 0. split; [lia|]. split; [reflexivity|].
      split; [exact He|]. split; [exact Hm|]. intros k' r' Hlt. lia.
    + apply Hnext; [|assumption]. unfold route_matches. now rewrite He.
  - apply Hnext; [|assumption]. unfold route_matches. rewrite Hm.
    apply andb_false_r.
Qed.

Lemma find_route_none_inv (rs : list Route) (pos : nat) (m p : string) :
  find_route rs pos m p = None ->
  forall r, In r rs -> route_matches m p r = false.
Proof.
  revert pos. induction rs as [|r rs IH]; intros pos H r' Hin;
    [destruct Hin|]. destruct Hin as [<-|Hin];
    cbn [find_route] in H; unfold route_matches in *.
  - destruct (String_match p (route_regex r)); [|apply andb_false_r].
    destruct (String.eqb m (route_method r)); [discriminate|reflexivity].
  - destruct (String_match p (route_regex r));
      [destruct (String.eqb m (route_method r)); [discriminate|]|];
      now apply (IH _ H).
Qed.

Lemma find_route_app (rs : list Route) (r : Route) (pos : nat) (m p : string) :
  find_route (rs ++ [r]) pos m p
  = match find_route rs pos m p with
    | Some x => Some x
    | None => find_route [r] (pos + List.length rs) m p
    end.
Proof.
  revert pos. induction rs as [|r0 rs IH]; intros pos; cbn [app find_route].
  - cbn [List.length]. now rewrite Nat.add_0_r.
  - rewrite IH. cbn [List.length]. rewrite Nat.add_succ_r. cbn [plus].
    destruct (String_match p (route_regex r0));
      [destruct (String.eqb m (route_method r0))|]; reflexivity.
Qed.

Section SameDispatch.

Variable JSON_parse : string -> option Json.value.
Variables app app' : App.
Variable req : IncomingMessage.
Variable pathname : string.
Hypothesis same_middlewares : middlewares app' = middlewares app.
Hypothesis same_lookup :
  find_route (routes app') 0 (method req) pathname
  = find_route (routes app) 0 (method req) pathname.

Lemma routeHandler_same (st : State) :
  routeHandler app' req pathname st = routeHandler app req pathname st.
Proof. unfold routeHandler. now rewrite same_lookup. Qed.

Lemma runMiddlewares_same (fuel : nat) (st : State) :
  runMiddlewares app' req pathname fuel st
  = runMiddlewares app req pathname fuel st.
Proof.
  revert st. induction fuel as [|fuel IH]; intros st;
    rewrite !runMiddlewares_unfold; cbv zeta; rewrite same_middlewares;
    destruct (nth_error (middlewares app) (i st)) as [m|];
    try apply routeHandler_same; [reflexivity|].
  apply run_ext with (Inv := fun _ => True); auto.
Qed.

End SameDispatch.

Lemma handleRequest_same (JSON_parse : string -> option Json.value)
      (app app' : App) (req : IncomingMessage) :
  middlewares app' = middlewares app ->
  (forall p, parsedUrl req = Pathname p ->
             find_route (routes app') 0 (method req) (normalize p)
             = find_route (routes app) 0 (method req) (normalize p)) ->
  handleRequest JSON_parse app' req = handleRequest JSON_parse app req.
Proof.
  intros Hm Hl. unfold handleRequest.
  destruct (parsedUrl req) as [p|message] eqn:Hp; [|reflexivity].
  rewrite (runMiddlewares_same app app' req (normalize p) Hm (Hl p eq_refl)).
  now rewrite Hm.
Qed.

Section Within.

Variable P : event -> Prop.
Hypothesis P_effect : forall tag, P (EvEffect tag).
Variable req : IncomingMessage.
Variable route : nat.
Variable hs : list Handler.
Hypothesis P_next : P EvNext.
Hypothesis P_error : P EvHandlerError.
Hypothesis P_handler : forall k, k < List.length hs -> P (EvHandler route k).

(** The events of a handler chain, the handler events being those of
    positions that exist in the chain. *)
Lemma next_grows_within (fuel : nat) (st : State) :
  grows P st (snd (next req route hs fuel st)).
Proof.
  revert st.
  induction fuel as [|fuel IH]; intros st; rewrite next_unfold; cbv zeta;
    assert (H : grows P st (log EvNext (set_j (S (j st)) st)))
      by (exists [EvNext]; split; [reflexivity | now constructor]).
  - destruct (nth_error hs (j st)); exact H.
  - destruct (nth_error hs (j st)) as [h|] eqn:Hh; [|exact H].
    set (st1 := log EvNext (set_j (S (j st)) st)) in *.
    pose proof (run_grows P P_effect (next req route hs fuel) (h (view req st1))
                  (log (EvHandler route (j st)) st1) IH) as Hrun.
    assert (H2 : grows P st (snd (run (next req route hs fuel)
                                      (h (view req st1))
                                      (log (EvHandler route (j st)) st1)))).
    { eapply grows_trans; [exact H|].
      eapply grows_trans; [apply grows_log, P_handler|exact Hrun].
      eapply nth_error_lt; eauto. }
    destruct (run _ _ (log (EvHandler route (j st)) st1)) as [[|e] st2];
      cbn [snd] in *; [exact H2|].
    eapply grows_trans; [exact H2|].
    eapply grows_trans; [|apply grows_res_json].
    eapply grows_trans; [apply grows_log, P_error | now apply grows_same].
Qed.

End Within.

Lemma routeHandler_grows_found (P : event -> Prop) (app : App)
      (req : IncomingMessage) (pathname : string)
      (pos : nat) (route : Route) (g : groups) (st : State) :
  find_route (routes app) 0 (method req) pathname = Some (pos, route, g) ->
  (forall tag, P (EvEffect tag)) ->
  P EvRouteHandler -> P EvNext -> P EvHandlerError ->
  (forall k, k < List.length (handlers route) -> P (EvHandler pos k)) ->
  grows P st (snd (routeHandler app req pathname st)).
Proof.
  intros Hf Pe Pr Pn Ph Pk. unfold routeHandler. rewrite Hf.
  eapply grows_trans; [apply grows_log, Pr|].
  eapply grows_trans; [|now apply next_grows_within].
  now apply grows_same.
Qed.

Lemma routeHandler_grows_none (P : event -> Prop) (app : App)
      (req : IncomingMessage) (pathname : string) (st : State) :
  find_route (routes app) 0 (method req) pathname = None ->
  P EvRouteHandler -> P EvNotFound ->
  grows P st (snd (routeHandler app req pathname st)).
Proof.
  intros Hf Pr Pf. unfold routeHandler. rewrite Hf.
  eapply grows_trans; [apply grows_log, Pr|].
  eapply grows_trans; [apply grows_log, Pf|].
  eapply grows_trans; [|apply grows_res_json]. now apply grows_same.
Qed.

Lemma chunk_events_data (req : IncomingMessage) (P : event -> Prop) :
  (forall c, P (EvData c)) -> Forall P (chunk_events req).
Proof.
  intros H. unfold chunk_events. destruct (existsb _ _); [|constructor].
  apply Forall_forall. intros e He. apply in_map_iff in He as (c & <- & _).
  apply H.
Qed.

(** *** Bodies that neither respond nor throw *)

Lemma run_silent (nxt : State -> result) (p : prog) (st : State) :
  silent p = true ->
  (forall s, Response.sent (res s) = None ->
             fst (nxt s) = Normal /\ Response.sent (res (snd (nxt s))) = None) ->
  Response.sent (res st) = None ->
  fst (run nxt p st) = Normal
  /\ Response.sent (res (snd (run nxt p st))) = None.
Proof.
  intros Hp Hnxt. revert st.
  induction p as [|m|tag k IH|code k IH|data k IH|k IH]; intros st Hst;
    cbn [run silent] in *; try discriminate; auto.
  pose proof (Hnxt st Hst) as [H1 H2].
  destruct (nxt st) as [[|e] st']; cbn [fst snd] in *; [auto|discriminate].
Qed.

Lemma next_silent (req : IncomingMessage) (route : nat) (hs : list Handler)
      (fuel : nat) (st : State) :
  (forall h r, In h hs -> silent (h r) = true) ->
  Response.sent (res st) = None ->
  fst (next req route hs fuel st) = Normal
  /\ Response.sent (res (snd (next req route hs fuel st))) = None.
Proof.
  intros Hs. revert st.
  induction fuel as [|fuel IH]; intros st Hst; rewrite next_unfold; cbv zeta.
  - destruct (nth_error hs (j st)); auto.
  - destruct (nth_error hs (j st)) as [h|] eqn:Hh; [|auto].
    destruct (run_silent (next req route hs fuel)
                (h (view req (log EvNext (set_j (S (j st)) st))))
                (log (EvHandler route (j st)) (log EvNext (set_j (S (j st)) st))))
      as [H1 H2]; auto.
    + apply Hs. eapply nth_error_In; eauto.
    + destruct (run _ _ _) as [[|e] st2]; cbn [fst snd] in *;
        [auto|discriminate].
Qed.

Lemma runMiddlewares_silent (app : App) (req : IncomingMessage)
      (pathname : string) (pos : nat) (route : Route) (g : groups)
      (fuel : nat) (st : State) :
  find_route (routes app) 0 (method req) pathname = Some (pos, route, g) ->
  (forall m r, In m (middlewares app) -> silent (m r) = true) ->
  (forall h r, In h (handlers route) -> silent (h r) = true) ->
  Response.sent (res st) = None ->
  fst (runMiddlewares app req pathname fuel st) = Normal
  /\ Response.sent (res (snd (runMiddlewares app req pathname fuel st))) = None.
Proof.
  intros Hf Hm Hh. revert st.
  assert (Hroute : forall s, Response.sent (res s) = None ->
            fst (routeHandler app req pathname s) = Normal
            /\ Response.sent (res (snd (routeHandler app req pathname s))) = None).
  { intros s Hs. unfold routeHandler. rewrite Hf. now apply next_silent. }
  induction fuel as [|fuel IH]; intros st Hst; rewrite runMiddlewares_unfold;
    cbv zeta;
    destruct (nth_error (middlewares app) (i st)) as [m|] eqn:Hnth;
    try (now apply Hroute); [auto|].
  apply run_silent; auto.
  apply Hm. eapply nth_error_In; eauto.
Qed.

(** X6. The lookup of [routeHandler] returns a registered route, at its
    position in registration order, whose method is exactly the method of
    the request and whose matcher matches the path, with the groups of
    that match, and no route registered before it has both; it finds
    nothing only when no registered route has both. *)
Theorem lookup_returns_the_first_match (rs : list Route) (m p : string) :
  match find_route rs 0 m p with
  | Some (pos, route, g) =>
      nth_error rs pos = Some route
      /\ route_method route = m
      /\ String_match p (route_regex route) = Some g
      /\ forall k r, k < pos -> nth_error rs k = Some r ->
                     route_matches m p r = false
  | None => forall r, In r rs -> route_matches m p r = false
  end.
Proof.
  destruct (find_route rs 0 m p) as [[[pos route] g]|] eqn:H.
  - destruct (find_route_sound _ _ _ _ _ _ _ H) as (k & -> & Hk & Hm & Hg & Hb).
    cbn [plus]. repeat split; auto.
    symmetry. now apply String.eqb_eq.
  - now apply find_route_none_inv with (pos := 0).
Qed.

(** X7. Registering a route changes nothing for the requests that an
    earlier route serves: the lookup gives the same route and the request
    is handled identically; a request that no earlier route serves goes to
    the new route when it matches.  Routes and middleware are kept apart:
    [use] before or after [register] gives the same application. *)
Theorem later_routes_do_not_change_dispatch
        (JSON_parse : string -> option Json.value) (app app' : App)
        (m path : string) (hs : list Handler) (mw : Handler)
        (req : IncomingMessage) :
  register app m path hs = Ok app' ->
  (forall p x,
     parsedUrl req = Pathname p ->
     find_route (routes app) 0 (method req) (normalize p) = Some x ->
     find_route (routes app') 0 (method req) (normalize p) = Some x
     /\ handleRequest JSON_parse app' req = handleRequest JSON_parse app req)
  /\ (forall p,
        find_route (routes app) 0 (method req) p = None ->
        exists r,
          routes app' = routes app ++ [r]
          /\ route_method r = m /\ handlers r = hs
          /\ find_route (routes app') 0 (method req) p
             = match String_match p (route_regex r) with
               | Some g => if String.eqb (method req) m
                           then Some (List.length (routes app), r, g)
                           else None
               | None => None
               end)
  /\ register (use app mw) m path hs = Ok (use app' mw).
Proof.
  intros Hreg.
  destruct (register_appends _ _ _ _ _ Hreg) as (pr & Hpr & Hroutes & Hmw).
  split; [|split].
  - intros p x Hp Hx.
    assert (Hsame : find_route (routes app') 0 (method req) (normalize p)
                    = find_route (routes app) 0 (method req) (normalize p))
      by (rewrite Hroutes, find_route_app, Hx; reflexivity).
    split; [now rewrite Hsame|].
    apply handleRequest_same; [assumption|].
    intros p' Hp'. rewrite Hp in Hp'. injection Hp' as <-. exact Hsame.
  - intros p Hnone. eexists. split; [exact Hroutes|].
    split; [reflexivity|]. split; [reflexivity|].
    rewrite Hroutes, find_route_app, Hnone.
    cbn [find_route route_regex route_method plus].
    destruct (String_match p (regex pr)); [|reflexivity].
    destruct (String.eqb (method req) m); reflexivity.
  - unfold register in *. destruct (pathToRegex path); try discriminate.
    cbn [bind] in *. injection Hreg as <-. reflexivity.
Qed.

Lemma later_routes_do_not_change_dispatch_witness :
  find_route (routes Examples.overlapping) 0 "GET" "/users/me"
  = Some (0, Examples.users_id, [("id", "me")])
  /\ handleRequest Examples.parse_a_is_1 Examples.overlapping
                   (Examples.request "GET" "/users/me" [])
     = handleRequest Examples.parse_a_is_1
                     (Examples.registered
                        (get createApp "/users/:id" [Examples.show_id "first"]))
                     (Examples.request "GET" "/users/me" []).
Proof.
  destruct (later_routes_do_not_change_dispatch
              Examples.parse_a_is_1
              (Examples.registered
                 (get createApp "/users/:id" [Examples.show_id "first"]))
              Examples.overlapping "GET" "/users/me"
              [Examples.show_id "second"] Examples.pass
              (Examples.request "GET" "/users/me" []) eq_refl)
    as (H & _ & _).
  exact (H "/users/me" (0, Examples.users_id, [("id", "me")])
           eq_refl eq_refl).
Defined.

(** X8. In a whole request, the handlers that are invoked are handlers
    of the route that the lookup selects, at positions that exist in its
    handler list, and the 404 response is not written; when the lookup
    selects no route, no handler is invoked at all. *)
Theorem handlers_belong_to_the_matched_route
        (JSON_parse : string -> option Json.value) (app : App)
        (req : IncomingMessage) (p : string) :
  parsedUrl req = Pathname p ->
  let events := trace (snd (handleRequest JSON_parse app req)) in
  match find_route (routes app) 0 (method req) (normalize p) with
  | Some (pos, route, g) =>
      ~ In EvNotFound events
      /\ forall r k, In (EvHandler r k) events ->
                     r = pos /\ k < List.length (handlers route)
  | None => forall r k, ~ In (EvHandler r k) events
  end.
Proof.
  intros Hp events.
  destruct (find_route (routes app) 0 (method req) (normalize p))
    as [[[pos route] g]|] eqn:Hf.
  - set (P := fun e => e <> EvNotFound
                       /\ forall r k, e = EvHandler r k ->
                                      r = pos /\ k < List.length (handlers route)).
    assert (Pother : forall e, e <> EvNotFound ->
                               (forall r k, e <> EvHandler r k) -> P e).
    { intros e H1 H2. split; [exact H1|]. intros r k H. now destruct (H2 r k). }
    assert (HP : Forall P events).
    { destruct (handleRequest_events JSON_parse app req P) with (p := p)
        as (d & Hd & Pd); auto;
        try (intros; apply Pother; [discriminate|intros r0 k0; discriminate]).
      - intros s. apply routeHandler_grows_found with (pos := pos) (route := route) (g := g);
          auto;
          try (intros; apply Pother; [discriminate|intros r0 k0; discriminate]).
        intros k Hk. split; [discriminate|].
        intros r k' H. inversion H; subst. auto.
      - subst events. rewrite Hd. apply Forall_app. split; [|exact Pd].
        apply chunk_events_data.
        intros; apply Pother; [discriminate|intros r0 k0; discriminate]. }
    rewrite Forall_forall in HP. split.
    + intros Hin. now destruct (HP _ Hin).
    + intros r k Hin. destruct (HP _ Hin) as [_ H]. now apply H.
  - set (P := fun e => forall r k, e <> EvHandler r k).
    assert (HP : Forall P events).
    { destruct (handleRequest_events JSON_parse app req P) with (p := p)
        as (d & Hd & Pd); auto;
        try (intros; intros r0 k0; discriminate).
      - intros s. apply routeHandler_grows_none; auto;
          intros r0 k0; discriminate.
      - subst events. rewrite Hd. apply Forall_app. split; [|exact Pd].
        apply chunk_events_data. intros c r0 k0. discriminate. }
    rewrite Forall_forall in HP. intros r k Hin. exact (HP _ Hin r k eq_refl).
Qed.

Lemma handlers_belong_to_the_matched_route_witness :
  ~ In EvNotFound
       (trace (snd (handleRequest Examples.parse_a_is_1 Examples.overlapping
                      (Examples.request "GET" "/users/me" []))))
  /\ forall r k,
       In (EvHandler r k)
          (trace (snd (handleRequest Examples.parse_a_is_1 Examples.overlapping
                         (Examples.request "GET" "/users/me" [])))) ->
       r = 0 /\ k < 1.
Proof.
  exact (handlers_belong_to_the_matched_route
           Examples.parse_a_is_1 Examples.overlapping
           (Examples.request "GET" "/users/me" []) "/users/me" eq_refl).
Defined.

(** X9. When a route matches and neither a middleware nor a handler of
    that route writes a response or throws, the request ends without any
    response: nothing is sent, not even the 404, and the promise of
    [handleRequest] resolves.  This is the case of a route registered
    without handlers. *)
Theorem matched_request_can_stay_unanswered
        (JSON_parse : string -> option Json.value) (app : App)
        (req : IncomingMessage) (p : string)
        (pos : nat) (route : Route) (g : groups) :
  parsedUrl req = Pathname p ->
  find_route (routes app) 0 (method req) (normalize p) = Some (pos, route, g) ->
  (forall m r, In m (middlewares app) -> silent (m r) = true) ->
  (forall h r, In h (handlers route) -> silent (h r) = true) ->
  exists st,
    handleRequest JSON_parse app req = (Resolved, st)
    /\ Response.sent (res st) = None
    /\ Response.delivered (res st) = None.
Proof.
  intros Hp Hf Hm Hh. unfold handleRequest. rewrite Hp, parseBody_state.
  destruct (runMiddlewares_silent app req (normalize p) pos route g
              (List.length (middlewares app))
              {| res := Response.fresh; params := [];
                 body := parsed_body JSON_parse req;
                 i := 0; j := 0; trace := chunk_events req |} Hf Hm Hh eq_refl)
    as [H1 H2].
  destruct (runMiddlewares _ _ _ _ _) as [[|e] st']; cbn [fst snd] in *;
    [|discriminate].
  exists st'. repeat split; auto.
  unfold Response.delivered. now rewrite H2.
Qed.

Lemma matched_request_can_stay_unanswered_witness :
  exists st,
    handleRequest Examples.parse_a_is_1 Scenarios.no_handlers
                  (Examples.request "GET" "/x" []) = (Resolved, st)
    /\ Response.sent (res st) = None
    /\ Response.delivered (res st) = None.
Proof.
  apply (matched_request_can_stay_unanswered
           Examples.parse_a_is_1 Scenarios.no_handlers (Examples.request "GET" "/x" [])
           "/x" 0 _ [] eq_refl eq_refl).
  - intros m r [<-|[]]. reflexivity.
  - intros h r [].
Defined.

(** *** The methods of the routes *)

Lemma register_other_method (app app' : App) (m path : string)
      (hs : list Handler) (meth p : string) :
  register app m path hs = Ok app' ->
  meth <> m ->
  find_route (routes app') 0 meth p = find_route (routes app) 0 meth p.
Proof.
  intros Hreg Hne.
  destruct (register_appends _ _ _ _ _ Hreg) as (pr & _ & -> & _).
  rewrite find_route_app. cbn [find_route route_regex route_method].
  apply String.eqb_neq in Hne. rewrite Hne.
  destruct (find_route (routes app) 0 meth p); [reflexivity|].
  now destruct (String_match p (regex pr)).
Qed.

(** X10. [get], [post], [put], [patch] and [delete] register the route
    for the method of their name, after the routes registered before, and
    with the handlers given; the methods are compared exactly, so the new
    route changes nothing for a request of any other method: it is handled
    as it was before the registration. *)
Theorem verbs_register_for_their_method
        (JSON_parse : string -> option Json.value) (app app' : App)
        (verb : App -> string -> list Handler -> completion App)
        (m path : string) (hs : list Handler) (req : IncomingMessage) :
  In (verb, m) verbs ->
  verb app path hs = Ok app' ->
  (exists r, routes app' = routes app ++ [r]
             /\ route_method r = m /\ handlers r = hs)
  /\ middlewares app' = middlewares app
  /\ (method req <> m ->
      handleRequest JSON_parse app' req = handleRequest JSON_parse app req).
Proof.
  intros Hin Hverb.
  assert (Hreg : register app m path hs = Ok app').
  { unfold verbs in Hin.
    repeat (destruct Hin as [Hin|Hin];
            [inversion Hin; subst; exact Hverb|]).
    destruct Hin. }
  destruct (register_appends _ _ _ _ _ Hreg) as (pr & _ & Hroutes & Hmw).
  split; [|split].
  - eexists. split; [exact Hroutes|]. split; reflexivity.
  - exact Hmw.
  - intros Hne. apply handleRequest_same; [exact Hmw|].
    intros p _. now apply register_other_method with (m := m) (path := path) (hs := hs).
Qed.

Lemma verbs_register_for_their_method_witness :
  handleRequest Examples.parse_a_is_1 Scenarios.creating
                (Examples.request "GET" "/items/42" [])
  = handleRequest Examples.parse_a_is_1
                  (use createApp (Scenarios.logging "log"))
                  (Examples.request "GET" "/items/42" []).
Proof.
  destruct (verbs_register_for_their_method
              Examples.parse_a_is_1
              (use createApp (Scenarios.logging "log")) Scenarios.creating
              post "POST" "/items/:id" [Scenarios.created]
              (Examples.request "GET" "/items/42" []))
    as (_ & _ & H).
  - right. now left.
  - reflexivity.
  - apply H. discriminate.
Defined.

(** *** The order of the middleware and of the handlers *)

Lemma step_next_mw (m m' : Monitor.t) (e : event) :
  step m e = Some m' ->
  next_mw m <= next_mw m' /\ forall k, e = EvMiddleware k -> next_mw m <= k.
Proof.
  destruct e; cbn; unfold guard;
    try (destruct (_ : bool) eqn:Hc; [|discriminate]);
    intros H; inversion H; subst; cbn; split; try lia;
    try (intros k' Hk; discriminate).
  - apply andb_true_iff in Hc as [_ Hc]. apply Nat.leb_le in Hc. lia.
  - apply andb_true_iff in Hc as [_ Hc]. apply Nat.leb_le in Hc.
    intros k' Hk. inversion Hk; subst. exact Hc.
Qed.

Lemma middleware_above (m m' : Monitor.t) (a : list event) :
  accept m a = Some m' ->
  forall k, In (EvMiddleware k) a -> next_mw m <= k.
Proof.
  revert m. induction a as [|e a IH]; intros m H k Hin; [destruct Hin|].
  cbn in H. destruct (step m e) as [m1|] eqn:Hs; [|discriminate].
  destruct (step_next_mw _ _ _ Hs) as [Hle Hk].
  destruct Hin as [->|Hin].
  - now apply Hk.
  - specialize (IH _ H _ Hin). lia.
Qed.

Lemma snoc_split {A : Type} (l t1 t2 : list A) (e x : A) :
  l ++ [e] = t1 ++ x :: t2 ->
  (t2 = [] /\ l = t1 /\ e = x)
  \/ exists t2', t2 = t2' ++ [e] /\ l = t1 ++ x :: t2'.
Proof.
  intros H. induction t2 as [|y t2' _] using rev_ind.
  - left. apply app_inj_tail in H as [-> ->]. auto.
  - right. exists t2'.
    change (t1 ++ x :: t2' ++ [y]) with (t1 ++ (x :: t2') ++ [y]) in H.
    rewrite app_assoc in H. apply app_inj_tail in H as [-> ->]. auto.
Qed.

Section Coverage.

Variable app : App.
Variable req : IncomingMessage.

Lemma covered_same (st st' : State) :
  i st' = i st -> trace st' = trace st -> covered app st -> covered app st'.
Proof. unfold covered. intros -> ->. auto. Qed.

Lemma covered_log (st : State) (e : event) :
  e <> EvRouteHandler -> covered app st -> covered app (log e st).
Proof.
  intros He [H1 H2]. split; cbn.
  - intros k Hk Hn. apply in_or_app. left. now apply H1.
  - intros t1 t2 Ht k Hk.
    destruct (snoc_split _ _ _ _ _ Ht) as [(_ & _ & Heq) | (t2' & _ & Hl)].
    + now destruct He.
    + now apply (H2 t1 t2').
Qed.

Lemma covered_lookup (st : State) :
  List.length (middlewares app) <= i st ->
  covered app st -> covered app (log EvRouteHandler st).
Proof.
  intros Hi [H1 H2]. split; cbn.
  - intros k Hk Hn. apply in_or_app. left. now apply H1.
  - intros t1 t2 Ht k Hk.
    destruct (snoc_split _ _ _ _ _ Ht) as [(_ & <- & _) | (t2' & _ & Hl)].
    + apply H1; lia.
    + now apply (H2 t1 t2').
Qed.

Lemma covered_res_json (data : Json.value) (st : State) :
  covered app st -> covered app (snd (res_json data st)).
Proof.
  destruct (res_json_frame data st) as (Hi & _ & Ht & _).
  now apply covered_same.
Qed.

Lemma next_covered (route : nat) (hs : list Handler) (fuel : nat) (st : State) :
  covered app st -> covered app (snd (next req route hs fuel st)).
Proof.
  revert st. induction fuel as [|fuel IH]; intros st Hst; rewrite next_unfold;
    cbv zeta;
    assert (H1 : covered app (log EvNext (set_j (S (j st)) st)))
      by (apply covered_log; [discriminate|];
          now apply covered_same with (st := st)).
  - destruct (nth_error hs (j st)); exact H1.
  - destruct (nth_error hs (j st)) as [h|]; [|exact H1].
    set (st1 := log EvNext (set_j (S (j st)) st)) in *.
    assert (H2 : covered app (snd (run (next req route hs fuel)
                                       (h (view req st1))
                                       (log (EvHandler route (j st)) st1)))).
    { apply run_inv with (Inv := covered app).
      - intros s tag Hs. apply covered_log; [discriminate|assumption].
      - intros s f Hs. now apply covered_same with (st := s).
      - exact IH.
      - apply covered_log; [discriminate|assumption]. }
    destruct (run _ _ (log (EvHandler route (j st)) st1)) as [[|e] st2];
      cbn [snd] in *; [exact H2|].
    apply covered_res_json.
    apply covered_same with (st := log EvHandlerError st2); auto.
    apply covered_log; [discriminate|assumption].
Qed.

Variable pathname : string.

Lemma routeHandler_covered (st : State) :
  List.length (middlewares app) <= i st ->
  covered app st -> covered app (snd (routeHandler app req pathname st)).
Proof.
  intros Hi Hst. unfold routeHandler.
  pose proof (covered_lookup st Hi Hst) as H0.
  destruct (find_route (routes app) 0 (method req) pathname)
    as [[[pos route] g]|].
  - apply next_covered.
    now apply covered_same with (st := log EvRouteHandler st).
  - apply covered_res_json.
    apply covered_same with (st := log EvNotFound (log EvRouteHandler st));
      auto.
    apply covered_log; [discriminate|assumption].
Qed.

Lemma runMiddlewares_covered (fuel : nat) (st : State) :
  List.length (middlewares app) - i st <= fuel ->
  covered app st ->
  covered app (snd (runMiddlewares app req pathname fuel st)).
Proof.
  revert st. induction fuel as [|fuel IH]; intros st Hfuel Hst;
    rewrite runMiddlewares_unfold; cbv zeta;
    destruct (nth_error (middlewares app) (i st)) as [m|] eqn:Hm.
  - apply nth_error_lt in Hm. lia.
  - apply nth_error_None in Hm. apply routeHandler_covered; [cbn; lia|].
    apply covered_log; [discriminate|].
    destruct Hst as [H1 H2]. split; cbn; auto.
    intros k Hk Hn. apply H1; lia.
  - pose proof (nth_error_lt _ _ _ Hm) as Hlt.
    set (st2 := log (EvMiddleware (i st))
                    (log EvRunMiddlewares (set_i (S (i st)) st))).
    assert (H2 : covered app st2).
    { destruct Hst as [H1 H2]. split; cbn.
      - intros k Hk Hn. rewrite <- app_assoc. apply in_or_app.
        destruct (Nat.eq_dec k (i st)) as [->|Hne].
        + right. cbn. auto.
        + left. apply H1; lia.
      - intros t1 t2 Ht k Hk.
        destruct (snoc_split _ _ _ _ _ Ht) as [(_ & _ & Heq) | (t2' & _ & Hl)];
          [discriminate|].
        destruct (snoc_split _ _ _ _ _ Hl) as [(_ & _ & Heq) | (t2'' & _ & Hl')];
          [discriminate|].
        now apply (H2 t1 t2''). }
    assert (H3 : (fun s => covered app s /\ S (i st) <= i s)
                   (snd (run (runMiddlewares app req pathname fuel)
                             (m (view req (log EvRunMiddlewares
                                               (set_i (S (i st)) st)))) st2))).
    { apply run_inv
        with (Inv := fun s => covered app s /\ S (i st) <= i s).
      - intros s tag [Hs Hi]. split; [|exact Hi].
        apply covered_log; [discriminate|assumption].
      - intros s f [Hs Hi]. split; [|exact Hi].
        now apply covered_same with (st := s).
      - intros s [Hs Hi]. split.
        + apply IH; [lia|assumption].
        + pose proof (runMiddlewares_i_mono app req pathname fuel s). lia.
      - split; [exact H2 | cbn; lia]. }
    apply H3.
  - apply nth_error_None in Hm. apply routeHandler_covered; [cbn; lia|].
    apply covered_log; [discriminate|].
    destruct Hst as [H1 H2]. split; cbn; auto.
    intros k Hk Hn. apply H1; lia.
Qed.

Lemma runMiddlewares_positions (fuel : nat) (st : State) :
  grows (fun e => forall k, e = EvMiddleware k ->
                            k < List.length (middlewares app))
        st (snd (runMiddlewares app req pathname fuel st)).
Proof.
  set (P := fun e => forall k, e = EvMiddleware k ->
                               k < List.length (middlewares app)).
  assert (Pother : forall e, (forall k, e <> EvMiddleware k) -> P e).
  { intros e H k Hk. now destruct (H k). }
  revert st. induction fuel as [|fuel IH]; intros st;
    rewrite runMiddlewares_unfold; cbv zeta;
    assert (H : grows P st (log EvRunMiddlewares (set_i (S (i st)) st)))
      by (exists [EvRunMiddlewares]; split;
          [reflexivity | constructor; [apply Pother; discriminate|constructor]]);
    assert (Hroute : forall s, grows P s (snd (routeHandler app req pathname s)))
      by (intros s; apply routeHandler_grows;
          try (apply Pother; discriminate);
          intros; apply Pother; discriminate);
    destruct (nth_error (middlewares app) (i st)) as [m|] eqn:Hm;
    try (eapply grows_trans; [exact H | apply Hroute]); [exact H|].
  eapply grows_trans; [exact H|].
  eapply grows_trans;
    [apply (grows_log P _ (EvMiddleware (i st)));
     intros k Hk; inversion Hk; subst; eapply nth_error_lt; eauto|].
  apply run_grows; [intros tag; apply Pother; discriminate | exact IH].
Qed.

End Coverage.

Lemma chunk_events_covered (app : App) (req : IncomingMessage)
      (r : Response.ServerResponse) (g : groups) (v : Json.value) (n : nat) :
  covered app {| res := r; params := g; body := v; i := 0; j := n;
                 trace := chunk_events req |}.
Proof.
  split; cbn.
  - intros k Hk. lia.
  - intros t1 t2 Ht.
    assert (Hin : In EvRouteHandler (chunk_events req))
      by (rewrite Ht; apply in_or_app; right; now left).
    pose proof (chunk_events_data req (fun e => e <> EvRouteHandler)) as Hd.
    rewrite Forall_forall in Hd.
    now destruct (Hd (fun c => ltac:(discriminate)) _ Hin).
Qed.

Lemma handleRequest_covered (JSON_parse : string -> option Json.value)
      (app : App) (req : IncomingMessage) :
  covered app (snd (handleRequest JSON_parse app req)).
Proof.
  assert (Hcatch : forall message st,
             covered app st -> covered app (snd (top_level_catch message st))).
  { intros message st Hst. unfold top_level_catch.
    assert (H0 : covered app (log EvServerError st))
      by (apply covered_log; [discriminate|assumption]).
    destruct (Response.writeHead _ _ _ _); cbn [snd]; [exact H0|].
    now apply covered_same with (st := log EvServerError st). }
  unfold handleRequest. destruct (parsedUrl req) as [p|message].
  - rewrite parseBody_state.
    pose proof (runMiddlewares_covered app req (normalize p)
                  (List.length (middlewares app)) _
                  ltac:(cbn; lia)
                  (chunk_events_covered app req Response.fresh []
                     (parsed_body JSON_parse req) 0)) as H.
    destruct (runMiddlewares _ _ _ _ _) as [[|e] st']; cbn [snd] in *;
      [exact H|now apply Hcatch].
  - apply Hcatch. split; cbn; [intros k Hk; lia|].
    intros [|? ?] t2 Ht; discriminate.
Qed.

(** X11. In every request the middleware are invoked in registration
    order and each at most once: an invoked middleware exists in the
    chain, those invoked before it stand before it and those invoked after
    it stand after it, whatever the middleware do with [next]. *)
Theorem middleware_run_in_registration_order
        (JSON_parse : string -> option Json.value) (app : App)
        (req : IncomingMessage) (t1 t2 : list event) (k : nat) :
  trace (snd (handleRequest JSON_parse app req))
  = t1 ++ EvMiddleware k :: t2 ->
  k < List.length (middlewares app)
  /\ (forall k', In (EvMiddleware k') t1 -> k' < k)
  /\ (forall k', In (EvMiddleware k') t2 -> k < k').
Proof.
  intros Ht.
  destruct (handleRequest_well_formed JSON_parse app req) as (m & Hacc).
  rewrite Ht, accept_app in Hacc.
  destruct (accept start t1) as [m1|] eqn:H1; [|discriminate].
  cbn [accept] in Hacc.
  destruct (step m1 (EvMiddleware k)) as [m2|] eqn:H2; [|discriminate].
  split; [|split].
  - assert (Hall : Forall (fun e => forall k, e = EvMiddleware k ->
                                     k < List.length (middlewares app))
                          (trace (snd (handleRequest JSON_parse app req)))).
    { unfold handleRequest. destruct (parsedUrl req) as [p|message].
      - rewrite parseBody_state.
        destruct (runMiddlewares_positions app req (normalize p)
                    (List.length (middlewares app))
                    {| res := Response.fresh; params := [];
                       body := parsed_body JSON_parse req;
                       i := 0; j := 0; trace := chunk_events req |})
          as (d & Hd & Pd).
        assert (Hchunks : Forall (fun e => forall k, e = EvMiddleware k ->
                                     k < List.length (middlewares app))
                                 (chunk_events req))
          by (apply chunk_events_data; intros c k0 Hk; discriminate).
        destruct (runMiddlewares _ _ _ _ _) as [[|e] st']; cbn [snd trace] in *.
        + rewrite Hd. apply Forall_app. auto.
        + unfold top_level_catch.
          destruct (Response.writeHead _ _ _ _); cbn; rewrite Hd;
            repeat (apply Forall_app; split); auto;
            constructor; try constructor; intros k0 Hk; discriminate.
      - unfold top_level_catch.
        destruct (Response.writeHead _ _ _ _); cbn;
          constructor; try constructor; intros k0 Hk; discriminate. }
    rewrite Ht, Forall_forall in Hall.
    apply (Hall (EvMiddleware k)); [|reflexivity].
    apply in_or_app. right. now left.
  - intros k' Hin.
    destruct (middleware_below _ _ _ H1) as [_ Hb].
    specialize (Hb _ Hin).
    destruct (step_next_mw _ _ _ H2) as [_ Hk]. specialize (Hk k eq_refl). lia.
  - intros k' Hin.
    pose proof (middleware_above _ _ _ Hacc _ Hin) as Ha.
    cbn in H2. unfold guard in H2.
    destruct (_ : bool) in H2; [|discriminate].
    inversion H2; subst. cbn in Ha. lia.
Qed.

Lemma middleware_run_in_registration_order_witness :
  1 < List.length (middlewares Examples.vetoing)
  /\ (forall k', In (EvMiddleware k')
                    [EvRunMiddlewares; EvMiddleware 0; EvRunMiddlewares] ->
                 k' < 1)
  /\ (forall k', In (EvMiddleware k') [EvEffect "auth"] -> 1 < k').
Proof.
  exact (middleware_run_in_registration_order
           Examples.parse_a_is_1 Examples.vetoing
           (Examples.request "GET" "/x" [])
           [EvRunMiddlewares; EvMiddleware 0; EvRunMiddlewares]
           [EvEffect "auth"] 1 eq_refl).
Defined.

(** X12. Nothing of the routing stage happens before every registered
    middleware was invoked: when the routes are looked up, a route's
    [next] is called, a handler is invoked or the 404 response or the 500
    response of a handler error is written, each middleware of the
    application was invoked earlier in the request, wherever [use] stood
    among the registrations. *)
Theorem every_middleware_runs_before_routing
        (JSON_parse : string -> option Json.value) (app : App)
        (req : IncomingMessage) (t1 t2 : list event) (e : event) :
  trace (snd (handleRequest JSON_parse app req)) = t1 ++ e :: t2 ->
  routing_event e = true ->
  forall k, k < List.length (middlewares app) -> In (EvMiddleware k) t1.
Proof.
  intros Ht He k Hk.
  destruct (handleRequest_covered JSON_parse app req) as [_ Hcov].
  assert (Hlookup : e = EvRouteHandler \/ In EvRouteHandler t1).
  { destruct (handleRequest_well_formed JSON_parse app req) as (m & Hacc).
    rewrite Ht, accept_app in Hacc.
    destruct (accept start t1) as [m1|] eqn:H1; [|discriminate].
    cbn [accept] in Hacc.
    destruct (step m1 e) as [m2|] eqn:H2; [|discriminate].
    assert (Hr : e = EvRouteHandler \/ routed m1 = true).
    { destruct e; try discriminate; auto; right; cbn in H2; unfold guard in H2;
        destruct (routed m1); auto; discriminate. }
    destruct Hr as [Hr|Hr]; [now left|right].
    destruct (routed_origin _ _ _ H1 Hr) as [H|H]; [discriminate|exact H]. }
  destruct Hlookup as [->|Hin].
  - now apply (Hcov t1 t2).
  - apply in_split in Hin as (a & b & ->).
    apply in_or_app. left.
    apply (Hcov a (b ++ e :: t2)); [|assumption].
    rewrite Ht, <- app_assoc. reflexivity.
Qed.

Lemma every_middleware_runs_before_routing_witness :
  trace (snd (handleRequest Examples.parse_a_is_1 Scenarios.late_middleware
                (Examples.request "GET" "/x" [])))
  = [EvRunMiddlewares; EvMiddleware 0; EvEffect "log"; EvRunMiddlewares;
     EvRouteHandler]
      ++ EvNext :: [EvHandler 0 0; EvEffect "handler"]
  /\ forall k, k < 1 ->
               In (EvMiddleware k)
                  [EvRunMiddlewares; EvMiddleware 0; EvEffect "log";
                   EvRunMiddlewares; EvRouteHandler].
Proof.
  split; [reflexivity|].
  exact (every_middleware_runs_before_routing
           Examples.parse_a_is_1 Scenarios.late_middleware
           (Examples.request "GET" "/x" [])
           [EvRunMiddlewares; EvMiddleware 0; EvEffect "log"; EvRunMiddlewares;
            EvRouteHandler]
           [EvHandler 0 0; EvEffect "handler"] EvNext eq_refl eq_refl).
Defined.

(** *** One lookup, and handlers in increasing positions *)

Lemma handler_positions_app (a b : list event) :
  handler_positions (a ++ b) = handler_positions a ++ handler_positions b.
Proof.
  induction a as [|e a IH]; [reflexivity|].
  destruct e; cbn; rewrite ?IH; reflexivity.
Qed.

Lemma lookups_app (a b : list event) :
  lookups (a ++ b) = lookups a + lookups b.
Proof.
  induction a as [|e a IH]; [reflexivity|].
  destruct e; cbn; rewrite ?IH; reflexivity.
Qed.

Lemma increasing_snoc (l : list nat) (x : nat) :
  increasing l -> Forall (fun k => k < x) l -> increasing (l ++ [x]).
Proof.
  induction l as [|k l IH]; cbn; intros Hl Hx.
  - split; [constructor|exact I].
  - destruct Hl as [Hk Hl]. inversion Hx; subst. split.
    + apply Forall_app. split; [exact Hk|]. constructor; [assumption|constructor].
    + now apply IH.
Qed.

Lemma unrouted_log (st : State) (e : event) :
  handler_event e = false -> e <> EvRouteHandler ->
  unrouted st -> unrouted (log e st).
Proof.
  intros He Hr [H1 H2]. unfold unrouted. cbn.
  rewrite lookups_app, handler_positions_app, H1, H2.
  destruct e; try discriminate; try (now destruct Hr); cbn; auto.
Qed.

Lemma in_order_log (st : State) (e : event) :
  handler_event e = false -> e <> EvRouteHandler ->
  in_order st -> in_order (log e st).
Proof.
  intros He Hr [H1 H2]. unfold in_order. cbn.
  rewrite lookups_app, handler_positions_app.
  destruct e; try discriminate; try (now destruct Hr); cbn;
    rewrite ?app_nil_r, ?Nat.add_0_r; auto.
Qed.

Lemma chain_in_order_log (st : State) (e : event) :
  handler_event e = false -> e <> EvRouteHandler ->
  chain_in_order st -> chain_in_order (log e st).
Proof.
  intros He Hr (H1 & H2 & H3). unfold chain_in_order. cbn.
  rewrite lookups_app, handler_positions_app.
  destruct e; try discriminate; try (now destruct Hr); cbn;
    rewrite ?app_nil_r, ?Nat.add_0_r; auto.
Qed.

Lemma chain_in_order_res_json (data : Json.value) (st : State) :
  chain_in_order st -> chain_in_order (snd (res_json data st)).
Proof.
  destruct (res_json_frame data st) as (_ & Hj & Ht & _).
  unfold chain_in_order. now rewrite Hj, Ht.
Qed.

Lemma chain_in_order_ends (st : State) : chain_in_order st -> in_order st.
Proof. intros (H1 & H2 & _). split; [lia|exact H2]. Qed.

Section Order.

Variable app : App.
Variable req : IncomingMessage.

Lemma next_chain_in_order (route : nat) (hs : list Handler) (fuel : nat)
      (st : State) :
  chain_in_order st -> chain_in_order (snd (next req route hs fuel st)).
Proof.
  revert st. induction fuel as [|fuel IH]; intros st Hst; rewrite next_unfold;
    cbv zeta;
    assert (H1 : chain_in_order (log EvNext (set_j (S (j st)) st)))
      by (apply chain_in_order_log; [reflexivity|discriminate|];
          destruct Hst as (H1 & H2 & H3); repeat split; auto; cbn;
          eapply Forall_impl; [|exact H3]; cbn; intros; lia).
  - destruct (nth_error hs (j st)); exact H1.
  - destruct (nth_error hs (j st)) as [h|]; [|exact H1].
    set (st1 := log EvNext (set_j (S (j st)) st)) in *.
    assert (H2 : chain_in_order (log (EvHandler route (j st)) st1)).
    { destruct Hst as (Ha & Hb & Hc). unfold chain_in_order. cbn.
      rewrite !lookups_app, !handler_positions_app. cbn.
      rewrite app_nil_r, !Nat.add_0_r. split; [exact Ha|]. split.
      - now apply increasing_snoc.
      - apply Forall_app. split.
        + eapply Forall_impl; [|exact Hc]. cbn. intros. lia.
        + constructor; [lia|constructor]. }
    assert (H3 : chain_in_order (snd (run (next req route hs fuel)
                                          (h (view req st1))
                                          (log (EvHandler route (j st)) st1)))).
    { apply run_inv with (Inv := chain_in_order).
      - intros s tag Hs. apply chain_in_order_log;
          [reflexivity|discriminate|assumption].
      - intros s f Hs. exact Hs.
      - exact IH.
      - exact H2. }
    destruct (run _ _ (log (EvHandler route (j st)) st1)) as [[|e] st2];
      cbn [snd] in *; [exact H3|].
    apply chain_in_order_res_json.
    apply (chain_in_order_log st2 EvHandlerError);
      [reflexivity|discriminate|assumption].
Qed.

Variable pathname : string.

Lemma routeHandler_in_order (st : State) :
  unrouted st -> in_order (snd (routeHandler app req pathname st)).
Proof.
  intros [H1 H2]. unfold routeHandler.
  assert (H0 : chain_in_order (log EvRouteHandler st)).
  { unfold chain_in_order. cbn.
    rewrite lookups_app, handler_positions_app, H1, H2. cbn.
    repeat split; constructor. }
  destruct (find_route (routes app) 0 (method req) pathname)
    as [[[pos route] g]|].
  - apply chain_in_order_ends, next_chain_in_order.
    destruct H0 as (Ha & Hb & Hc). repeat split; auto. cbn in *.
    rewrite handler_positions_app, H2. constructor.
  - apply chain_in_order_ends, chain_in_order_res_json.
    apply (chain_in_order_log (log EvRouteHandler st) EvNotFound);
      [reflexivity|discriminate|assumption].
Qed.

Lemma runMiddlewares_in_order (fuel : nat) (st : State) :
  Forall at_most_once (middlewares app) ->
  unrouted st -> in_order (snd (runMiddlewares app req pathname fuel st)).
Proof.
  intros Honce. revert st. induction fuel as [|fuel IH]; intros st Hst;
    rewrite runMiddlewares_unfold; cbv zeta;
    assert (H1 : unrouted (log EvRunMiddlewares (set_i (S (i st)) st)))
      by (apply unrouted_log; [reflexivity|discriminate|exact Hst]);
    assert (Hpost : forall s, unrouted s -> in_order s)
      by (intros s [Ha Hb]; split; [lia|rewrite Hb; exact I]);
    destruct (nth_error (middlewares app) (i st)) as [m|] eqn:Hm;
    try (now apply routeHandler_in_order); [now apply Hpost|].
  apply run_at_most_once with (pre := unrouted).
  - intros s tag Hs. apply unrouted_log; [reflexivity|discriminate|assumption].
  - intros s f Hs. exact Hs.
  - intros s tag Hs. apply in_order_log; [reflexivity|discriminate|assumption].
  - intros s f Hs. exact Hs.
  - exact Hpost.
  - exact IH.
  - rewrite Forall_forall in Honce. apply Honce. eapply nth_error_In; eauto.
  - apply unrouted_log; [reflexivity|discriminate|exact H1].
Qed.

End Order.

(** X13. When every middleware calls [next] at most once, the routes are
    looked up at most once in a request, and the handlers are invoked at
    strictly increasing positions of the handler list, so each handler
    runs at most once, whatever the handlers do with [next]. *)
Theorem one_lookup_and_handlers_in_order
        (JSON_parse : string -> option Json.value) (app : App)
        (req : IncomingMessage) :
  Forall at_most_once (middlewares app) ->
  let events := trace (snd (handleRequest JSON_parse app req)) in
  lookups events <= 1 /\ increasing (handler_positions events).
Proof.
  intros Honce.
  assert (Hcatch : forall message st,
             in_order st -> in_order (snd (top_level_catch message st))).
  { intros message st Hst. unfold top_level_catch.
    assert (H0 : in_order (log EvServerError st))
      by (apply in_order_log; [reflexivity|discriminate|assumption]).
    destruct (Response.writeHead _ _ _ _); exact H0. }
  assert (H : in_order (snd (handleRequest JSON_parse app req))).
  { unfold handleRequest. destruct (parsedUrl req) as [p|message].
    - rewrite parseBody_state.
      assert (H0 : unrouted {| res := Response.fresh; params := [];
                                body := parsed_body JSON_parse req;
                                i := 0; j := 0; trace := chunk_events req |}).
      { unfold unrouted. cbn [trace].
        pose proof (chunk_events_data req
                      (fun e => data_event e = true) (fun c => eq_refl)) as Hd.
        induction Hd as [|e l He _ [IH1 IH2]]; [split; reflexivity|].
        destruct e; try discriminate. cbn. auto. }
      pose proof (runMiddlewares_in_order app req (normalize p)
                    (List.length (middlewares app)) _ Honce H0) as H.
      destruct (runMiddlewares _ _ _ _ _) as [[|e] st']; cbn [snd] in *;
        [exact H|now apply Hcatch].
    - apply Hcatch. split; cbn; [lia|exact I]. }
  exact H.
Qed.

Lemma one_lookup_and_handlers_in_order_witness :
  lookups (trace (snd (handleRequest Examples.parse_a_is_1 Examples.skipping
                         (Examples.request "GET" "/x" [])))) <= 1
  /\ handler_positions
       (trace (snd (handleRequest Examples.parse_a_is_1 Examples.skipping
                      (Examples.request "GET" "/x" [])))) = [0; 1; 2].
Proof.
  split; [|reflexivity].
  apply (one_lookup_and_handlers_in_order
           Examples.parse_a_is_1 Examples.skipping
           (Examples.request "GET" "/x" [])).
  constructor.
Defined.

(** A middleware that calls [next] twice makes the routes be looked up
    twice, and the handler run twice. *)
Example two_lookups_example :
  trace (snd (handleRequest Examples.parse_a_is_1 Scenarios.twice_routed
                (Examples.request "GET" "/x" [])))
  = [EvRunMiddlewares; EvMiddleware 0;
     EvRunMiddlewares; EvRouteHandler; EvNext; EvHandler 0 0; EvEffect "handler";
     EvRunMiddlewares; EvRouteHandler; EvNext; EvHandler 0 0; EvEffect "handler"].
Proof. reflexivity. Qed.

(** *** The response, once written *)

Section Final.

Variable code : Z.
Variable hs : list Response.header.
Variable text : string.

Lemma sent_res_json (data : Json.value) (st : State) :
  Response.sent (res st) = Some (code, hs, Some text) ->
  exists e, res_json data st = (Thrown e, st).
Proof.
  intros H.
  destruct (res_json_cases data st) as [(e & He & _) | (r & _ & Hs & _)];
    [eauto|].
  unfold Response.headersSent in Hs. rewrite H in Hs. discriminate.
Qed.

Lemma run_sent (nxt : State -> result) (p : prog) (st : State) :
  (forall s, Response.sent (res s) = Some (code, hs, Some text) ->
             Response.sent (res (snd (nxt s))) = Some (code, hs, Some text)) ->
  Response.sent (res st) = Some (code, hs, Some text) ->
  Response.sent (res (snd (run nxt p st))) = Some (code, hs, Some text).
Proof.
  intros Hnxt. revert st.
  induction p as [|m|tag k IH|c k IH|data k IH|k IH]; intros st Hst;
    cbn [run snd]; auto.
  - destruct (sent_res_json data st Hst) as (e & ->). exact Hst.
  - pose proof (Hnxt st Hst) as H.
    destruct (nxt st) as [[|e] st']; cbn [snd] in *; auto.
Qed.

Variable app : App.
Variable req : IncomingMessage.

Lemma next_sent (route : nat) (l : list Handler) (fuel : nat) (st : State) :
  Response.sent (res st) = Some (code, hs, Some text) ->
  Response.sent (res (snd (next req route l fuel st)))
  = Some (code, hs, Some text).
Proof.
  revert st. induction fuel as [|fuel IH]; intros st Hst; rewrite next_unfold;
    cbv zeta.
  - destruct (nth_error l (j st)); exact Hst.
  - destruct (nth_error l (j st)) as [h|]; [|exact Hst].
    pose proof (run_sent (next req route l fuel)
                  (h (view req (log EvNext (set_j (S (j st)) st))))
                  (log (EvHandler route (j st))
                       (log EvNext (set_j (S (j st)) st))) IH Hst) as H.
    destruct (run _ _ _) as [[|e] st2]; cbn [snd] in *; [exact H|].
    destruct (sent_res_json internal_server_error
                (res_status 500 (log EvHandlerError st2)) H) as (e' & ->).
    exact H.
Qed.

Lemma routeHandler_sent (pathname : string) (st : State) :
  Response.sent (res st) = Some (code, hs, Some text) ->
  Response.sent (res (snd (routeHandler app req pathname st)))
  = Some (code, hs, Some text).
Proof.
  intros Hst. unfold routeHandler.
  destruct (find_route (routes app) 0 (method req) pathname)
    as [[[pos route] g]|].
  - now apply next_sent.
  - destruct (sent_res_json route_not_found
                (res_status 404 (log EvNotFound (log EvRouteHandler st))) Hst)
      as (e' & ->).
    exact Hst.
Qed.

Lemma runMiddlewares_sent (pathname : string) (fuel : nat) (st : State) :
  Response.sent (res st) = Some (code, hs, Some text) ->
  Response.sent (res (snd (runMiddlewares app req pathname fuel st)))
  = Some (code, hs, Some text).
Proof.
  revert st. induction fuel as [|fuel IH]; intros st Hst;
    rewrite runMiddlewares_unfold; cbv zeta;
    destruct (nth_error (middlewares app) (i st)) as [m|];
    try (now apply routeHandler_sent); [exact Hst|].
  now apply run_sent.
Qed.

Lemma top_level_catch_sent (message : string) (st : State) :
  Response.sent (res st) = Some (code, hs, Some text) ->
  Response.sent (res (snd (top_level_catch message st)))
  = Some (code, hs, Some text).
Proof.
  intros Hst. unfold top_level_catch, Response.writeHead, Response.headersSent.
  cbn [log res]. now rewrite Hst.
Qed.

End Final.

(** X14. The first response written is the response of the request.
    Once a response was sent, whatever runs afterwards (further
    middleware and handlers, a handler error and its 500, the lookup and
    its 404, the top-level catch) leaves what the client received as it
    is, and any further [res.json] throws.  And [res.json] on a response
    that was not sent sends the status code set at that moment, the
    content type of JSON and the JSON text of its argument, when that
    code is one that [res.end] sends a body with (200 to 999, other than
    204 and 304) and the numbers of the argument are integers that
    JavaScript holds exactly. *)
Theorem first_response_is_final
        (app : App) (req : IncomingMessage)
        (code : Z) (hs : list Response.header) (text : string) (st : State) :
  Response.sent (res st) = Some (code, hs, Some text) ->
  (forall data, exists e, res_json data st = (Thrown e, st))
  /\ (forall route l fuel,
        Response.sent (res (snd (next req route l fuel st)))
        = Some (code, hs, Some text))
  /\ (forall pathname fuel,
        Response.sent (res (snd (runMiddlewares app req pathname fuel st)))
        = Some (code, hs, Some text))
  /\ (forall message,
        Response.sent (res (snd (top_level_catch message st)))
        = Some (code, hs, Some text))
  /\ forall data st0,
       Response.headersSent (res st0) = false ->
       answerable (Response.statusCode (res st0)) = true ->
       exact_numbers data = true ->
       exists hs0,
         Response.sent (res (snd (res_json data st0)))
         = Some (Response.statusCode (res st0),
                 ("Content-Type", "application/json") :: hs0,
                 Some (Json.stringify data)).
Proof.
  intros Hst. repeat split.
  - intros data. now apply sent_res_json with (code := code) (hs := hs) (text := text).
  - intros route l fuel. now apply next_sent.
  - intros pathname fuel. now apply runMiddlewares_sent.
  - intros message. now apply top_level_catch_sent.
  - intros data st0 H0 _ _. unfold res_json, Response.json, Response.setHeader.
    rewrite H0. cbn. unfold Response.headersSent in H0.
    destruct (Response.sent (res st0)); [discriminate|].
    eexists. reflexivity.
Qed.

Lemma first_response_is_final_witness :
  Response.delivered (res Examples.answered)
  = Some (200%Z, Json.stringify (Json.Obj [("ok", Json.Bool true)]))
  /\ Response.sent
       (res (snd (runMiddlewares Examples.failing_handler
                    (Examples.request "GET" "/x" []) "/x" 0 Examples.answered)))
     = Response.sent (res Examples.answered)
  /\ Response.sent
       (res (snd (runMiddlewares createApp
                    (Examples.request "GET" "/nowhere" []) "/nowhere" 0
                    Examples.answered)))
     = Response.sent (res Examples.answered)
  /\ exists hs0,
       Response.sent
         (res (snd (res_json (Json.Obj [("id", Json.Num 7)])
                             (res_status 201 initial))))
       = Some (201%Z, ("Content-Type", "application/json") :: hs0,
               Some (Json.stringify (Json.Obj [("id", Json.Num 7)]))).
Proof.
  split; [reflexivity|]. split; [|split].
  - apply (first_response_is_final Examples.failing_handler
             (Examples.request "GET" "/x" []) _ _ _ Examples.answered eq_refl).
  - apply (first_response_is_final createApp
             (Examples.request "GET" "/nowhere" []) _ _ _ Examples.answered eq_refl).
  - apply (first_response_is_final createApp
             (Examples.request "GET" "/nowhere" []) _ _ _ Examples.answered
             eq_refl); reflexivity.
Defined.

(** X15. When what is thrown is an error with a message (an [Error]
    object, as [Throw message] stands for: the catch reads [err.message]),
    the promise of [handleRequest] rejects only when an exception reaches
    the top-level catch after the response was sent: the rejection is the
    error of [writeHead] on sent headers, the request target was valid,
    and the catch was the last thing to run.  A request whose response
    was not sent never ends in a rejection. *)
Theorem rejection_means_the_response_was_sent
        (JSON_parse : string -> option Json.value) (app : App)
        (req : IncomingMessage) (e : string) (st : State) :
  handleRequest JSON_parse app req = (Rejected e, st) ->
  e = Response.ERR_HTTP_HEADERS_SENT_write
  /\ Response.headersSent (res st) = true
  /\ exists p t, parsedUrl req = Pathname p /\ trace st = t ++ [EvServerError].
Proof.
  unfold handleRequest.
  assert (Hcatch : forall message s,
             top_level_catch message s = (Rejected e, st) ->
             e = Response.ERR_HTTP_HEADERS_SENT_write
             /\ Response.headersSent (res st) = true
             /\ trace st = trace s ++ [EvServerError]).
  { intros message s. unfold top_level_catch, Response.writeHead.
    cbn [log res].
    destruct (Response.headersSent (res s)) eqn:Hs; intros H; inversion H;
      subst. cbn. auto. }
  destruct (parsedUrl req) as [p|message].
  - destruct (runMiddlewares _ _ _ _ _) as [[|message] st']; [discriminate|].
    intros H. destruct (Hcatch _ _ H) as (H1 & H2 & H3).
    repeat split; auto. exists p, (trace st'). auto.
  - unfold top_level_catch. cbn. discriminate.
Qed.

Lemma rejection_means_the_response_was_sent_witness :
  fst (handleRequest Examples.parse_a_is_1 Scenarios.responds_then_throws
         (Examples.request "GET" "/x" []))
  = Rejected Response.ERR_HTTP_HEADERS_SENT_write
  /\ Response.headersSent
       (res (snd (handleRequest Examples.parse_a_is_1
                    Scenarios.responds_then_throws
                    (Examples.request "GET" "/x" [])))) = true.
Proof.
  split; [reflexivity|].
  eapply (rejection_means_the_response_was_sent
            Examples.parse_a_is_1 Scenarios.responds_then_throws
            (Examples.request "GET" "/x" [])).
  reflexivity.
Defined.

(** X16. A request whose target cannot be parsed as a URL is answered
    with status 500 and body [{"error":"Server error","message":<the
    error's message>}], sent as JSON, whatever the application and the
    method: no chunk of the body is read, no middleware runs, no route is
    looked up, and the promise resolves. *)
Theorem invalid_target_is_answered_with_500
        (JSON_parse : string -> option Json.value) (app : App)
        (req : IncomingMessage) (message : string) :
  parsedUrl req = InvalidURL message ->
  exists st,
    handleRequest JSON_parse app req = (Resolved, st)
    /\ Response.delivered (res st) = Some (500%Z, server_error_text message)
    /\ Response.content_type (res st) = Some "application/json"
    /\ trace st = [EvServerError].
Proof.
  intros H. unfold handleRequest. rewrite H.
  eexists. split; [reflexivity|].
  rewrite <- stringify_server_error. repeat split.
Qed.

Lemma invalid_target_is_answered_with_500_witness :
  exists st,
    handleRequest Examples.parse_a_is_1 Examples.vetoing
                  {| method := "POST"; url := "//"; parsedUrl := InvalidURL "Invalid URL";
                     chunks := ["{}"] |} = (Resolved, st)
    /\ Response.delivered (res st) = Some (500%Z, server_error_text "Invalid URL")
    /\ Response.content_type (res st) = Some "application/json"
    /\ trace st = [EvServerError].
Proof.
  exact (invalid_target_is_answered_with_500
           Examples.parse_a_is_1 Examples.vetoing
           {| method := "POST"; url := "//"; parsedUrl := InvalidURL "Invalid URL";
              chunks := ["{}"] |} "Invalid URL" eq_refl).
Defined.

(** *** What middleware and handlers are given *)

Lemma next_params (req : IncomingMessage) (route : nat) (hs : list Handler)
      (fuel : nat) (st : State) :
  params (snd (next req route hs fuel st)) = params st.
Proof.
  revert st. induction fuel as [|fuel IH]; intros st; rewrite next_unfold;
    cbv zeta.
  - destruct (nth_error hs (j st)); reflexivity.
  - destruct (nth_error hs (j st)) as [h|]; [|reflexivity].
    set (st0 := log (EvHandler route (j st)) _).
    assert (H : params (snd (run (next req route hs fuel)
                                 (h (view req (log EvNext (set_j (S (j st)) st))))
                                 st0)) = params st).
    { apply run_inv with (Inv := fun s => params s = params st); cbn; auto.
      intros s Hs. now rewrite IH. }
    destruct (run _ _ st0) as [[|e] st2]; cbn [snd] in *; [assumption|].
    destruct (res_json_frame internal_server_error
                (res_status 500 (log EvHandlerError st2)))
      as (_ & _ & _ & _ & ->).
    exact H.
Qed.

Lemma view_seen (req : IncomingMessage) (st : State) :
  view req st = seen req (params st) (body st).
Proof. reflexivity. Qed.

Lemma next_informed (req : IncomingMessage) (route : nat) (hs : list Handler)
      (g : groups) (v : Json.value) (fuel : nat) (st : State) :
  params st = g -> body st = v ->
  next req route (map (informed req g v) hs) fuel st
  = next req route hs fuel st.
Proof.
  revert st. induction fuel as [|fuel IH]; intros st Hg Hv;
    rewrite !next_unfold; cbv zeta; rewrite nth_error_map;
    destruct (nth_error hs (j st)) as [h|]; cbn [option_map]; try reflexivity.
  unfold informed at 1. rewrite view_seen. cbn [log set_j params body].
  rewrite Hg, Hv.
  rewrite (run_ext (next req route (map (informed req g v) hs) fuel)
             (fun s => params s = g /\ body s = v))
    with (nxt' := next req route hs fuel); auto.
  - intros s [Hs1 Hs2]. split.
    + now rewrite next_params.
    + now rewrite next_body.
  - intros s [Hs1 Hs2]. now apply IH.
Qed.

Lemma find_route_inform (req : IncomingMessage) (pathname : string)
      (v : Json.value) (rs : list Route) (pos : nat) (m : string) :
  find_route (map (inform_route req pathname v) rs) pos m pathname
  = match find_route rs pos m pathname with
    | Some (k, route, g) =>
        Some (k, {| route_method := route_method route;
                    route_regex := route_regex route;
                    handlers := map (informed req g v) (handlers route) |}, g)
    | None => None
    end.
Proof.
  revert pos. induction rs as [|r rs IH]; intros pos; [reflexivity|].
  cbn [map find_route inform_route route_regex route_method].
  destruct (String_match pathname (route_regex r)) as [g|] eqn:Hm;
    [destruct (String.eqb m (route_method r))|]; auto.
  unfold inform_route. now rewrite Hm.
Qed.

Section Informed.

Variable app : App.
Variable req : IncomingMessage.
Variable pathname : string.
Variable v : Json.value.

Lemma routeHandler_informed (st : State) :
  body st = v ->
  routeHandler (inform req pathname v app) req pathname st
  = routeHandler app req pathname st.
Proof.
  intros Hv. unfold routeHandler. cbn [inform routes].
  rewrite find_route_inform.
  destruct (find_route (routes app) 0 (method req) pathname)
    as [[[pos route] g]|]; [|reflexivity].
  cbn [handlers]. rewrite length_map. now apply next_informed.
Qed.

(** Before the cursor is past the middleware, [req.params] is empty. *)
Lemma runMiddlewares_unrouted_params (fuel : nat) (st : State) :
  (i st <= List.length (middlewares app) -> params st = []) ->
  let st' := snd (runMiddlewares app req pathname fuel st) in
  i st' <= List.length (middlewares app) -> params st' = [].
Proof.
  revert st. induction fuel as [|fuel IH]; intros st Hst; cbv zeta;
    rewrite runMiddlewares_unfold; cbv zeta;
    destruct (nth_error (middlewares app) (i st)) as [m|] eqn:Hm.
  - cbn. intros Hi. apply Hst. lia.
  - apply nth_error_None in Hm. rewrite routeHandler_i. cbn. lia.
  - apply run_inv
      with (Inv := fun s => i s <= List.length (middlewares app) ->
                            params s = []).
    + cbn. auto.
    + cbn. auto.
    + intros s Hs. now apply IH.
    + cbn. intros Hi. apply Hst. lia.
  - apply nth_error_None in Hm. rewrite routeHandler_i. cbn. lia.
Qed.

Lemma runMiddlewares_informed (fuel : nat) (st : State) :
  (i st <= List.length (middlewares app) -> params st = []) ->
  body st = v ->
  runMiddlewares (inform req pathname v app) req pathname fuel st
  = runMiddlewares app req pathname fuel st.
Proof.
  revert st. induction fuel as [|fuel IH]; intros st Hst Hv;
    rewrite !runMiddlewares_unfold; cbv zeta; cbn [inform middlewares];
    rewrite nth_error_map;
    destruct (nth_error (middlewares app) (i st)) as [m|] eqn:Hm;
    cbn [option_map]; try reflexivity;
    try (now apply routeHandler_informed).
  pose proof (nth_error_lt _ _ _ Hm) as Hlt.
  unfold informed at 1. rewrite view_seen. cbn [log set_i params body].
  rewrite Hst by lia. rewrite Hv.
  apply run_ext
    with (Inv := fun s => (i s <= List.length (middlewares app) ->
                           params s = []) /\ body s = v).
  - cbn. auto.
  - cbn. auto.
  - intros s [Hs1 Hs2]. rewrite (IH s Hs1 Hs2). split.
    + now apply runMiddlewares_unrouted_params.
    + rewrite runMiddlewares_body. exact Hs2.
  - intros s [Hs1 Hs2]. now apply IH.
  - cbn. split; [intros; apply Hst; lia|exact Hv].
Qed.

End Informed.

Lemma handleRequest_informed (JSON_parse : string -> option Json.value)
      (app : App) (req : IncomingMessage) (p : string) :
  parsedUrl req = Pathname p ->
  handleRequest JSON_parse
                (inform req (normalize p) (parsed_body JSON_parse req) app) req
  = handleRequest JSON_parse app req.
Proof.
  intros Hp. unfold handleRequest. rewrite Hp, parseBody_state.
  cbn [inform middlewares]. rewrite length_map.
  now rewrite runMiddlewares_informed.
Qed.

(** X18. What the framework itself puts in [req]: as long as no
    middleware and no handler assigns [req.params] or [req.body] (the
    bodies of this model only read them, when they are invoked), every
    middleware is invoked with [req.params] empty and every handler with
    [req.params] equal to the groups of the match of its route, all of
    them with [req.body] as [parseBody] left it and with the method and
    the target of the request: giving each of them exactly that request,
    whatever the state of the request when it is invoked, changes nothing
    to the way the request is handled. *)
Theorem handlers_are_given_the_captures_and_the_body
        (JSON_parse : string -> option Json.value) (app : App)
        (req : IncomingMessage) (p : string) :
  parsedUrl req = Pathname p ->
  handleRequest JSON_parse app req
  = handleRequest JSON_parse
      (inform req (normalize p) (parsed_body JSON_parse req) app) req.
Proof.
  intros Hp. symmetry. exact (handleRequest_informed JSON_parse app req p Hp).
Qed.

Lemma handlers_are_given_the_captures_and_the_body_witness :
  handleRequest Examples.parse_a_is_1 Examples.overlapping
                (Examples.request "GET" "/users/me" [])
  = handleRequest Examples.parse_a_is_1
      {| routes :=
           [{| route_method := "GET";
               route_regex := route_regex Examples.users_id;
               handlers :=
                 [fun _ => Examples.show_id "first"
                             {| req_method := "GET"; req_url := "/users/me";
                                req_params := [("id", "me")];
                                req_body := Json.empty_object |}] |};
            {| route_method := "GET";
               route_regex := route_regex Examples.users_me;
               handlers :=
                 [fun _ => Examples.show_id "second"
                             {| req_method := "GET"; req_url := "/users/me";
                                req_params := [];
                                req_body := Json.empty_object |}] |}];
         middlewares := [] |}
      (Examples.request "GET" "/users/me" []).
Proof.
  exact (handlers_are_given_the_captures_and_the_body
           Examples.parse_a_is_1 Examples.overlapping
           (Examples.request "GET" "/users/me" []) "/users/me" eq_refl).
Defined.


(** *** Bodies that pass, and what comes after them *)

Lemma passes_cases (p : prog) :
  passes p = true -> silent p = true /\ next_calls p = 1.
Proof.
  unfold passes. intros H. apply andb_true_iff in H as [H1 H2].
  apply Nat.eqb_eq in H2. auto.
Qed.

Lemma run_quiet (nxt : State -> result) (p : prog) (st : State) :
  silent p = true -> next_calls p = 0 ->
  exists st', run nxt p st = (Normal, st')
              /\ Response.sent (res st') = Response.sent (res st).
Proof.
  revert st. induction p as [|m|tag k IH|c k IH|data k IH|k IH]; intros st Hs Hn;
    cbn [run silent next_calls] in *; try discriminate.
  - eauto.
  - destruct (IH (log (EvEffect tag) st) Hs Hn) as (st' & H1 & H2). eauto.
  - destruct (IH (res_status c st) Hs Hn) as (st' & H1 & H2). eauto.
Qed.

(** A body that passes calls its continuation once, in a state that
    differs from the initial one by effects and status codes; it ends as
    the continuation does, after more effects and status codes if the
    continuation returned. *)
Lemma run_passes (nxt : State -> result) (Q : State -> Prop) (p : prog)
      (st : State) :
  passes p = true ->
  (forall s tag, Q s -> Q (log (EvEffect tag) s)) ->
  (forall s c, Q s -> Q (res_status c s)) ->
  Q st ->
  exists s,
    Q s
    /\ match nxt s with
       | (Normal, s') =>
           exists s'', run nxt p st = (Normal, s'')
                       /\ Response.sent (res s'') = Response.sent (res s')
       | (Thrown e, s') => run nxt p st = (Thrown e, s')
       end.
Proof.
  intros Hp Qe Qs. apply passes_cases in Hp as [Hs Hn]. revert st Hs Hn.
  induction p as [|m|tag k IH|c k IH|data k IH|k IH]; intros st Hs Hn Hst;
    cbn [run silent next_calls] in *; try discriminate.
  - apply IH; auto.
  - apply IH; auto.
  - exists st. split; [exact Hst|].
    destruct (nxt st) as [[|e] s']; [|reflexivity].
    apply run_quiet; [assumption|lia].
Qed.

Lemma run_throws (nxt : State -> result) (p : prog) (st : State)
      (message : string) :
  throws p = Some message ->
  exists st', run nxt p st = (Thrown message, st')
              /\ Response.sent (res st') = Response.sent (res st).
Proof.
  revert st. induction p as [|m|tag k IH|c k IH|data k IH|k IH]; intros st H;
    cbn [run throws] in *; try discriminate.
  - inversion H; subst. eauto.
  - destruct (IH (log (EvEffect tag) st) H) as (st' & H1 & H2). eauto.
  - destruct (IH (res_status c st) H) as (st' & H1 & H2). eauto.
Qed.

Lemma throws_stops (p : prog) (message : string) :
  throws p = Some message -> calls_next p = false.
Proof. induction p; cbn; auto; discriminate. Qed.

Section PassingMiddleware.

Variable app : App.
Variable req : IncomingMessage.
Variable pathname : string.

(** What is to be shown of the way the chain ends; it only depends on
    what was sent when the chain ends normally. *)
Variable O : result -> Prop.
Hypothesis O_quiet :
  forall s' s'', Response.sent (res s'') = Response.sent (res s') ->
                 O (Normal, s') -> O (Normal, s'').

Variables before rest : list Handler.
Hypothesis chain : middlewares app = before ++ rest.
Hypothesis before_pass : forall m r, In m before -> passes (m r) = true.
Hypothesis base :
  forall fuel s,
    i s = List.length before -> Response.sent (res s) = None ->
    List.length rest <= fuel ->
    O (runMiddlewares app req pathname fuel s).

Lemma runMiddlewares_passes (fuel : nat) (st : State) :
  List.length (middlewares app) - i st <= fuel ->
  i st <= List.length before ->
  Response.sent (res st) = None ->
  O (runMiddlewares app req pathname fuel st).
Proof.
  assert (Hlen : List.length (middlewares app)
                 = List.length before + List.length rest)
    by (rewrite chain; apply length_app).
  revert st. induction fuel as [|fuel IH]; intros st Hfuel Hi Hst;
    (destruct (Nat.eq_dec (i st) (List.length before)) as [He|Hne];
     [apply base; auto; lia|]).
  - lia.
  - rewrite runMiddlewares_unfold. cbv zeta.
    assert (Hm : exists m, nth_error (middlewares app) (i st) = Some m
                           /\ In m before).
    { destruct (nth_error before (i st)) as [m|] eqn:Hnth.
      - exists m. split; [|eapply nth_error_In; eauto].
        rewrite chain, nth_error_app1; [assumption|lia].
      - apply nth_error_None in Hnth. lia. }
    destruct Hm as (m & -> & Hin).
    destruct (run_passes (runMiddlewares app req pathname fuel)
                (fun s => Response.sent (res s) = None /\ i s = S (i st))
                (m (view req (log EvRunMiddlewares (set_i (S (i st)) st))))
                (log (EvMiddleware (i st))
                     (log EvRunMiddlewares (set_i (S (i st)) st))))
      as (s & [Hs Hsi] & Hrun); auto.
    pose proof (IH s ltac:(lia) ltac:(lia) Hs) as HO.
    destruct (runMiddlewares app req pathname fuel s) as [[|e] s'].
    + destruct Hrun as (s'' & -> & Hsent). now apply O_quiet with (s' := s').
    + now rewrite Hrun.
Qed.

End PassingMiddleware.

Section PassingHandlers.

Variable req : IncomingMessage.
Variable route : nat.

Variable O : result -> Prop.
Hypothesis O_quiet :
  forall s' s'', Response.sent (res s'') = Response.sent (res s') ->
                 O (Normal, s') -> O (Normal, s'').
Hypothesis O_caught :
  forall e s', O (Thrown e, s') ->
               O (res_json internal_server_error
                           (res_status 500 (log EvHandlerError s'))).

Variables before rest : list Handler.
Hypothesis before_pass : forall h r, In h before -> passes (h r) = true.
Hypothesis base :
  forall fuel s,
    j s = List.length before -> Response.sent (res s) = None ->
    List.length rest <= fuel ->
    O (next req route (before ++ rest) fuel s).

Lemma next_passes (fuel : nat) (st : State) :
  List.length (before ++ rest) - j st <= fuel ->
  j st <= List.length before ->
  Response.sent (res st) = None ->
  O (next req route (before ++ rest) fuel st).
Proof.
  rewrite length_app.
  revert st. induction fuel as [|fuel IH]; intros st Hfuel Hj Hst;
    (destruct (Nat.eq_dec (j st) (List.length before)) as [He|Hne];
     [apply base; auto; lia|]).
  - lia.
  - rewrite next_unfold. cbv zeta.
    assert (Hh : exists h, nth_error (before ++ rest) (j st) = Some h
                           /\ In h before).
    { destruct (nth_error before (j st)) as [h|] eqn:Hnth.
      - exists h. split; [|eapply nth_error_In; eauto].
        rewrite nth_error_app1; [assumption|lia].
      - apply nth_error_None in Hnth. lia. }
    destruct Hh as (h & -> & Hin).
    destruct (run_passes (next req route (before ++ rest) fuel)
                (fun s => Response.sent (res s) = None /\ j s = S (j st))
                (h (view req (log EvNext (set_j (S (j st)) st))))
                (log (EvHandler route (j st))
                     (log EvNext (set_j (S (j st)) st))))
      as (s & [Hs Hsj] & Hrun); auto.
    pose proof (IH s ltac:(lia) ltac:(lia) Hs) as HO.
    destruct (next req route (before ++ rest) fuel s) as [[|e] s'].
    + destruct Hrun as (s'' & -> & Hsent). now apply O_quiet with (s' := s').
    + rewrite Hrun. now apply O_caught with (e := e).
Qed.

End PassingHandlers.

(** The middleware pass, then the routes are looked up. *)
Lemma runMiddlewares_reaches_lookup (app : App) (req : IncomingMessage)
      (pathname : string) (O : result -> Prop) (fuel : nat) (st : State) :
  (forall s' s'', Response.sent (res s'') = Response.sent (res s') ->
                  O (Normal, s') -> O (Normal, s'')) ->
  (forall m r, In m (middlewares app) -> passes (m r) = true) ->
  (forall s, Response.sent (res s) = None ->
             O (routeHandler app req pathname s)) ->
  List.length (middlewares app) - i st <= fuel ->
  i st <= List.length (middlewares app) ->
  Response.sent (res st) = None ->
  O (runMiddlewares app req pathname fuel st).
Proof.
  intros Oq Hm Hroute.
  apply runMiddlewares_passes with (before := middlewares app) (rest := []);
    auto.
  - now rewrite app_nil_r.
  - intros f s Hi Hs _. rewrite runMiddlewares_unfold. cbv zeta.
    destruct (nth_error (middlewares app) (i s)) as [m|] eqn:Hnth.
    + apply nth_error_lt in Hnth. lia.
    + now apply Hroute.
Qed.

Lemma informed_middleware (req : IncomingMessage) (pathname : string)
      (v : Json.value) (app : App) (P : prog -> Prop) :
  (forall m, In m (middlewares app) -> P (m (seen req [] v))) ->
  forall m r, In m (middlewares (inform req pathname v app)) -> P (m r).
Proof.
  intros H m r Hin. cbn [inform middlewares] in Hin.
  apply in_map_iff in Hin as (m0 & <- & Hin). now apply H.
Qed.

Lemma sent_delivered (code : Z) (text : string) (s s' : State) :
  Response.sent (res s') = Response.sent (res s) ->
  Response.delivered (res s) = Some (code, text)
  /\ Response.content_type (res s) = Some "application/json" ->
  Response.delivered (res s') = Some (code, text)
  /\ Response.content_type (res s') = Some "application/json".
Proof.
  unfold Response.delivered, Response.content_type. now intros ->.
Qed.

(** X19. Middleware that pass (each, given the request, calls [next]
    exactly once, writes no response and does not throw) do not change
    what an unmatched request gets: when no registered route has the
    method of the request and a matcher for its path, the request is
    answered with status 404 and body [{"error":"Route not found"}], sent
    as JSON, and the promise resolves. *)
Theorem unmatched_request_behind_middleware_is_404
        (JSON_parse : string -> option Json.value) (app : App)
        (req : IncomingMessage) (p : string) :
  parsedUrl req = Pathname p ->
  (forall r, In r (routes app) ->
             route_matches (method req) (normalize p) r = false) ->
  (forall m, In m (middlewares app) ->
             passes (m (seen req [] (parsed_body JSON_parse req))) = true) ->
  exists st,
    handleRequest JSON_parse app req = (Resolved, st)
    /\ Response.delivered (res st) = Some (404%Z, route_not_found_text)
    /\ Response.content_type (res st) = Some "application/json".
Proof.
  intros Hp Hr Hm.
  rewrite <- (handleRequest_informed JSON_parse app req p Hp).
  set (B := parsed_body JSON_parse req) in *.
  set (app' := inform req (normalize p) B app).
  unfold handleRequest. rewrite Hp, parseBody_state. fold B.
  assert (HO : (fun r => fst r = Normal
                         /\ Response.delivered (res (snd r))
                            = Some (404%Z, route_not_found_text)
                         /\ Response.content_type (res (snd r))
                            = Some "application/json")
                 (runMiddlewares app' req (normalize p)
                    (List.length (middlewares app'))
                    {| res := Response.fresh; params := []; body := B;
                       i := 0; j := 0; trace := chunk_events req |})).
  { apply runMiddlewares_reaches_lookup.
    - cbn [fst snd]. intros s' s'' Hs [_ H]. split; [reflexivity|].
      now apply sent_delivered with (s := s').
    - exact (informed_middleware req (normalize p) B app
               (fun q => passes q = true) Hm).
    - intros s Hs. unfold routeHandler, app'. cbn [inform routes].
      rewrite find_route_inform, (find_route_none _ _ _ _ Hr).
      destruct (status_json_unsent 404 route_not_found
                  (log EvNotFound (log EvRouteHandler s)))
        as (s' & -> & Hd & Hc & _).
      + unfold Response.headersSent. cbn. now rewrite Hs.
      + rewrite stringify_route_not_found in Hd. auto.
    - cbn. lia.
    - cbn. lia.
    - reflexivity. }
  destruct (runMiddlewares _ _ _ _ _) as [[|e] st']; cbn [fst snd] in *.
  - exists st'. destruct HO as (_ & H1 & H2). auto.
  - destruct HO as [HO _]. discriminate.
Qed.

Lemma unmatched_request_behind_middleware_is_404_witness :
  exists st,
    handleRequest Examples.parse_a_is_1 Scenarios.late_middleware
                  (Examples.request "GET" "/nowhere" []) = (Resolved, st)
    /\ Response.delivered (res st) = Some (404%Z, route_not_found_text)
    /\ Response.content_type (res st) = Some "application/json".
Proof.
  apply (unmatched_request_behind_middleware_is_404
           Examples.parse_a_is_1 Scenarios.late_middleware
           (Examples.request "GET" "/nowhere" []) "/nowhere" eq_refl).
  - intros r [<-|[]]. reflexivity.
  - intros m [<-|[]]. reflexivity.
Defined.

(** *** A handler that answers, a handler that throws *)

Lemma status_json_sent (code : Z) (data : Json.value) (st : State) :
  Response.sent (res st) = None ->
  exists st',
    res_json data (res_status code st) = (Normal, st')
    /\ Response.sent (res st')
       = Some (code,
               Response.set_header "Content-Type" "application/json"
                                   (Response.headers (res st)),
               Some (Json.stringify data)).
Proof.
  intros H. unfold res_json, Response.json, Response.setHeader,
    Response.headersSent.
  cbn [res_status with_res res Response.status Response.sent].
  rewrite H. eexists. split; reflexivity.
Qed.

Section Chain.

Variable app : App.
Variable req : IncomingMessage.
Variable pathname : string.
Variables (pos : nat) (route : Route) (g : groups).
Hypothesis found :
  find_route (routes app) 0 (method req) pathname = Some (pos, route, g).
Variables (before after : list Handler) (h : Handler).
Hypothesis chain : handlers route = before ++ h :: after.
Hypothesis before_pass : forall b r, In b before -> passes (b r) = true.

Lemma handler_at (s : State) :
  j s = List.length before ->
  nth_error (before ++ h :: after) (j s) = Some h.
Proof.
  intros ->. rewrite nth_error_app2, Nat.sub_diag by lia. reflexivity.
Qed.

(** The handler after those that pass starts with
    [res.status(code).json(data)]. *)
Lemma routeHandler_answers (code : Z) (data : Json.value) (k : prog)
      (st : State) :
  (forall r, h r = Status code (Json data k)) ->
  Response.sent (res st) = None ->
  let r := routeHandler app req pathname st in
  (Response.delivered (res (snd r)) = Some (code, Json.stringify data)
   /\ Response.content_type (res (snd r)) = Some "application/json")
  /\ (silent k = true /\ next_calls k = 0 -> fst r = Normal).
Proof.
  intros Hbody Hst. cbv zeta. unfold routeHandler. rewrite found, chain.
  apply next_passes
    with (O := fun r =>
                 (Response.delivered (res (snd r))
                  = Some (code, Json.stringify data)
                  /\ Response.content_type (res (snd r))
                     = Some "application/json")
                 /\ (silent k = true /\ next_calls k = 0 -> fst r = Normal));
    auto.
  - cbn [fst snd]. intros s' s'' Hs [H _]. split; [|reflexivity].
    now apply sent_delivered with (s := s').
  - cbn [fst snd]. intros e s' [[Hd Hc] HN].
    destruct (res_json_cases internal_server_error
                (res_status 500 (log EvHandlerError s')))
      as [(e' & -> & _) | (r & _ & Hs & _)].
    + cbn [fst snd]. split; [|intros H; specialize (HN H); discriminate].
      now apply sent_delivered with (s := s').
    + unfold Response.headersSent, Response.delivered in *. cbn in Hs.
      destruct (Response.sent (res s')); discriminate.
  - intros fuel s Hj Hs Hfuel. cbn [List.length] in Hfuel.
    destruct fuel as [|fuel]; [lia|].
    rewrite next_unfold. cbv zeta. rewrite (handler_at s Hj), Hbody.
    cbn [run].
    set (s1 := log (EvHandler pos (j s)) _).
    destruct (status_json_sent code data s1 Hs) as (s2 & -> & Hsent).
    set (nxt := next req pos (before ++ h :: after) fuel).
    assert (Hkeep : forall s0,
              Response.sent (res s0) = Response.sent (res s2) ->
              Response.delivered (res s0) = Some (code, Json.stringify data)
              /\ Response.content_type (res s0) = Some "application/json").
    { intros s0 Hs0. unfold Response.delivered, Response.content_type.
      rewrite Hs0, Hsent. cbn. auto. }
    pose proof (run_sent _ _ _ nxt k s2
                  (fun s0 Hs0 => next_sent _ _ _ req pos (before ++ h :: after)
                                           fuel s0 Hs0) Hsent) as Hrun.
    split.
    + destruct (run nxt k s2) as [[|e] s3]; cbn [snd] in *.
      * apply Hkeep. now rewrite Hrun.
      * destruct (sent_res_json _ _ _ internal_server_error
                    (res_status 500 (log EvHandlerError s3)) Hrun)
          as (e' & ->).
        apply Hkeep. cbn. now rewrite Hrun.
    + intros [Hsil Hn]. destruct (run_quiet nxt k s2 Hsil Hn) as (s3 & -> & _).
      reflexivity.
  - rewrite <- chain. cbn. lia.
  - cbn. lia.
Qed.

(** The handler after those that pass throws. *)
Lemma routeHandler_catches (message : string) (st : State) :
  (forall r, throws (h r) = Some message) ->
  Response.sent (res st) = None ->
  let r := routeHandler app req pathname st in
  fst r = Normal
  /\ Response.delivered (res (snd r))
     = Some (500%Z, internal_server_error_text)
  /\ Response.content_type (res (snd r)) = Some "application/json".
Proof.
  intros Hbody Hst. cbv zeta. unfold routeHandler. rewrite found, chain.
  apply next_passes
    with (O := fun r =>
                 fst r = Normal
                 /\ Response.delivered (res (snd r))
                    = Some (500%Z, internal_server_error_text)
                 /\ Response.content_type (res (snd r))
                    = Some "application/json");
    auto.
  - cbn [fst snd]. intros s' s'' Hs [_ H]. split; [reflexivity|].
    now apply sent_delivered with (s := s').
  - cbn [fst]. intros e s' [H _]. discriminate.
  - intros fuel s Hj Hs Hfuel. cbn [List.length] in Hfuel.
    destruct fuel as [|fuel]; [lia|].
    rewrite next_unfold. cbv zeta. rewrite (handler_at s Hj).
    destruct (run_throws (next req pos (before ++ h :: after) fuel)
                (h (view req (log EvNext (set_j (S (j s)) s))))
                (log (EvHandler pos (j s)) (log EvNext (set_j (S (j s)) s)))
                message (Hbody _)) as (s' & -> & Hs').
    destruct (status_json_unsent 500 internal_server_error
                (log EvHandlerError s'))
      as (s'' & -> & Hd & Hc & _).
    + unfold Response.headersSent. cbn. rewrite Hs'. cbn. now rewrite Hs.
    + rewrite stringify_internal_server_error in Hd. auto.
  - rewrite <- chain. cbn. lia.
  - cbn. lia.
Qed.

End Chain.

Lemma informed_handlers (req : IncomingMessage) (g : groups) (v : Json.value)
      (hs : list Handler) (P : prog -> Prop) :
  (forall b, In b hs -> P (b (seen req g v))) ->
  forall b r, In b (map (informed req g v) hs) -> P (b r).
Proof.
  intros H b r Hin. apply in_map_iff in Hin as (b0 & <- & Hin). now apply H.
Qed.

(** X20. The way a request is answered when all goes well: when the
    middleware pass, the handlers of the matched route before some handler
    pass too, and that handler, given the captures and the parsed body,
    starts with [res.status(code).json(data)], for a code that [res.end]
    sends a body with (200 to 999, other than 204 and 304) and data whose
    numbers are integers that JavaScript holds exactly, the client
    receives that status and the JSON text of [data], sent as JSON,
    whatever the handler does next; and the promise resolves when the
    handler then does nothing more than effects of its own. *)
Theorem handler_chain_answers
        (JSON_parse : string -> option Json.value) (app : App)
        (req : IncomingMessage) (p : string)
        (pos : nat) (route : Route) (g : groups)
        (before after : list Handler) (h : Handler)
        (code : Z) (data : Json.value) (k : prog) :
  parsedUrl req = Pathname p ->
  find_route (routes app) 0 (method req) (normalize p) = Some (pos, route, g) ->
  (forall m, In m (middlewares app) ->
             passes (m (seen req [] (parsed_body JSON_parse req))) = true) ->
  handlers route = before ++ h :: after ->
  (forall b, In b before ->
             passes (b (seen req g (parsed_body JSON_parse req))) = true) ->
  h (seen req g (parsed_body JSON_parse req)) = Status code (Json data k) ->
  answerable code = true ->
  exact_numbers data = true ->
  let r := handleRequest JSON_parse app req in
  Response.delivered (res (snd r)) = Some (code, Json.stringify data)
  /\ Response.content_type (res (snd r)) = Some "application/json"
  /\ (silent k = true -> next_calls k = 0 -> fst r = Resolved).
Proof.
  intros Hp Hf Hm Hchain Hbefore Hbody _ _. cbv zeta.
  rewrite <- (handleRequest_informed JSON_parse app req p Hp).
  set (B := parsed_body JSON_parse req) in *.
  set (app' := inform req (normalize p) B app).
  unfold handleRequest. rewrite Hp, parseBody_state. fold B.
  assert (HO : (fun r =>
                  (Response.delivered (res (snd r))
                   = Some (code, Json.stringify data)
                   /\ Response.content_type (res (snd r))
                      = Some "application/json")
                  /\ (silent k = true /\ next_calls k = 0 -> fst r = Normal))
                 (runMiddlewares app' req (normalize p)
                    (List.length (middlewares app'))
                    {| res := Response.fresh; params := []; body := B;
                       i := 0; j := 0; trace := chunk_events req |})).
  { apply runMiddlewares_reaches_lookup.
    - cbn [fst snd]. intros s' s'' Hs [H _]. split; [|reflexivity].
      now apply sent_delivered with (s := s').
    - exact (informed_middleware req (normalize p) B app
               (fun q => passes q = true) Hm).
    - intros s Hs.
      apply routeHandler_answers
        with (pos := pos) (g := g) (h := informed req g B h)
             (before := map (informed req g B) before)
             (after := map (informed req g B) after)
             (route := {| route_method := route_method route;
                          route_regex := route_regex route;
                          handlers := map (informed req g B) (handlers route) |});
        auto.
      + unfold app'. cbn [inform routes]. now rewrite find_route_inform, Hf.
      + cbn [handlers]. rewrite Hchain, map_app. reflexivity.
      + exact (informed_handlers req g B before
                 (fun q => passes q = true) Hbefore).
    - cbn. lia.
    - cbn. lia.
    - reflexivity. }
  destruct HO as [[H1 H2] H3].
  destruct (runMiddlewares _ _ _ _ _) as [[|e] st'] eqn:Hrun;
    cbn [fst snd] in *.
  - repeat split; auto.
  - assert (Hsent : Response.headersSent (res st') = true).
    { unfold Response.delivered, Response.headersSent in *.
      destruct (Response.sent (res st')); [reflexivity|discriminate]. }
    unfold top_level_catch, Response.writeHead. cbn [log res].
    rewrite Hsent. cbn [fst snd res log]. repeat split; auto.
    intros Hs Hn. now specialize (H3 (conj Hs Hn)).
Qed.

Lemma handler_chain_answers_witness :
  Response.delivered
    (res (snd (handleRequest Examples.parse_a_is_1 Scenarios.guarded
                 (Examples.request "POST" "/items/42/" ["{}"]))))
  = Some (201%Z, Json.stringify (Json.Obj [("id", Json.Str "42")]))
  /\ Response.content_type
       (res (snd (handleRequest Examples.parse_a_is_1 Scenarios.guarded
                    (Examples.request "POST" "/items/42/" ["{}"]))))
     = Some "application/json"
  /\ fst (handleRequest Examples.parse_a_is_1 Scenarios.guarded
            (Examples.request "POST" "/items/42/" ["{}"])) = Resolved.
Proof.
  destruct (handler_chain_answers
              Examples.parse_a_is_1 Scenarios.guarded
              (Examples.request "POST" "/items/42/" ["{}"]) "/items/42/"
              0 _ [("id", "42")] [Scenarios.logging "guard"] []
              Scenarios.created 201
              (Json.Obj [("id", Json.Str "42")]) Return
              eq_refl eq_refl)
    as (H1 & H2 & H3).
  - intros m [<-|[]]. reflexivity.
  - reflexivity.
  - intros b [<-|[]]. reflexivity.
  - reflexivity.
  - reflexivity.
  - reflexivity.
  - repeat split; auto.
Defined.

(** X21. When the middleware pass, the handlers of the matched route
    before some handler pass too, and that handler, given the captures and
    the parsed body, throws before it responds or calls [next], the
    request is answered with status 500 and body
    [{"error":"Internal Server Error"}], sent as JSON; the handlers and
    the middleware that passed return normally and the promise
    resolves. *)
Theorem handler_error_behind_passing_bodies_is_500
        (JSON_parse : string -> option Json.value) (app : App)
        (req : IncomingMessage) (p : string)
        (pos : nat) (route : Route) (g : groups)
        (before after : list Handler) (h : Handler) (message : string) :
  parsedUrl req = Pathname p ->
  find_route (routes app) 0 (method req) (normalize p) = Some (pos, route, g) ->
  (forall m, In m (middlewares app) ->
             passes (m (seen req [] (parsed_body JSON_parse req))) = true) ->
  handlers route = before ++ h :: after ->
  (forall b, In b before ->
             passes (b (seen req g (parsed_body JSON_parse req))) = true) ->
  throws (h (seen req g (parsed_body JSON_parse req))) = Some message ->
  exists st,
    handleRequest JSON_parse app req = (Resolved, st)
    /\ Response.delivered (res st)
       = Some (500%Z, internal_server_error_text)
    /\ Response.content_type (res st) = Some "application/json".
Proof.
  intros Hp Hf Hm Hchain Hbefore Hbody.
  rewrite <- (handleRequest_informed JSON_parse app req p Hp).
  set (B := parsed_body JSON_parse req) in *.
  set (app' := inform req (normalize p) B app).
  unfold handleRequest. rewrite Hp, parseBody_state. fold B.
  assert (HO : (fun r =>
                  fst r = Normal
                  /\ Response.delivered (res (snd r))
                     = Some (500%Z, internal_server_error_text)
                  /\ Response.content_type (res (snd r))
                     = Some "application/json")
                 (runMiddlewares app' req (normalize p)
                    (List.length (middlewares app'))
                    {| res := Response.fresh; params := []; body := B;
                       i := 0; j := 0; trace := chunk_events req |})).
  { apply runMiddlewares_reaches_lookup.
    - cbn [fst snd]. intros s' s'' Hs [_ H]. split; [reflexivity|].
      now apply sent_delivered with (s := s').
    - exact (informed_middleware req (normalize p) B app
               (fun q => passes q = true) Hm).
    - intros s Hs.
      apply routeHandler_catches
        with (pos := pos) (g := g) (h := informed req g B h)
             (before := map (informed req g B) before)
             (after := map (informed req g B) after)
             (message := message)
             (route := {| route_method := route_method route;
                          route_regex := route_regex route;
                          handlers := map (informed req g B) (handlers route) |});
        auto.
      + unfold app'. cbn [inform routes]. now rewrite find_route_inform, Hf.
      + cbn [handlers]. rewrite Hchain, map_app. reflexivity.
      + exact (informed_handlers req g B before
                 (fun q => passes q = true) Hbefore).
    - cbn. lia.
    - cbn. lia.
    - reflexivity. }
  destruct (runMiddlewares _ _ _ _ _) as [[|e] st']; cbn [fst snd] in *.
  - exists st'. destruct HO as (_ & H1 & H2). auto.
  - destruct HO as [HO _]. discriminate.
Qed.

Lemma handler_error_behind_passing_bodies_is_500_witness :
  exists st,
    handleRequest Examples.parse_a_is_1 Scenarios.failing_behind
                  (Examples.request "GET" "/x" []) = (Resolved, st)
    /\ Response.delivered (res st)
       = Some (500%Z, internal_server_error_text)
    /\ Response.content_type (res st) = Some "application/json".
Proof.
  apply (handler_error_behind_passing_bodies_is_500
           Examples.parse_a_is_1 Scenarios.failing_behind
           (Examples.request "GET" "/x" []) "/x"
           0 _ [] [Scenarios.logging "guard"] [] (Examples.fail "boom") "boom"
           eq_refl eq_refl).
  - intros m [<-|[]]. reflexivity.
  - reflexivity.
  - intros b [<-|[]]. reflexivity.
  - reflexivity.
Defined.

(** X22. When the middleware before some middleware pass and that
    middleware, given the request, throws before it responds or calls
    [next], the exception goes through the middleware that called it and
    reaches the top-level catch: the request is answered with status 500
    and body [{"error":"Server error","message":<the message>}], sent as
    JSON, no route is looked up and no handler runs, and the promise
    resolves. *)
Theorem middleware_error_behind_passing_middleware_is_500
        (JSON_parse : string -> option Json.value) (app : App)
        (req : IncomingMessage) (p : string)
        (before after : list Handler) (m : Handler) (message : string) :
  parsedUrl req = Pathname p ->
  middlewares app = before ++ m :: after ->
  (forall b, In b before ->
             passes (b (seen req [] (parsed_body JSON_parse req))) = true) ->
  throws (m (seen req [] (parsed_body JSON_parse req))) = Some message ->
  exists st,
    handleRequest JSON_parse app req = (Resolved, st)
    /\ Response.delivered (res st) = Some (500%Z, server_error_text message)
    /\ Response.content_type (res st) = Some "application/json"
    /\ forall e, In e (trace st) -> routing_event e = false.
Proof.
  intros Hp Hchain Hbefore Hbody.
  rewrite <- (handleRequest_informed JSON_parse app req p Hp).
  set (B := parsed_body JSON_parse req) in *.
  set (app' := inform req (normalize p) B app).
  assert (Hchain' : middlewares app'
                    = map (informed req [] B) before
                      ++ informed req [] B m :: map (informed req [] B) after).
  { unfold app'. cbn [inform middlewares]. now rewrite Hchain, map_app. }
  assert (Hquiet : forall e,
             In e (trace (snd (handleRequest JSON_parse app' req))) ->
             routing_event e = false).
  { pose proof (handleRequest_veto app' req
                  (map (informed req [] B) before)
                  (map (informed req [] B) after)
                  (informed req [] B m) Hchain') as Hveto.
    intros e He.
    assert (Hev : before_routing (List.length (map (informed req [] B) before)) e).
    { eapply Forall_forall; [|exact He].
      apply Hveto with (p := p); auto.
      - intros b r Hin.
        apply (informed_handlers req [] B before
                 (fun q => next_calls q <= 1)); [|exact Hin].
        intros b0 Hb0. apply Hbefore, passes_cases in Hb0 as [_ ->]. lia.
      - intros r. unfold informed. eapply throws_stops. exact Hbody. }
    destruct e; cbn in *; auto; contradiction. }
  revert Hquiet.
  unfold handleRequest. rewrite Hp, parseBody_state. fold B.
  assert (HO : (fun r => exists s', r = (Thrown message, s')
                                    /\ Response.sent (res s') = None)
                 (runMiddlewares app' req (normalize p)
                    (List.length (middlewares app'))
                    {| res := Response.fresh; params := []; body := B;
                       i := 0; j := 0; trace := chunk_events req |})).
  { apply runMiddlewares_passes
      with (before := map (informed req [] B) before)
           (rest := informed req [] B m :: map (informed req [] B) after).
    - intros s' s'' _ (s0 & H & _). discriminate.
    - exact Hchain'.
    - exact (informed_handlers req [] B before
               (fun q => passes q = true) Hbefore).
    - intros fuel s Hi Hs Hfuel. cbn [List.length] in Hfuel.
      destruct fuel as [|fuel]; [lia|].
      rewrite runMiddlewares_unfold. cbv zeta.
      rewrite Hchain', nth_error_app2, Hi, Nat.sub_diag by lia.
      cbn [nth_error].
      destruct (run_throws (runMiddlewares app' req (normalize p) fuel)
                  (informed req [] B m
                     (view req (log EvRunMiddlewares
                                    (set_i (S (List.length
                                                 (map (informed req [] B) before)))
                                           s))))
                  (log (EvMiddleware (List.length (map (informed req [] B) before)))
                       (log EvRunMiddlewares
                            (set_i (S (List.length
                                         (map (informed req [] B) before))) s)))
                  message Hbody) as (s' & -> & Hs').
      exists s'. split; [reflexivity|]. rewrite Hs'. exact Hs.
    - cbn. lia.
    - cbn. lia.
    - reflexivity. }
  destruct HO as (s' & -> & Hs'). intros Hquiet.
  unfold top_level_catch, Response.writeHead, Response.headersSent in *.
  cbn [log res] in *. rewrite Hs' in *.
  eexists. split; [reflexivity|].
  rewrite <- stringify_server_error. repeat split. exact Hquiet.
Qed.

Lemma middleware_error_behind_passing_middleware_is_500_witness :
  exists st,
    handleRequest Examples.parse_a_is_1 Scenarios.denying
                  (Examples.request "GET" "/x" []) = (Resolved, st)
    /\ Response.delivered (res st) = Some (500%Z, server_error_text "denied")
    /\ Response.content_type (res st) = Some "application/json"
    /\ forall e, In e (trace st) -> routing_event e = false.
Proof.
  apply (middleware_error_behind_passing_middleware_is_500
           Examples.parse_a_is_1 Scenarios.denying
           (Examples.request "GET" "/x" []) "/x"
           [Scenarios.logging "log"] [] (fun _ => Effect "check" (Throw "denied"))
           "denied" eq_refl eq_refl).
  - intros b [<-|[]]. reflexivity.
  - reflexivity.
Defined.

(** *** The veto of a middleware, and the response it leaves *)

(** A body that does not call [next] makes of the response, and ends,
    the same way in any two states with the same response. *)
Lemma run_res (nxt nxt' : State -> result) (p : prog) (s s' : State) :
  calls_next p = false -> res s = res s' ->
  fst (run nxt p s) = fst (run nxt' p s')
  /\ res (snd (run nxt p s)) = res (snd (run nxt' p s')).
Proof.
  revert s s'. induction p as [|m|tag k IH|c k IH|data k IH|k IH];
    intros s s' Hp Hs; cbn [run calls_next fst snd] in *; auto.
  - apply IH; [assumption|]. cbn. now rewrite Hs.
  - unfold res_json. rewrite <- Hs.
    destruct (Response.json data (res s)) as [e|r]; cbn [fst snd]; auto.
  - discriminate.
Qed.

Lemma top_level_catch_res (message : string) (s s' : State) :
  res s = res s' ->
  fst (top_level_catch message s) = fst (top_level_catch message s')
  /\ res (snd (top_level_catch message s))
     = res (snd (top_level_catch message s')).
Proof.
  intros Hs. unfold top_level_catch. cbn [log res]. rewrite <- Hs.
  destruct (Response.writeHead _ _ _ _); cbn; auto.
Qed.

(** A body that passes calls its continuation on the response it was
    given, with the status code it set until then. *)
Lemma run_hands_over (nxt : State -> result) (p : prog) (c : Z) (st : State) :
  passes p = true ->
  res st = Response.status c Response.fresh ->
  exists s,
    res s = Response.status (status_at_next c p) Response.fresh
    /\ i s = i st
    /\ match nxt s with
       | (Normal, s') =>
           exists s'', run nxt p st = (Normal, s'')
                       /\ Response.sent (res s'') = Response.sent (res s')
       | (Thrown e, s') => run nxt p st = (Thrown e, s')
       end.
Proof.
  intros Hp. apply passes_cases in Hp as [Hs Hn]. revert c st Hs Hn.
  induction p as [|m|tag k IH|c' k IH|data k IH|k IH]; intros c st Hs Hn Hst;
    cbn [run silent next_calls status_at_next] in *; try discriminate.
  - apply (IH c (log (EvEffect tag) st)); auto.
  - destruct (IH c' (res_status c' st) Hs Hn) as (s & H1 & H2 & H3).
    + cbn. rewrite Hst. reflexivity.
    + exists s. auto.
  - exists st. split; [exact Hst|]. split; [reflexivity|].
    destruct (nxt st) as [[|e] s']; [|reflexivity].
    apply run_quiet; [assumption|lia].
Qed.

Lemma skipn_nth_error {A : Type} (l : list A) (n : nat) (x : A) :
  nth_error l n = Some x -> skipn n l = x :: skipn (S n) l.
Proof.
  revert n. induction l as [|y l IH]; intros [|n] H; try discriminate.
  - now inversion H.
  - cbn [skipn]. now apply IH.
Qed.

Section Vetoed.

Variable app : App.
Variable req : IncomingMessage.
Variable pathname : string.
Variables before after : list Handler.
Variable blocker : Handler.
Variable given : Request.
Hypothesis chain : middlewares app = before ++ blocker :: after.
Hypothesis before_given : forall m r, In m before -> m r = m given.
Hypothesis before_pass : forall m, In m before -> passes (m given) = true.
Hypothesis blocker_given : forall r, blocker r = blocker given.
Hypothesis blocker_stops : calls_next (blocker given) = false.

(** The chain ends as the body of the middleware that stops does, on the
    response as the middleware before it hand it over. *)
Lemma runMiddlewares_vetoed (fuel : nat) (st : State) (c : Z) :
  List.length (middlewares app) - i st <= fuel ->
  i st <= List.length before ->
  res st = Response.status c Response.fresh ->
  forall nxt s,
    res s = Response.status
              (fold_left (fun c m => status_at_next c (m given))
                         (skipn (i st) before) c)
              Response.fresh ->
    match run nxt (blocker given) s with
    | (Normal, s') =>
        fst (runMiddlewares app req pathname fuel st) = Normal
        /\ Response.sent (res (snd (runMiddlewares app req pathname fuel st)))
           = Response.sent (res s')
    | (Thrown e, s') =>
        fst (runMiddlewares app req pathname fuel st) = Thrown e
        /\ res (snd (runMiddlewares app req pathname fuel st)) = res s'
    end.
Proof.
  assert (Hlen : List.length (middlewares app)
                 = List.length before + S (List.length after))
    by (rewrite chain, length_app; reflexivity).
  revert st c. induction fuel as [|fuel IH]; intros st c Hfuel Hi Hst nxt s Hs;
    [lia|].
  rewrite runMiddlewares_unfold. cbv zeta.
  set (st1 := log EvRunMiddlewares (set_i (S (i st)) st)).
  destruct (Nat.eq_dec (i st) (List.length before)) as [He|Hne].
  - rewrite chain, nth_error_app2, He, Nat.sub_diag by lia. cbn [nth_error].
    rewrite He, skipn_all in Hs. cbn [fold_left] in Hs.
    rewrite (blocker_given (view req st1)).
    destruct (run_res nxt (runMiddlewares app req pathname fuel)
                (blocker given) s
                (log (EvMiddleware (List.length before)) st1) blocker_stops)
      as [Hf Hr].
    { rewrite Hs. cbn. now rewrite Hst. }
    destruct (run nxt (blocker given) s) as [[|e] s'];
      destruct (run _ (blocker given) _) as [[|e'] s2]; cbn [fst snd] in *;
      try discriminate.
    + split; [reflexivity|]. now rewrite Hr.
    + inversion Hf; subst. split; [reflexivity|]. now rewrite Hr.
  - destruct (nth_error before (i st)) as [m|] eqn:Hnth;
      [|apply nth_error_None in Hnth; lia].
    pose proof (nth_error_In _ _ Hnth) as Hin.
    rewrite chain, nth_error_app1, Hnth by lia.
    rewrite (skipn_nth_error _ _ _ Hnth) in Hs. cbn [fold_left] in Hs.
    rewrite (before_given m _ Hin).
    destruct (run_hands_over (runMiddlewares app req pathname fuel)
                (m given) c (log (EvMiddleware (i st)) st1)
                (before_pass m Hin))
      as (s0 & Hres & Hi0 & Hrun).
    { cbn. exact Hst. }
    cbn in Hi0.
    assert (IHs := IH s0 (status_at_next c (m given)) ltac:(lia) ltac:(lia)
                      Hres nxt s).
    rewrite Hi0 in IHs. specialize (IHs Hs).
    destruct (run nxt (blocker given) s) as [[|e] s'].
    + destruct IHs as [H1 H2].
      destruct (runMiddlewares app req pathname fuel s0) as [[|e0] s1];
        cbn [fst snd] in *; [|discriminate].
      destruct Hrun as (s2 & -> & Hsent). cbn [fst snd].
      split; [reflexivity|]. now rewrite Hsent.
    + destruct IHs as [H1 H2].
      destruct (runMiddlewares app req pathname fuel s0) as [[|e0] s1];
        cbn [fst snd] in *; [discriminate|].
      inversion H1; subst. rewrite Hrun. cbn [fst snd]. auto.
Qed.

End Vetoed.

Lemma status_behind_informed (req : IncomingMessage) (v : Json.value)
      (before : list Handler) (c : Z) :
  fold_left (fun c m => status_at_next c (m (seen req [] v)))
            (map (informed req [] v) before) c
  = fold_left (fun c m => status_at_next c (m (seen req [] v))) before c.
Proof.
  revert c. induction before as [|m l IH]; intros c; [reflexivity|].
  cbn [map fold_left]. now rewrite IH.
Qed.

(** C3, as stated, fails for its last part: a middleware calls [next] and
    responds once that call has returned; the middleware after it neither
    calls [next] nor responds, nor throws, and [runMiddlewares] is not
    called again; yet the request does not end without a response, as
    that middleware left it: the client receives the response of the
    first one. *)
Lemma an_earlier_middleware_answers_after_the_veto :
  middlewares Scenarios.answering_late
  = [Scenarios.answers_late; Examples.stop "auth"]
  /\ (forall r, calls_next (Examples.stop "auth" r) = false
                /\ silent (Examples.stop "auth" r) = true)
  /\ trace (snd (handleRequest Examples.parse_a_is_1 Scenarios.answering_late
                   (Examples.request "GET" "/x" [])))
     = [EvRunMiddlewares; EvMiddleware 0; EvRunMiddlewares; EvMiddleware 1;
        EvEffect "auth"]
  /\ Response.delivered
       (res (snd (handleRequest Examples.parse_a_is_1 Scenarios.answering_late
                    (Examples.request "GET" "/x" []))))
     = Some (200%Z, Json.stringify (Json.Obj [("late", Json.Bool true)])).
Proof. repeat split. Qed.

(** C3, amended.  Once a middleware was invoked, as long as
    [runMiddlewares] (the continuation every middleware is given) is not
    called again, by it or by anyone after it: no later middleware runs
    (every middleware that ran stands before it in the chain), the routes
    are not looked up, no route handler is invoked and the 404 response
    is not written.  That is the case when the body of a middleware does
    not call [next] and each middleware before it calls [next] at most
    once: then no middleware after it runs, and there is no lookup, no
    handler and no 404 in the whole request.  A response that was sent is
    final: whatever a middleware does once its call of [next] has
    returned, and the top-level catch, leave what was sent as it is.  And
    when the middleware before the one that does not call [next] pass
    (each, given the request, calls [next] exactly once, writes no
    response and does not throw), the request ends as the body of that
    middleware does on the fresh response, with the status code in force
    when it is invoked: if it returns, the promise resolves and what was
    sent, or that nothing was, is as it left it; if it throws, the
    top-level catch runs on the response as it left it.  This is stated
    for a body that, if it responds, does so with a status code that
    [res.end] sends a body with and with numbers that are exact. *)
Theorem middleware_veto
        (JSON_parse : string -> option Json.value) (app : App)
        (req : IncomingMessage) (t1 t2 : list event) (k : nat)
        (p : string) (before after : list Handler) (blocker : Handler) :
  (trace (snd (handleRequest JSON_parse app req))
   = t1 ++ EvMiddleware k :: t2 ->
   ~ In EvRunMiddlewares t2 ->
   (forall k', In (EvMiddleware k') (t1 ++ t2) -> k' < k)
   /\ ~ In EvRouteHandler (t1 ++ t2)
   /\ (forall route j, ~ In (EvHandler route j) (t1 ++ t2))
   /\ ~ In EvNotFound (t1 ++ t2))
  /\ (parsedUrl req = Pathname p ->
      middlewares app = before ++ blocker :: after ->
      (forall m r, In m before -> next_calls (m r) <= 1) ->
      (forall r, calls_next (blocker r) = false) ->
      let events := trace (snd (handleRequest JSON_parse app req)) in
      (forall k', In (EvMiddleware k') events -> k' <= List.length before)
      /\ ~ In EvRouteHandler events
      /\ (forall route j, ~ In (EvHandler route j) events)
      /\ ~ In EvNotFound events)
  /\ (forall pathname st code hs text,
        Response.sent (res st) = Some (code, hs, Some text) ->
        (forall rest fuel,
           Response.sent
             (res (snd (run (runMiddlewares app req pathname fuel) rest st)))
           = Some (code, hs, Some text))
        /\ forall message,
             Response.sent (res (snd (top_level_catch message st)))
             = Some (code, hs, Some text))
  /\ (parsedUrl req = Pathname p ->
      middlewares app = before ++ blocker :: after ->
      let given := seen req [] (parsed_body JSON_parse req) in
      (forall m, In m before -> passes (m given) = true) ->
      calls_next (blocker given) = false ->
      answers_well (status_behind given before) (blocker given) = true ->
      forall nxt s,
        res s = Response.status (status_behind given before) Response.fresh ->
        let r := handleRequest JSON_parse app req in
        match run nxt (blocker given) s with
        | (Normal, s') =>
            fst r = Resolved
            /\ Response.sent (res (snd r)) = Response.sent (res s')
        | (Thrown e, s') =>
            fst r = fst (top_level_catch e s')
            /\ Response.sent (res (snd r))
               = Response.sent (res (snd (top_level_catch e s')))
        end).
Proof.
  split; [|split; [|split]].
  - intros Htrace Hquiet.
    pose proof (handleRequest_well_formed JSON_parse app req) as Hwf.
    rewrite Htrace in Hwf.
    destruct (veto_trace t1 t2 k Hwf Hquiet) as (H1 & H2 & H3).
    repeat split.
    + intros k' Hin. apply in_app_or in Hin as [Hin | Hin]; [now apply H1|].
      now destruct (H2 k').
    + intros Hin. now specialize (H3 _ Hin).
    + intros route j Hin. now specialize (H3 _ Hin).
    + intros Hin. now specialize (H3 _ Hin).
  - intros Hp Hchain Honce Hstops events.
    pose proof (handleRequest_veto app req before after blocker Hchain Honce
                  Hstops (List.length before) eq_refl JSON_parse p Hp) as H.
    fold events in H. rewrite Forall_forall in H.
    repeat split.
    + intros k' Hin. exact (H _ Hin).
    + intros Hin. exact (H _ Hin).
    + intros route j Hin. exact (H _ Hin).
    + intros Hin. exact (H _ Hin).
  - intros pathname st code hs text Hst. split.
    + intros rest fuel. apply run_sent; [|exact Hst].
      intros s Hs. now apply runMiddlewares_sent.
    + intros message. now apply top_level_catch_sent.
  - intros Hp Hchain. cbv zeta. intros Hbefore Hstops _ nxt s Hs.
    rewrite <- (handleRequest_informed JSON_parse app req p Hp).
    set (B := parsed_body JSON_parse req) in *.
    set (given := seen req [] B) in *.
    set (app' := inform req (normalize p) B app).
    unfold handleRequest. rewrite Hp, parseBody_state. fold B.
    assert (Hv := runMiddlewares_vetoed app' req (normalize p)
                    (map (informed req [] B) before)
                    (map (informed req [] B) after)
                    (informed req [] B blocker) given).
    assert (Hlen : List.length (middlewares app')
                   = List.length (middlewares app))
      by (unfold app'; cbn [inform middlewares]; apply length_map).
    rewrite Hlen.
    specialize (Hv ltac:(unfold app'; cbn [inform middlewares];
                         rewrite Hchain, map_app; reflexivity)).
    specialize (Hv ltac:(intros m r Hin;
                         apply in_map_iff in Hin as (m0 & <- & _);
                         reflexivity)).
    specialize (Hv (fun m Hin => informed_handlers req [] B before
                                   (fun q => passes q = true) Hbefore
                                   m given Hin)).
    specialize (Hv (fun _ => eq_refl) Hstops
                   (List.length (middlewares app))
                   {| res := Response.fresh; params := []; body := B;
                      i := 0; j := 0; trace := chunk_events req |}
                   200%Z ltac:(cbn [i]; rewrite Hlen; lia) ltac:(cbn [i]; lia)
                   eq_refl nxt s).
    cbn [i skipn] in Hv.
    pose proof (status_behind_informed req B before 200%Z) as Hsb.
    fold given in Hsb. rewrite Hsb in Hv. clear Hsb.
    specialize (Hv Hs). unfold informed at 1 in Hv. fold given in Hv.
    destruct (run nxt (blocker given) s) as [[|e] s'];
      destruct Hv as [H1 H2];
      destruct (runMiddlewares app' req (normalize p) _ _) as [[|e'] st'];
      cbn [fst snd] in *; try discriminate.
    + auto.
    + inversion H1; subst.
      destruct (top_level_catch_res e st' s' H2) as [Hf Hr].
      split; [exact Hf|]. now rewrite Hr.
Qed.

Lemma middleware_veto_witness :
  trace (snd (handleRequest Examples.parse_a_is_1 Examples.vetoing
                (Examples.request "GET" "/x" [])))
  = [EvRunMiddlewares; EvMiddleware 0; EvRunMiddlewares]
      ++ EvMiddleware 1 :: [EvEffect "auth"]
  /\ ~ In EvRouteHandler
       ([EvRunMiddlewares; EvMiddleware 0; EvRunMiddlewares] ++ [EvEffect "auth"])
  /\ (forall route j,
        ~ In (EvHandler route j)
             (trace (snd (handleRequest Examples.parse_a_is_1 Examples.vetoing
                            (Examples.request "GET" "/x" [])))))
  /\ fst (handleRequest Examples.parse_a_is_1 Examples.vetoing
            (Examples.request "GET" "/x" [])) = Resolved
  /\ Response.sent
       (res (snd (handleRequest Examples.parse_a_is_1 Examples.vetoing
                    (Examples.request "GET" "/x" [])))) = None
  /\ Response.delivered
       (res (snd (handleRequest Examples.parse_a_is_1
                    Scenarios.responds_then_throws
                    (Examples.request "GET" "/x" []))))
     = Some (200%Z, Json.stringify (Json.Obj [("ok", Json.Bool true)])).
Proof.
  destruct (middleware_veto Examples.parse_a_is_1 Examples.vetoing
              (Examples.request "GET" "/x" [])
              [EvRunMiddlewares; EvMiddleware 0; EvRunMiddlewares]
              [EvEffect "auth"] 1 "/x"
              [Examples.pass] [Examples.stop "late"] (Examples.stop "auth"))
    as (H1 & H2 & _ & H4).
  destruct (H4 eq_refl eq_refl
              (fun m (H : In m [Examples.pass]) =>
                 match H with
                 | or_introl e => match e with eq_refl => eq_refl end
                 | or_intror f => match f with end
                 end)
              eq_refl eq_refl (fun s => (Normal, s)) initial eq_refl)
    as [Hresolved Hunsent].
  split; [reflexivity|]. split; [|split; [|split; [|split]]].
  - apply H1; [reflexivity|]. intros [H | []]; discriminate H.
  - apply H2; try reflexivity.
    intros m r [<- | []]. cbn. lia.
  - exact Hresolved.
  - exact Hunsent.
  - destruct (middleware_veto Examples.parse_a_is_1
                Scenarios.responds_then_throws
                (Examples.request "GET" "/x" []) [] [] 0 "/x" [] []
                (fun _ => Json (Json.Obj [("ok", Json.Bool true)])
                               (Throw "late")))
      as (_ & _ & _ & H).
    destruct (H eq_refl eq_refl (fun m (F : In m []) => match F with end)
                eq_refl eq_refl (fun s => (Normal, s)) initial eq_refl)
      as [_ Hsent].
    unfold Response.delivered. rewrite Hsent. reflexivity.
Defined.

(** *** The file watcher *)

Module WatchFacts.
Import Str StrFacts Watch.
#[local] Open Scope list_scope.

Lemma Dirent_forall (P : Dirent -> Prop) :
  (forall name, P (File name)) ->
  (forall name entries, Forall P entries -> P (Directory name entries)) ->
  (forall name, P (Other name)) ->
  forall entry, P entry.
Proof.
  intros HF HD HO. fix IH 1. intros [name|name entries|name].
  - apply HF.
  - apply HD. induction entries as [|e es IHes]; constructor;
      [apply IH | exact IHes].
  - apply HO.
Qed.

Lemma entered_skip (name : string) :
  (String.eqb name "node_modules" || startsWith name ".") = negb (entered name).
Proof.
  unfold entered.
  destruct (String.eqb name "node_modules"), (startsWith name "."); reflexivity.
Qed.

Lemma path_of_nil (dir name : string) :
  path_of dir [] name = path_join dir name.
Proof. reflexivity. Qed.

Lemma path_of_cons (dir d : string) (ds : list string) (name : string) :
  path_of dir (d :: ds) name = path_of (path_join dir d) ds name.
Proof. reflexivity. Qed.

Lemma located_file (f : string) (dirs : list string) (name : string) :
  located [File f] dirs name <-> dirs = [] /\ name = f.
Proof.
  destruct dirs as [|d ds]; cbn; split.
  - intros [H|[]]. inversion H. auto.
  - intros [_ ->]. now left.
  - intros (sub & [H|[]] & _). discriminate.
  - intros [H _]. discriminate.
Qed.

Lemma located_other (f : string) (dirs : list string) (name : string) :
  ~ located [Other f] dirs name.
Proof.
  destruct dirs as [|d ds]; cbn.
  - intros [H|[]]. discriminate.
  - intros (sub & [H|[]] & _). discriminate.
Qed.

Lemma located_directory (d : string) (sub : list Dirent) (dirs : list string)
      (name : string) :
  located [Directory d sub] dirs name <->
  exists ds, dirs = d :: ds /\ located sub ds name.
Proof.
  destruct dirs as [|d' ds]; cbn; split.
  - intros [H|[]]. discriminate.
  - intros (ds & H & _). discriminate.
  - intros (sub' & [H|[]] & Hl). inversion H; subst. eauto.
  - intros (ds' & H & Hl). inversion H; subst. exists sub. split; [now left|auto].
Qed.

Lemma located_one (entries : list Dirent) (dirs : list string) (name : string) :
  located entries dirs name <-> exists e, In e entries /\ located [e] dirs name.
Proof.
  destruct dirs as [|d ds]; cbn.
  - split.
    + intros H. exists (File name). auto.
    + intros (e & He & [<-|[]]). exact He.
  - split.
    + intros (sub & Hin & Hl). exists (Directory d sub). split; [assumption|].
      exists sub. auto.
    + intros (e & He & sub & [->|[]] & Hl). eauto.
Qed.

Lemma watchEntry_located (entry : Dirent) :
  forall dir path,
    In path (watchEntry dir entry) <->
    exists dirs name,
      located [entry] dirs name /\ List.forallb entered dirs = true
      /\ path = path_of dir dirs name /\ endsWith path ".js" = true.
Proof.
  induction entry as [f|d sub IH|f] using Dirent_forall; intros dir path.
  - change (watchEntry dir (File f))
      with (if endsWith (path_join dir f) ".js" then [path_join dir f] else []).
    split.
    + destruct (endsWith (path_join dir f) ".js") eqn:He; [|intros []].
      intros [<-|[]]. exists [], f. rewrite path_of_nil, He.
      repeat split. now left.
    + intros (dirs & name & Hl & _ & -> & He).
      apply located_file in Hl as [-> ->]. rewrite path_of_nil in *.
      rewrite He. now left.
  - change (watchEntry dir (Directory d sub))
      with (if String.eqb d "node_modules" || startsWith d "." then []
            else flat_map (watchEntry (path_join dir d)) sub).
    rewrite entered_skip. rewrite Forall_forall in IH. split.
    + destruct (entered d) eqn:Hd; [|intros []]. cbn [negb].
      intros Hin. apply in_flat_map in Hin as (e & He & Hin).
      apply (IH e He) in Hin as (dirs & name & Hl & Hv & -> & Hjs).
      exists (d :: dirs), name. rewrite path_of_cons. cbn [List.forallb].
      rewrite Hd, Hv. repeat split; auto.
      apply located_directory. exists dirs. split; [reflexivity|].
      apply located_one. eauto.
    + intros (dirs & name & Hl & Hv & -> & Hjs).
      apply located_directory in Hl as (ds & -> & Hl).
      cbn [List.forallb] in Hv. apply andb_true_iff in Hv as [Hd Hv].
      rewrite Hd. cbn [negb]. rewrite path_of_cons in *.
      apply located_one in Hl as (e & He & Hl).
      apply in_flat_map. exists e. split; [assumption|].
      apply (IH e He). exists ds, name. auto.
  - split; [intros []|].
    intros (dirs & name & Hl & _). now apply located_other in Hl.
Qed.

(** *** Timers and processes *)

Lemma listener_one_pending (filePath : string) (w : Watcher) :
  one_pending w ->
  timers (listener filePath w) = [(timers_set w, filePath)]
  /\ debounceTimeout (listener filePath w) = Some (timers_set w).
Proof.
  intros [Hnone | (id & f & Ht & Hd)]; unfold listener, clearTimeout.
  - destruct (debounceTimeout w); cbn; rewrite Hnone; auto.
  - rewrite Hd. cbn. rewrite Ht. cbn. rewrite Nat.eqb_refl. auto.
Qed.

Lemma expire_one_pending (id : nat) (w : Watcher) :
  one_pending w -> one_pending (expire id w).
Proof.
  intros Hw. unfold expire.
  destruct Hw as [Hnone | (id' & f & Ht & Hd)].
  - rewrite Hnone. cbn. now left.
  - rewrite Ht. cbn. destruct (Nat.eqb_spec id' id) as [->|Hne]; cbn.
    + left. reflexivity.
    + right. eauto.
Qed.

Lemma react_one_pending (w : Watcher) (h : happening) :
  one_pending w -> one_pending (react w h).
Proof.
  intros Hw. destruct h as [f|id]; cbn.
  - destruct (listener_one_pending f w Hw) as [H1 H2]. right. eauto.
  - now apply expire_one_pending.
Qed.

Lemma startServer_one_server (w : Watcher) :
  (nodeProcess w = None /\ spawned w = 0 /\ killed w = []) \/ one_server w ->
  one_server (startServer w).
Proof.
  intros [(Hn & Hs & Hk) | (p & Hp & Hs & Hk)]; unfold one_server; cbn.
  - exists 0. rewrite Hn, Hs, Hk. repeat split; auto; [lia|intros []].
  - exists (S p). rewrite Hp, Hs. repeat split; auto.
    + intros Hq. apply in_or_app.
      destruct (Nat.eq_dec q p) as [->|Hne]; [right; now left|].
      left. apply Hk. lia.
    + intros Hq. apply in_app_or in Hq as [Hq|[<-|[]]]; [|lia].
      apply Hk in Hq. lia.
Qed.

Lemma react_one_server (w : Watcher) (h : happening) :
  one_server w -> one_server (react w h).
Proof.
  intros Hw. destruct h as [f|id]; cbn.
  - unfold listener, clearTimeout. destruct (debounceTimeout w); exact Hw.
  - unfold expire. destruct (find _ _) as [[? f]|]; [|exact Hw].
    apply startServer_one_server. right. exact Hw.
Qed.

Lemma restarts_app (a b : list line) :
  restarts (a ++ b) = restarts a + restarts b.
Proof.
  induction a as [|l a IH]; [reflexivity|]. destruct l; cbn; rewrite IH; lia.
Qed.

Lemma after_snoc (hs : list happening) (h : happening) :
  after (hs ++ [h]) = react (after hs) h.
Proof. unfold after. now rewrite fold_left_app. Qed.

Lemma after_invariants (hs : list happening) :
  one_pending (after hs) /\ one_server (after hs)
  /\ spawned (after hs) = restarts (console (after hs))
  /\ restarts (console (after hs)) + List.length (timers (after hs))
     <= 1 + changes hs.
Proof.
  induction hs as [|h hs IH] using rev_ind.
  - unfold after. cbn. repeat split.
    + now left.
    + apply startServer_one_server. left. auto.
    + lia.
  - rewrite after_snoc. destruct IH as (H1 & H2 & H3 & H4).
    split; [now apply react_one_pending|].
    split; [now apply react_one_server|].
    assert (Hc : changes (hs ++ [h])
                 = changes hs + match h with Change _ => 1 | _ => 0 end).
    { clear. induction hs as [|x hs IH]; cbn.
      - destruct h; reflexivity.
      - destruct x; cbn; rewrite IH; lia. }
    rewrite Hc. destruct h as [f|id]; cbn [react].
    + destruct (listener_one_pending f _ H1) as [Ht _]. rewrite Ht.
      unfold listener, clearTimeout.
      destruct (debounceTimeout (after hs)); cbn; split; try exact H3;
        destruct H1 as [Hn|(? & ? & Hn & _)]; rewrite Hn in H4; cbn in *; lia.
    + unfold expire.
      destruct (find _ (timers (after hs))) as [[id' f]|] eqn:Hf;
        [|split; [exact H3|lia]].
      cbn. rewrite !restarts_app. cbn. rewrite H3. split; [lia|].
      destruct H1 as [Hn|(i0 & f0 & Hn & _)]; rewrite Hn in *; cbn in *;
        [discriminate|].
      destruct (Nat.eqb_spec i0 id); [|discriminate]. cbn. lia.
Qed.

Lemma listeners_pending (fs : list string) (f : string) (w : Watcher) :
  one_pending w ->
  let w' := fold_left (fun w f => listener f w) (fs ++ [f]) w in
  exists id, timers w' = [(id, f)] /\ debounceTimeout w' = Some id
             /\ console w' = console w /\ spawned w' = spawned w
             /\ nodeProcess w' = nodeProcess w.
Proof.
  revert w. induction fs as [|g fs IH]; intros w Hw; cbn.
  - destruct (listener_one_pending f w Hw) as [H1 H2].
    exists (timers_set w). repeat split; auto;
      unfold listener, clearTimeout; destruct (debounceTimeout w); reflexivity.
  - destruct (IH (listener g w)) as (id & H1 & H2 & H3 & H4 & H5).
    + destruct (listener_one_pending g w Hw) as [Ha Hb]. right. eauto.
    + exists id. repeat split; auto.
      * rewrite H3. unfold listener, clearTimeout.
        destruct (debounceTimeout w); reflexivity.
      * rewrite H4. unfold listener, clearTimeout.
        destruct (debounceTimeout w); reflexivity.
      * rewrite H5. unfold listener, clearTimeout.
        destruct (debounceTimeout w); reflexivity.
Qed.

End WatchFacts.

Import Watch WatchFacts.

(** X23. [watchDirectory] watches exactly the regular files whose path
    ends with [.js] and that are reached from the starting directory
    through directories that are neither named [node_modules] nor start
    with a dot: nothing below such a directory is watched, a hidden file
    of an entered directory is, and entries that are neither files nor
    directories are skipped. *)
Theorem watchDirectory_watches_the_visible_js_files
        (dir : string) (entries : list Dirent) (path : string) :
  In path (watchDirectory dir entries) <->
  exists dirs name,
    located entries dirs name
    /\ List.forallb entered dirs = true
    /\ path = path_of dir dirs name
    /\ endsWith path ".js" = true.
Proof.
  unfold watchDirectory. rewrite in_flat_map. split.
  - intros (e & He & Hin).
    apply watchEntry_located in Hin as (dirs & name & Hl & Hv & Hp & Hjs).
    exists dirs, name. repeat split; auto.
    apply located_one. eauto.
  - intros (dirs & name & Hl & Hv & Hp & Hjs).
    apply located_one in Hl as (e & He & Hl).
    exists e. split; [assumption|]. apply watchEntry_located. eauto 8.
Qed.

Lemma watchDirectory_watches_the_visible_js_files_witness :
  watchDirectory "/app"
    [File "index.js"; File "README.md"; File ".eslintrc.js";
     Directory "node_modules" [Directory "dep" [File "main.js"]];
     Directory ".git" [File "hook.js"];
     Directory "lib" [File "watch.js"; Other "link.js";
                      Directory "js" [File "notes.txt"]]]
  = ["/app/index.js"; "/app/.eslintrc.js"; "/app/lib/watch.js"]
  /\ In "/app/lib/watch.js"
        (watchDirectory "/app" [Directory "lib" [File "watch.js"]]).
Proof.
  split; [reflexivity|].
  apply (watchDirectory_watches_the_visible_js_files
           "/app" [Directory "lib" [File "watch.js"]] "/app/lib/watch.js").
  exists ["lib"], "watch.js". cbn. repeat split.
  exists [File "watch.js"]. split; now left.
Defined.

(** X24. Changes are debounced through one timer: whatever happened
    before, at most one timer is pending and [debounceTimeout] names it;
    after a burst of changes with no expiry in between, the one pending
    timer is that of the last change, nothing was logged or restarted
    meanwhile, and when it expires the watcher logs that file and restarts
    the server once, leaving no timer pending. *)
Theorem a_burst_of_changes_restarts_once
        (hs : list happening) (files : list string) (last : string) :
  one_pending (after hs)
  /\ let w := after (hs ++ map Change (files ++ [last])) in
     exists id,
       timers w = [(id, last)]
       /\ debounceTimeout w = Some id
       /\ console w = console (after hs)
       /\ nodeProcess w = nodeProcess (after hs)
       /\ console (expire id w)
          = console (after hs) ++ [ChangesDetected last; Restarted]
       /\ timers (expire id w) = [].
Proof.
  split; [apply after_invariants|]. cbv zeta.
  assert (Hmap : forall l w,
             fold_left react (map Change l) w
             = fold_left (fun w f => listener f w) l w).
  { induction l as [|f l IH]; intros w; cbn; auto. }
  assert (Hafter : after (hs ++ map Change (files ++ [last]))
                   = fold_left (fun w f => listener f w) (files ++ [last])
                               (after hs)).
  { unfold after. now rewrite fold_left_app, Hmap. }
  rewrite Hafter.
  destruct (listeners_pending files last (after hs))
    as (id & H1 & H2 & H3 & H4 & H5); [apply after_invariants|].
  exists id. repeat split; auto.
  - unfold expire. rewrite H1. cbn. rewrite Nat.eqb_refl. cbn.
    rewrite H3, <- app_assoc. reflexivity.
  - unfold expire. rewrite H1. cbn. now rewrite Nat.eqb_refl.
Qed.

(** X25. The watcher keeps one server: whatever happened, the current
    process is the one spawned last, [kill] was called on exactly the
    processes spawned before it, each restart spawned one process, and
    there are never more restarts, counting a pending one, than one per
    change after the initial start. *)
Theorem one_server_process_at_a_time (hs : list happening) :
  let w := after hs in
  (exists p, nodeProcess w = Some p /\ spawned w = S p
             /\ forall q, q < p <-> In q (killed w))
  /\ spawned w = restarts (console w)
  /\ restarts (console w) + List.length (timers w) <= 1 + changes hs.
Proof.
  destruct (after_invariants hs) as (_ & H2 & H3 & H4). auto.
Qed.
